(** * FileSystemHelper: a shallow embedding of src/FileSystemHelper.ts

    The class wraps Node's [fs], [path] and [child_process] modules.  The
    wrappers are embedded as functions over an explicit operating-system
    interface ([Os.api]); a tree-shaped file system ([TreeFs]) implements
    that interface so that every wrapper can be evaluated on concrete
    inputs.  Promises are embedded by their final state ([Js.settle]),
    synchronous calls by their completion ([Js.completion]). *)

From Stdlib Require Import Ascii String List Bool Arith ZArith Lia DecimalString.
From Stdlib Require DecimalPos DecimalN.
From stdpp Require Import gmap strings list fin_maps.
Import ListNotations.

Local Open Scope string_scope.
Local Open Scope list_scope.

Set Warnings "-register-all".

(** ** JavaScript values shared by all methods *)

Module Js.

(** Error codes of the operating system, as carried by Node's [Error.code]. *)
Inductive errno : Type :=
| ENOENT | ENOTDIR | EISDIR | EEXIST | ENOTEMPTY | EBUSY | ENXIO | EACCES | EINVAL.

(** What a JavaScript call can throw, or a promise can be rejected with. *)
Inductive error : Type :=
| SystemError (code : errno)
| SyntaxError
| TypeError.

(** Outcome of one call of a Node primitive: the [err] argument of a
    callback ([Err e]) or its absence ([Ok a]); for the [...Sync]
    primitives, the exception thrown or the value returned. *)
Inductive result (A : Type) : Type :=
| Ok (a : A)
| Err (e : error).
Arguments Ok {A} a.
Arguments Err {A} e.

(** Completion of a synchronous method. *)
Inductive completion (A : Type) : Type :=
| Returned (a : A)
| Raised (e : error).
Arguments Returned {A} a.
Arguments Raised {A} e.

(** Final state of a promise. *)
Inductive settle (A : Type) : Type :=
| Resolved (a : A)
| Rejected (e : error)
| Pending.
Arguments Resolved {A} a.
Arguments Rejected {A} e.
Arguments Pending {A}.

(** [fs.xSync(...)]: the primitive's error is thrown. *)
Definition throwing {A} (r : result A) : completion A :=
  match r with Ok a => Returned a | Err e => Raised e end.

(** [new Promise((resolve, reject) => fs.x(..., (err, data) =>
    { if (err) { reject(err) } else { resolve(data) } }))]. *)
Definition promisified {A} (r : result A) : settle A :=
  match r with Ok a => Resolved a | Err e => Rejected e end.

(** [!err] for the [err] argument of a callback. *)
Definition not_err {A} (r : result A) : bool :=
  match r with Ok _ => true | Err _ => false end.

(** Sequencing of statements that may throw. *)
Definition bind {A B} (c : completion A) (k : A -> completion B) : completion B :=
  match c with Returned a => k a | Raised e => Raised e end.

(** [await p] inside an [async] function whose own promise is observed
    by nobody: a rejection of [p] is thrown inside the function and the
    continuation never runs. *)
Definition await {A B} (p : settle A) (k : A -> option B) : option B :=
  match p with Resolved a => k a | Rejected _ => None | Pending => None end.

(** The synchronous completion [c] and the promise state [p] are the
    same outcome. *)
Definition same_outcome {A} (c : completion A) (p : settle A) : Prop :=
  match c, p with
  | Returned a, Resolved b => a = b
  | Raised e, Rejected e' => e = e'
  | _, _ => False
  end.

(** The two variants of a method end the same way and leave the same
    state. *)
Definition agree {A S : Type} (sync : completion A * S) (async : settle A * S) : Prop :=
  same_outcome (fst sync) (fst async) /\ snd sync = snd async.

(** JavaScript strings *)

(** [s.endsWith(suffix)] *)
Definition endsWith (s suffix : string) : bool :=
  let ls := String.length s in
  let lf := String.length suffix in
  (lf <=? ls)%nat && String.eqb (substring (ls - lf) lf s) suffix.

(** [s.startsWith(prefix)] *)
Definition startsWith (s pre : string) : bool := String.prefix pre s.

(** [s.split(sep)] for a one-character separator: the pieces between
    the separators, empty pieces included. *)
Fixpoint split_acc (sep : ascii) (cur : string) (s : string) : list string :=
  match s with
  | EmptyString => [cur]
  | String c rest =>
      if Ascii.eqb c sep then cur :: split_acc sep "" rest
      else split_acc sep (cur +:+ String c "") rest
  end.

Definition split (sep : ascii) (s : string) : list string := split_acc sep "" s.

(** [parts.join(sep)] *)
Definition join_with (sep : string) (parts : list string) : string :=
  String.concat sep parts.

(** A [Buffer]: the bytes of a file.  JavaScript strings are modelled by
    their UTF-8 bytes, so [Buffer.from(s)] and [buffer.toString()] keep
    the bytes and change the type. *)
Record Buffer : Type := mkBuffer { bytes : string }.

Definition Buffer_from (s : string) : Buffer := mkBuffer s.
Definition toString (b : Buffer) : string := bytes b.

End Js.

(** ** Node's [path] module (POSIX flavour) *)

Module Path.
Import Js.

Definition slash : ascii := "/"%char.

(** One step of [normalizeString]: [stack] holds the segments kept so
    far, last one first. *)
Definition normalize_step (allowAboveRoot : bool) (stack : list string) (seg : string)
  : list string :=
  if String.eqb seg "" || String.eqb seg "." then stack
  else if String.eqb seg ".." then
    match stack with
    | top :: below =>
        if String.eqb top ".." then (if allowAboveRoot then ".." :: stack else stack)
        else below
    | [] => if allowAboveRoot then [".."] else []
    end
  else seg :: stack.

Definition normalizeString (allowAboveRoot : bool) (segs : list string) : list string :=
  rev (fold_left (normalize_step allowAboveRoot) segs []).

(** [path.normalize(p)] *)
Definition normalize (p : string) : string :=
  if String.eqb p "" then "."
  else
    let isAbsolute := startsWith p "/" in
    let trailingSeparator := endsWith p "/" in
    let body := join_with "/" (normalizeString (negb isAbsolute) (split slash p)) in
    if String.eqb body "" then
      (if isAbsolute then "/" else if trailingSeparator then "./" else ".")
    else
      (if isAbsolute then "/" else "") +:+ body +:+ (if trailingSeparator then "/" else "").

(** [path.join(...args)]: the non-empty arguments joined by ["/"], then
    normalised; ["."] when nothing is left. *)
Definition join (args : list string) : string :=
  match List.filter (fun a => negb (String.eqb a "")) args with
  | [] => "."
  | parts => normalize (join_with "/" parts)
  end.

(** The names that are left of a path when [.] and [..] are resolved
    on its text, as [normalize] does, with nothing above the working
    directory: where a path leads when all of it can be walked. *)
Definition segments (p : string) : list string :=
  normalizeString false (split slash p).

End Path.

(** ** The operating-system interface the class is written against *)

Module Os.
Import Js.

(** [fs.Dirent]: a name and the kind of the entry.  [isFile()] and
    [isDirectory()] are both false for the other kinds (symbolic links,
    sockets, FIFOs, devices). *)
Inductive kind : Type := KFile | KDirectory | KOther.

Record Dirent : Type := mkDirent { name : string; dkind : kind }.

Definition isFile (d : Dirent) : bool :=
  match dkind d with KFile => true | _ => false end.

Definition isDirectory (d : Dirent) : bool :=
  match dkind d with KDirectory => true | _ => false end.

(** [fs.Stats], reduced to the fields a caller of this class can tell
    apart. *)
Record Stats : Type := mkStats { st_kind : kind; st_size : nat }.

(** The [flag] of the options of [fs.writeFile]; absent means ['w']. *)
Inductive flag : Type := FlagW | FlagA.

Record WriteOptions : Type := mkWriteOptions { wflag : option flag }.

(** The primitives of Node's [fs] module the class calls.  A primitive
    and its [...Sync] twin are one operation of the operating system,
    reported through a callback or through return and throw; the
    record has one field for both.  Reading primitives leave the state
    alone, writing primitives return the new state. *)
Record api : Type := mkApi {
  St : Type;
  fs_access : string -> St -> result unit;
  fs_stat : string -> St -> result Stats;
  fs_readFile : string -> St -> result Buffer;
  fs_readdir : string -> St -> result (list Dirent);
  fs_mkdir : string -> St -> result unit * St;
  fs_writeFile : string -> string -> WriteOptions -> St -> result unit * St;
  fs_rmdir : string -> St -> result unit * St;
  fs_unlink : string -> St -> result unit * St
}.

(** [JSON.stringify] and [JSON.parse] over the values of the runtime;
    [JSON.parse] throws a [SyntaxError] on malformed text. *)
Record json (value : Type) : Type := mkJson {
  JSON_stringify : value -> string;
  JSON_parse : string -> result value
}.
Arguments JSON_stringify {value} _ _.
Arguments JSON_parse {value} _ _.

End Os.

(** ** The class [FileSystemHelper] *)

Module FileSystemHelper.
Import Js Os.

(** A path argument: a string, or an array of segments
    ([Array.isArray(dirPath)]). *)
Inductive path_arg : Type :=
| PStr (s : string)
| PArr (segs : list string).

(** Options of [readDir] and [readDirSync]. *)
Record ReadDirOptions : Type := mkReadDirOptions {
  acceptExtensions : option (list string);
  recursiveLevels : option nat;
  onlyFiles : bool;
  onlyDirs : bool
}.

(** [options = {}] of [writeFile] and [options = { flag: 'a' }] of
    [touch]. *)
Definition no_options : WriteOptions := mkWriteOptions None.
Definition touch_options : WriteOptions := mkWriteOptions (Some FlagA).

(** The body of an [async] function that awaits a promise and then
    runs synchronous code on its value. *)
Definition async_then {A B} (p : settle A) (k : A -> completion B) : settle B :=
  match p with
  | Resolved a => match k a with Returned b => Resolved b | Raised e => Rejected e end
  | Rejected e => Rejected e
  | Pending => Pending
  end.

(** [try { body } catch (err) { return fallback }] *)
Definition try_catch {A} (body : completion A) (fallback : A) : completion A :=
  match body with Returned a => Returned a | Raised _ => Returned fallback end.

(** [array.push(x)] *)
Definition push {A} (array : list A) (x : A) : list A := array ++ [x].

(** The extension filter of [readDir]:
    [!file.isFile() || acceptExtensions.some((extension) =>
    file.name.endsWith(`.${extension}`))]. *)
Definition accepted (acceptExtensions : list string) (file : Dirent) : bool :=
  negb (isFile file)
  || existsb (fun extension => endsWith (name file) ("." +:+ extension)) acceptExtensions.

Definition filter_extensions (acceptExtensions : option (list string)) (files : list Dirent)
  : list Dirent :=
  match acceptExtensions with
  | Some exts => List.filter (accepted exts) files
  | None => files
  end.

(** [childFile.name = join(file.name, childFile.name)] *)
Definition rename_child (file childFile : Dirent) : Dirent :=
  mkDirent (Path.join [name file; name childFile]) (dkind childFile).

(** The inner loop: every child pushed under its new name. *)
Definition push_children (file : Dirent) (foundFiles childrenFiles : list Dirent)
  : list Dirent :=
  fold_left (fun found childFile => push found (rename_child file childFile))
    childrenFiles foundFiles.

(** The two final filters. *)
Definition filter_only (onlyFiles onlyDirs : bool) (acceptedFiles : list Dirent)
  : list Dirent :=
  let acceptedFiles := if onlyFiles then List.filter isFile acceptedFiles else acceptedFiles in
  if onlyDirs then List.filter isDirectory acceptedFiles else acceptedFiles.

Section Methods.
Context (O : api) {value : Type} (J : json value).

(** [this.rootPath]: absent, or a string (the empty string is falsy). *)
Variable rootPath : option string.

Abbreviation state := (St O).

Definition resolvePath (dirPath : path_arg) : string :=
  let dirPathString :=
    match dirPath with PArr segs => Path.join segs | PStr s => s end in
  match rootPath with
  | Some root =>
      if String.eqb root "" then dirPathString else Path.join [root; dirPathString]
  | None => dirPathString
  end.

(** [fs.existsSync(p)]: true when the path can be accessed. *)
Definition existsSync (p : string) (st : state) : bool := not_err (fs_access O p st).

Definition mkdir (dirPath : string) (st : state) : settle unit * state :=
  let '(err, st') := fs_mkdir O (resolvePath (PStr dirPath)) st in
  (promisified err, st').

Definition mkdirSync (dirPath : string) (st : state) : completion unit * state :=
  if existsSync (resolvePath (PStr dirPath)) st then (Returned tt, st)
  else
    let '(err, st') := fs_mkdir O (resolvePath (PStr dirPath)) st in
    (throwing err, st').

Definition writeFile (filePath data : string) (options : WriteOptions) (st : state)
  : settle unit * state :=
  let '(err, st') := fs_writeFile O (resolvePath (PStr filePath)) data options st in
  (promisified err, st').

Definition writeFileSync (filePath data : string) (options : WriteOptions) (st : state)
  : completion unit * state :=
  let '(err, st') := fs_writeFile O (resolvePath (PStr filePath)) data options st in
  (throwing err, st').

Definition writeJSONFile (filePath : string) (object : value) (st : state)
  : settle unit * state :=
  writeFile filePath (JSON_stringify J object) no_options st.

Definition readFile (filePath : string) (st : state) : settle Buffer :=
  promisified (fs_readFile O (resolvePath (PStr filePath)) st).

Definition readFileSync (filePath : string) (st : state) : completion Buffer :=
  throwing (fs_readFile O (resolvePath (PStr filePath)) st).

Definition readTXTFile (filePath : string) (st : state) : settle string :=
  async_then (readFile filePath st) (fun data => Returned ("" +:+ toString data)).

Definition readTXTFileSync (filePath : string) (st : state) : completion string :=
  bind (readFileSync filePath st) (fun data => Returned ("" +:+ toString data)).

Definition readJSONFile (filePath : string) (st : state) : settle value :=
  async_then (readFile filePath st)
    (fun data => throwing (JSON_parse J (toString data))).

Definition readJSONFileSync (filePath : string) (st : state) : completion value :=
  bind (readFileSync filePath st)
    (fun data => throwing (JSON_parse J (toString data))).

Definition fileExists (filePath : string) (st : state) : settle bool :=
  Resolved (not_err (fs_access O (resolvePath (PStr filePath)) st)).

Definition fileExistsSync (filePath : string) (st : state) : completion bool :=
  try_catch
    (bind (throwing (fs_access O (resolvePath (PStr filePath)) st))
       (fun _ => Returned true))
    false.

Definition fileStatsSync (filePath : string) (st : state) : completion (option Stats) :=
  try_catch
    (bind (throwing (fs_stat O (resolvePath (PStr filePath)) st))
       (fun stats => Returned (Some stats)))
    None.

Definition dirExists (dirPath : string) (st : state) : settle bool :=
  Resolved (not_err (fs_stat O (resolvePath (PStr dirPath)) st)).

Definition dirExistsSync (dirPath : string) (st : state) : completion bool :=
  try_catch
    (bind (throwing (fs_stat O (resolvePath (PStr dirPath)) st))
       (fun _ => Returned true))
    false.

Definition rmdir (dirPath : string) (st : state) : settle bool * state :=
  let '(err, st') := fs_rmdir O (resolvePath (PStr dirPath)) st in
  (Resolved (not_err err), st').

Definition rmdirSync (dirPath : string) (st : state) : completion unit * state :=
  let '(err, st') := fs_rmdir O (resolvePath (PStr dirPath)) st in
  (throwing err, st').

Definition rm (filePath : string) (st : state) : settle unit * state :=
  let '(err, st') := fs_unlink O (resolvePath (PStr filePath)) st in
  (promisified err, st').

Definition rmSync (filePath : string) (st : state) : completion unit * state :=
  let '(err, st') := fs_unlink O (resolvePath (PStr filePath)) st in
  (throwing err, st').

Definition touch (filePath : string) (options : WriteOptions) (st : state)
  : settle unit * state :=
  writeFile filePath "" options st.

Definition touchSync (filePath : string) (options : WriteOptions) (st : state)
  : completion unit * state :=
  writeFileSync filePath "" options st.

(** [readDirSync], by recursion on [recursiveLevels] (absent counts
    as 0: both are falsy).  The recursive call passes
    [{ acceptExtensions, recursiveLevels: recursiveLevels - 1 }], so
    [onlyFiles] and [onlyDirs] are off below the top. *)
Fixpoint readDirSync_levels (levels : nat) (dirPath : string)
    (acceptExtensions : option (list string)) (onlyFiles onlyDirs : bool) (st : state)
  : completion (list Dirent) :=
  bind (throwing (fs_readdir O (resolvePath (PStr dirPath)) st)) (fun files =>
  let acceptedFiles := filter_extensions acceptExtensions files in
  bind
    match levels with
    | 0 => Returned acceptedFiles
    | S below =>
        fold_left
          (fun loop file =>
             bind loop (fun foundFiles =>
             if isDirectory file then
               bind (readDirSync_levels below (Path.join [dirPath; name file])
                       acceptExtensions false false st)
                 (fun childrenFiles =>
                    Returned (push_children file foundFiles childrenFiles))
             else Returned (push foundFiles file)))
          acceptedFiles (Returned [])
    end
    (fun acceptedFiles => Returned (filter_only onlyFiles onlyDirs acceptedFiles))).

Definition levels_of (options : ReadDirOptions) : nat :=
  match recursiveLevels options with Some n => n | None => 0 end.

Definition readDirSync (dirPath : string) (options : ReadDirOptions) (st : state)
  : completion (list Dirent) :=
  readDirSync_levels (levels_of options) dirPath (acceptExtensions options)
    (onlyFiles options) (onlyDirs options) st.

(** [readDir].  The callback of [fs.readdir] is an [async] function
    whose promise nobody observes: when an awaited child listing is
    rejected the callback stops before [resolve], and the promise
    returned by [readDir] stays pending.  [None] is a callback that
    stopped. *)
Fixpoint readDir_levels (levels : nat) (dirPath : string)
    (acceptExtensions : option (list string)) (onlyFiles onlyDirs : bool) (st : state)
  : settle (list Dirent) :=
  match fs_readdir O (resolvePath (PStr dirPath)) st with
  | Err err => Rejected err
  | Ok files =>
      let acceptedFiles := filter_extensions acceptExtensions files in
      let expanded :=
        match levels with
        | 0 => Some acceptedFiles
        | S below =>
            fold_left
              (fun loop file =>
                 match loop with
                 | None => None
                 | Some foundFiles =>
                     if isDirectory file then
                       await (readDir_levels below (Path.join [dirPath; name file])
                                acceptExtensions false false st)
                         (fun childrenFiles =>
                            Some (push_children file foundFiles childrenFiles))
                     else Some (push foundFiles file)
                 end)
              acceptedFiles (Some [])
        end in
      match expanded with
      | Some acceptedFiles => Resolved (filter_only onlyFiles onlyDirs acceptedFiles)
      | None => Pending
      end
  end.

Definition readDir (dirPath : string) (options : ReadDirOptions) (st : state)
  : settle (list Dirent) :=
  readDir_levels (levels_of options) dirPath (acceptExtensions options)
    (onlyFiles options) (onlyDirs options) st.

End Methods.

End FileSystemHelper.

(** ** A tree-shaped file system implementing the interface *)

Module TreeFs.
Import Js Os.

(** A regular file with its content, a directory with its entries in
    listing order, or a special file (socket, FIFO, device). *)
Inductive node : Type :=
| File (content : string)
| Dir (entries : list (string * node))
| Special.

Fixpoint find_entry (nm : string) (entries : list (string * node)) : option node :=
  match entries with
  | [] => None
  | (nm', n) :: rest => if String.eqb nm nm' then Some n else find_entry nm rest
  end.

(** Replace the entry in place, or add it at the end. *)
Fixpoint set_entry (nm : string) (n : node) (entries : list (string * node))
  : list (string * node) :=
  match entries with
  | [] => [(nm, n)]
  | (nm', n') :: rest =>
      if String.eqb nm nm' then (nm', n) :: rest else (nm', n') :: set_entry nm n rest
  end.

Fixpoint remove_entry (nm : string) (entries : list (string * node))
  : list (string * node) :=
  match entries with
  | [] => []
  | (nm', n') :: rest =>
      if String.eqb nm nm' then rest else (nm', n') :: remove_entry nm rest
  end.

(** Path resolution from the root. *)
Fixpoint lookup_node (segs : list string) (n : node) : result node :=
  match segs with
  | [] => Ok n
  | s :: rest =>
      match n with
      | Dir entries =>
          match find_entry s entries with
          | Some child => lookup_node rest child
          | None => Err (SystemError ENOENT)
          end
      | _ => Err (SystemError ENOTDIR)
      end
  end.

(** Change the entry named by the path [s :: rest] below a directory
    with the given entries: [f] receives the entry ([None] when its
    parent has none of that name) and answers with the new entry
    ([None] to remove it) or with an error. *)
Fixpoint change (s : string) (rest : list string)
    (f : option node -> result (option node)) (entries : list (string * node))
  : result (list (string * node)) :=
  match rest with
  | [] =>
      match f (find_entry s entries) with
      | Ok (Some child) => Ok (set_entry s child entries)
      | Ok None => Ok (remove_entry s entries)
      | Err e => Err e
      end
  | s' :: rest' =>
      match find_entry s entries with
      | Some (Dir below) =>
          match change s' rest' f below with
          | Ok below' => Ok (set_entry s (Dir below') entries)
          | Err e => Err e
          end
      | Some _ => Err (SystemError ENOTDIR)
      | None => Err (SystemError ENOENT)
      end
  end.

Definition kind_of (n : node) : kind :=
  match n with File _ => KFile | Dir _ => KDirectory | Special => KOther end.

Definition stats_of (n : node) : Stats :=
  mkStats (kind_of n) (match n with File c => String.length c | _ => 0 end).

Definition dirent_of (entry : string * node) : Dirent :=
  mkDirent (fst entry) (kind_of (snd entry)).

(** What [open] for writing does to the entry. *)
Definition write_entry (data : string) (options : WriteOptions) (old : option node)
  : result (option node) :=
  match old with
  | None => Ok (Some (File data))
  | Some (File content) =>
      match wflag options with
      | Some FlagA => Ok (Some (File (content +:+ data)))
      | _ => Ok (Some (File data))
      end
  | Some (Dir _) => Err (SystemError EISDIR)
  | Some Special => Err (SystemError ENXIO)
  end.

Definition rmdir_entry (old : option node) : result (option node) :=
  match old with
  | None => Err (SystemError ENOENT)
  | Some (Dir []) => Ok None
  | Some (Dir (_ :: _)) => Err (SystemError ENOTEMPTY)
  | Some _ => Err (SystemError ENOTDIR)
  end.

Definition unlink_entry (old : option node) : result (option node) :=
  match old with
  | None => Err (SystemError ENOENT)
  | Some (Dir _) => Err (SystemError EISDIR)
  | Some _ => Ok None
  end.

(** What [mkdir] of one directory does to the entry. *)
Definition mkdir_entry (old : option node) : result (option node) :=
  match old with
  | None => Ok (Some (Dir []))
  | Some _ => Err (SystemError EEXIST)
  end.

(** The state: the entries of the root directory, which is also the
    working directory. *)
Definition tree : Type := list (string * node).

(** *** Paths, component by component

    The operating system takes a path as it is written and walks it
    one component at a time: every component is looked up in what the
    components before it lead to, which has to be a directory.  So
    [missing/../a.txt] fails at [missing] and [a.txt/] fails at the
    slash after the file, though [path.normalize] makes [a.txt] of
    both. *)

(** The components of a path: the pieces between its slashes. *)
Definition components (p : string) : list string := split Path.slash p.

(** The empty component (two slashes in a row, a slash at either end)
    and [.] stay in the directory. *)
Definition stays (c : string) : bool := String.eqb c "" || String.eqb c ".".

(** One component further from the directory [dir], given by the
    names that lead to it from the root, the last one first; [..]
    leads to the parent, and the root is its own parent. *)
Definition enter (dir : list string) (c : string) : list string :=
  if stays c then dir else if String.eqb c ".." then tl dir else c :: dir.

Definition node_at (dir : list string) (st : tree) : result node :=
  lookup_node (rev dir) (Dir st).

(** Walking the components from [dir]: a component can be looked up
    in a directory only, ENOTDIR in anything else that exists, ENOENT
    in what does not exist.  What the last component leads to is not
    looked at. *)
Fixpoint walk (st : tree) (dir : list string) (comps : list string)
  : result (list string) :=
  match comps with
  | [] => Ok dir
  | c :: rest =>
      match node_at dir st with
      | Ok (Dir _) => walk st (enter dir c) rest
      | Ok _ => Err (SystemError ENOTDIR)
      | Err e => Err e
      end
  end.

(** What a path leads to.  The empty string names nothing (ENOENT). *)
Definition lookup (p : string) (st : tree) : result node :=
  if String.eqb p "" then Err (SystemError ENOENT)
  else
    match walk st [] (components p) with
    | Ok dir => node_at dir st
    | Err e => Err e
    end.

(** What the end of a path names, for the calls that create or remove
    an entry: the root (nothing but slashes), the directory [dir]
    itself ([.]), its parent ([..]), or the entry [name] of [dir],
    with or without slashes after the name. *)
Inductive place : Type :=
| Root
| Dot (dir : list string)
| DotDot (dir : list string)
| Entry (dir : list string) (name : string) (slash : bool).

(** The components from the last one back, without the empty ones
    that slashes at the end of the path leave. *)
Fixpoint without_slashes (rcomps : list string) : list string :=
  match rcomps with
  | c :: rest => if String.eqb c "" then without_slashes rest else rcomps
  | [] => []
  end.

Definition ends_with_slash (rcomps : list string) : bool :=
  match rcomps with
  | c :: _ => String.eqb c ""
  | [] => false
  end.

(** The components before the last one are walked, and have to lead
    to a directory. *)
Definition locate (p : string) (st : tree) : result place :=
  if String.eqb p "" then Err (SystemError ENOENT)
  else
    let rcomps := rev (components p) in
    match without_slashes rcomps with
    | [] => Ok Root
    | last :: before =>
        match walk st [] (rev before) with
        | Ok dir =>
            match node_at dir st with
            | Ok (Dir _) =>
                Ok (if String.eqb last "." then Dot dir
                    else if String.eqb last ".." then DotDot dir
                    else Entry dir last (ends_with_slash rcomps))
            | Ok _ => Err (SystemError ENOTDIR)
            | Err e => Err e
            end
        | Err e => Err e
        end
    end.

(** The path of the directory a path lies in. *)
Definition parent (segs : list string) : list string := removelast segs.

(** The path names an entry, present or not, of a directory that
    exists, and no slash follows the name. *)
Definition parent_is_directory (p : string) (st : tree) : Prop :=
  exists dir name, locate p st = Ok (Entry dir name false).

(** A writing primitive leaves the tree as it was when it fails. *)
Definition commit (st : tree) (r : result tree) : result unit * tree :=
  match r with Ok st' => (Ok tt, st') | Err e => (Err e, st) end.

(** [change] at the entry [name] of the directory [dir]. *)
Definition change_entry (dir : list string) (name : string)
    (f : option node -> result (option node)) (st : tree) : result tree :=
  match rev (name :: dir) with
  | s :: rest => change s rest f st
  | [] => Err (SystemError ENOENT)
  end.

Definition tree_access (p : string) (st : tree) : result unit :=
  match lookup p st with Ok _ => Ok tt | Err e => Err e end.

Definition tree_stat (p : string) (st : tree) : result Stats :=
  match lookup p st with
  | Ok n => Ok (stats_of n)
  | Err e => Err e
  end.

Definition tree_readFile (p : string) (st : tree) : result Buffer :=
  match lookup p st with
  | Ok (File content) => Ok (Buffer_from content)
  | Ok (Dir _) => Err (SystemError EISDIR)
  | Ok Special => Err (SystemError ENXIO)
  | Err e => Err e
  end.

Definition tree_readdir (p : string) (st : tree) : result (list Dirent) :=
  match lookup p st with
  | Ok (Dir entries) => Ok (map dirent_of entries)
  | Ok _ => Err (SystemError ENOTDIR)
  | Err e => Err e
  end.

(** [fs.mkdir(p, { recursive: true })].  Node tries [mkdir] on the
    path; on ENOENT it cuts the last component off and tries that
    first, and so on, then comes back to the longer paths; on EEXIST
    it accepts a directory.  The directories come to exist one
    component after the other, from the left, through [.] and [..]
    too, so [fresh/../x] creates [fresh] and [x]; a component that
    exists and is not a directory ends the call, with EEXIST when it
    is the last one and ENOTDIR when more of the path follows, and
    what was created before it stays. *)
Fixpoint mkdirp (comps : list string) (dir : list string) (st : tree)
  : result unit * tree :=
  match comps with
  | [] => (Ok tt, st)
  | c :: rest =>
      if stays c || String.eqb c ".." then mkdirp rest (enter dir c) st
      else
        match node_at (c :: dir) st with
        | Ok (Dir _) => mkdirp rest (c :: dir) st
        | Ok _ =>
            (Err (SystemError (match rest with [] => EEXIST | _ => ENOTDIR end)), st)
        | Err _ =>
            match change_entry dir c mkdir_entry st with
            | Ok st' => mkdirp rest (c :: dir) st'
            | Err e => (Err e, st)
            end
        end
  end.

Definition tree_mkdir (p : string) (st : tree) : result unit * tree :=
  if String.eqb p "" then (Err (SystemError ENOENT), st)
  else mkdirp (components p) [] st.

(** [open] with ['w'] or ['a'], both of which create: a directory
    cannot be opened for writing, and a name with a slash after it is
    refused as one (EISDIR). *)
Definition tree_writeFile (p data : string) (options : WriteOptions) (st : tree)
  : result unit * tree :=
  match locate p st with
  | Ok (Entry dir name false) =>
      commit st (change_entry dir name (write_entry data options) st)
  | Ok _ => (Err (SystemError EISDIR), st)
  | Err e => (Err e, st)
  end.

(** [rmdir]: the root is busy, [.] is invalid, [..] is not empty. *)
Definition tree_rmdir (p : string) (st : tree) : result unit * tree :=
  match locate p st with
  | Ok (Entry dir name _) => commit st (change_entry dir name rmdir_entry st)
  | Ok Root => (Err (SystemError EBUSY), st)
  | Ok (Dot _) => (Err (SystemError EINVAL), st)
  | Ok (DotDot _) => (Err (SystemError ENOTEMPTY), st)
  | Err e => (Err e, st)
  end.

(** [unlink]: a name with a slash after it has to be a directory,
    and a directory is not unlinked. *)
Definition tree_unlink (p : string) (st : tree) : result unit * tree :=
  match locate p st with
  | Ok (Entry dir name false) => commit st (change_entry dir name unlink_entry st)
  | Ok (Entry dir name true) =>
      (Err (SystemError
              (match node_at (name :: dir) st with
               | Ok (Dir _) => EISDIR
               | Ok _ => ENOTDIR
               | Err _ => ENOENT
               end)), st)
  | Ok _ => (Err (SystemError EISDIR), st)
  | Err e => (Err e, st)
  end.

Definition treefs : api :=
  mkApi tree tree_access tree_stat tree_readFile tree_readdir
    tree_mkdir tree_writeFile tree_rmdir tree_unlink.

End TreeFs.

(** ** JavaScript numbers *)

Module JsNumber.

(** A number is an IEEE 754 double: not a number, an infinity, a
    zero with its sign, or [m * 2^e] with its sign.  The format stores
    [2^52 <= m < 2^53] with [-1074 <= e <= 971] (a normal number) or
    [m < 2^52] with [e = -1074] (a subnormal one), so that a number
    is written in one way only. *)
Inductive number : Type :=
| NaN
| Infinity (negative : bool)
| Zero (negative : bool)
| Finite (negative : bool) (m : positive) (e : Z).

Definition is_double (x : number) : bool :=
  match x with
  | Finite _ m e =>
      ((2 ^ 52 <=? Zpos m)%Z && (Zpos m <? 2 ^ 53)%Z && (-1074 <=? e)%Z && (e <=? 971)%Z)
      || ((Zpos m <? 2 ^ 52)%Z && (e =? -1074)%Z)
  | _ => true
  end.

Definition is_finite (x : number) : bool :=
  match x with NaN | Infinity _ => false | _ => true end.

Definition eqb (x y : number) : bool :=
  match x, y with
  | NaN, NaN => true
  | Infinity s, Infinity s' => Bool.eqb s s'
  | Zero s, Zero s' => Bool.eqb s s'
  | Finite s m e, Finite s' m' e' => Bool.eqb s s' && Pos.eqb m m' && Z.eqb e e'
  | _, _ => false
  end.

(** The number without the sign of a zero: [-0] and [0] are told
    apart by [Object.is] only, [===] takes them for equal. *)
Definition unsigned (x : number) : number :=
  match x with Zero _ => Zero false | _ => x end.

(** *** Rounding a fraction to the nearest double

    Fractions are pairs [(a, b)] of integers, [a >= 0] and [b > 0]. *)

(** [a/b * 2^k] *)
Definition shift (a b k : Z) : Z * Z :=
  if (0 <=? k)%Z then ((a * 2 ^ k)%Z, b) else (a, (b * 2 ^ (- k))%Z).

(** The exponent of the power of two at or below [a/b]. *)
Definition binade (a b : Z) : Z :=
  let t := Z.max 0 (Z.log2 b + 1 - Z.log2 a) in
  (Z.log2 ((a * 2 ^ t) / b) - t)%Z.

(** The integer nearest to [a/b], the even one of two that are as
    near. *)
Definition round_half_even (a b : Z) : Z :=
  let q := (a / b)%Z in
  let r := (2 * (a mod b))%Z in
  if (r <? b)%Z then q
  else if (b <? r)%Z then (q + 1)%Z
  else if Z.even q then q else (q + 1)%Z.

(** The double nearest to [a/b] (round to nearest, ties to even):
    53 bits of [a/b] are kept, fewer below [2^-1022]; what rounds to
    [2^1024] or more is an infinity. *)
Definition of_ratio (negative : bool) (a b : Z) : number :=
  if (a =? 0)%Z then Zero negative
  else
    let e := Z.max (binade a b - 52) (-1074) in
    let '(a', b') := shift a b (- e) in
    let m := round_half_even a' b' in
    if (m =? 0)%Z then Zero negative
    else if (m =? 2 ^ 53)%Z then
      (if (971 <? e + 1)%Z then Infinity negative
       else Finite negative (Z.to_pos (2 ^ 52)) (e + 1))
    else if (971 <? e)%Z then Infinity negative
    else Finite negative (Z.to_pos m) e.

(** *** Decimal digits *)

Definition digits (n : N) : string := NilEmpty.string_of_uint (N.to_uint n).

Definition digit_value (c : ascii) : N := N.of_nat (nat_of_ascii c - 48).

(** The number a string of digits stands for, after the digits that
    gave [acc]. *)
Fixpoint value_from (acc : N) (ds : string) : N :=
  match ds with
  | EmptyString => acc
  | String c rest => value_from (10 * acc + digit_value c)%N rest
  end.

Definition value_of (ds : string) : N := value_from 0 ds.

Fixpoint zeros (j : nat) : string :=
  match j with
  | 0 => ""
  | S j => String "0" (zeros j)
  end.

(** [mant * 10^exp10] *)
Definition decimal (mant exp10 : Z) : Z * Z :=
  if (0 <=? exp10)%Z then ((mant * 10 ^ exp10)%Z, 1%Z) else (mant, (10 ^ (- exp10))%Z).

(** The value of a decimal literal ([StringToNumber]). *)
Definition of_decimal (negative : bool) (mant : N) (exp10 : Z) : number :=
  let '(a, b) := decimal (Z.of_N mant) exp10 in of_ratio negative a b.

(** What the digits [s] with the exponent [n] read as: [0.s * 10^n],
    that is [s * 10^(n - k)] for [k] digits. *)
Definition reads_as (negative : bool) (s : N) (n : Z) : number :=
  of_decimal negative s (n - Z.of_nat (String.length (digits s))).

(** *** [Number::toString]: the shortest digits that read as the number *)

(** [n] with [10^(n-1) <= a/b < 10^n]. *)
Definition magnitude (a b : Z) : Z :=
  let est :=
    (Z.of_nat (String.length (digits (Z.to_N a)))
     - Z.of_nat (String.length (digits (Z.to_N b))))%Z in
  let '(a', b') := decimal 1 est in
  if (a' * b <=? a * b')%Z then (est + 1)%Z else est.

(** The digits [s] at [k] digits and the exponent [n]; [10^k] is
    the one digit [1] with the exponent after [n]. *)
Definition place (n k s : Z) : N * Z :=
  if (s =? 10 ^ k)%Z then (Z.to_N (10 ^ (k - 1)), (n + 1)%Z) else (Z.to_N s, n).

Definition reads (negative : bool) (x : number) (n k s : Z) : bool :=
  let '(s', n') := place n k s in eqb (reads_as negative s' n') x.

(** The digits to take when [k] of them are enough: with
    [y = a/b * 10^(k-n)], the integer below [y] or the one above,
    whichever reads as the number, the nearer one when both do, and
    the even one when they are as near. *)
Definition candidate (negative : bool) (x : number) (a b n k : Z) : option (N * Z) :=
  let '(c, d) := decimal 1 (k - n) in
  let ya := (a * c)%Z in
  let yb := (b * d)%Z in
  let lo := (ya / yb)%Z in
  let r := (ya mod yb)%Z in
  let hi := (lo + 1)%Z in
  if (r =? 0)%Z then (if reads negative x n k lo then Some (place n k lo) else None)
  else
    match reads negative x n k lo, reads negative x n k hi with
    | true, true =>
        Some (place n k (if (2 * r <? yb)%Z then lo
                         else if (yb <? 2 * r)%Z then hi
                         else if Z.even lo then lo else hi))
    | true, false => Some (place n k lo)
    | false, true => Some (place n k hi)
    | false, false => None
    end.

Fixpoint search (fuel : nat) (negative : bool) (x : number) (a b n k : Z)
  : option (N * Z) :=
  match fuel with
  | 0 => None
  | S fuel =>
      match candidate negative x a b n k with
      | Some found => Some found
      | None => search fuel negative x a b n (k + 1)
      end
  end.

(** All the digits of [m * 2^e]. *)
Definition exact (m : positive) (e : Z) : N * Z :=
  if (0 <=? e)%Z then
    let s := Z.to_N (Zpos m * 2 ^ e) in
    (s, Z.of_nat (String.length (digits s)))
  else
    let s := Z.to_N (Zpos m * 5 ^ (- e)) in
    (s, (Z.of_nat (String.length (digits s)) + e)%Z).

(** As few digits as read as the number: seventeen are always enough
    for a double; all the digits are the answer of last resort. *)
Definition shortest (negative : bool) (m : positive) (e : Z) : N * Z :=
  let '(a, b) := shift (Zpos m) 1 e in
  match search 17 negative (Finite negative m e) a b (magnitude a b) 1 with
  | Some found => found
  | None => exact m e
  end.

Fixpoint split_at (n : nat) (s : string) : string * string :=
  match n, s with
  | S n, String c rest => let '(front, back) := split_at n rest in (String c front, back)
  | _, _ => ("", s)
  end.

(** The text of the digits [s] with the exponent [n]: the digits
    with zeros after them, with a point among them, or after [0.] and
    zeros, when the number is below [10^21] and not below [10^-6];
    one digit, a point, the other digits and the exponent
    otherwise. *)
Definition text (s : N) (n : Z) : string :=
  let ds := digits s in
  let k := Z.of_nat (String.length ds) in
  if ((k <=? n) && (n <=? 21))%Z then ds +:+ zeros (Z.to_nat (n - k))
  else if ((0 <? n) && (n <=? 21))%Z then
    let '(front, back) := split_at (Z.to_nat n) ds in front +:+ "." +:+ back
  else if ((-6 <? n) && (n <=? 0))%Z then "0." +:+ zeros (Z.to_nat (- n)) +:+ ds
  else
    let exponent :=
      (if (0 <=? n - 1)%Z then "+" else "-") +:+ digits (Z.to_N (Z.abs (n - 1))) in
    match ds with
    | String d EmptyString => String d "" +:+ "e" +:+ exponent
    | String d more => String d "" +:+ "." +:+ more +:+ "e" +:+ exponent
    | EmptyString => ""
    end.

(** [String(x)] *)
Definition toString (x : number) : string :=
  match x with
  | NaN => "NaN"
  | Infinity negative => (if negative then "-" else "") +:+ "Infinity"
  | Zero _ => "0"
  | Finite negative m e =>
      let '(s, n) := shortest negative m e in
      (if negative then "-" else "") +:+ text s n
  end.

(** *** Reading a decimal literal *)

Definition is_digit (c : ascii) : bool :=
  let n := nat_of_ascii c in Nat.leb 48 n && Nat.leb n 57.

(** The digits at the front of the text, and what follows them. *)
Fixpoint span_digits (s : string) : string * string :=
  match s with
  | String c rest =>
      if is_digit c then let '(ds, after) := span_digits rest in (String c ds, after)
      else ("", s)
  | EmptyString => ("", "")
  end.

(** The integer part: [0], or digits that do not start with [0]. *)
Definition integer_part (text : string) : option (string * string) :=
  match text with
  | String c rest =>
      if Ascii.eqb c "0" then Some ("0", rest)
      else if is_digit c then Some (span_digits text)
      else None
  | EmptyString => None
  end.

(** The fraction, when there is one: a point and one digit or more. *)
Definition fraction_part (text : string) : option (string * string) :=
  match text with
  | String c rest =>
      if Ascii.eqb c "." then
        match span_digits rest with
        | (EmptyString, _) => None
        | found => Some found
        end
      else Some ("", text)
  | EmptyString => Some ("", "")
  end.

(** The exponent, when there is one: [e] or [E], a sign or none, and
    one digit or more. *)
Definition exponent_part (text : string) : option (Z * string) :=
  match text with
  | String c rest =>
      if Ascii.eqb c "e" || Ascii.eqb c "E" then
        let '(negative, rest') :=
          match rest with
          | String s more =>
              if Ascii.eqb s "+" then (false, more)
              else if Ascii.eqb s "-" then (true, more)
              else (false, rest)
          | EmptyString => (false, rest)
          end in
        match span_digits rest' with
        | (EmptyString, _) => None
        | (ds, after) =>
            Some (if negative then (- Z.of_N (value_of ds))%Z else Z.of_N (value_of ds),
                  after)
        end
      else Some (0%Z, text)
  | EmptyString => Some (0%Z, "")
  end.

(** A number of the JSON grammar at the front of the text, and what
    follows it. *)
Definition parse_number (text : string) : option (number * string) :=
  let '(negative, text) :=
    match text with
    | String c rest => if Ascii.eqb c "-" then (true, rest) else (false, text)
    | EmptyString => (false, text)
    end in
  match integer_part text with
  | Some (int, after) =>
      match fraction_part after with
      | Some (frac, after') =>
          match exponent_part after' with
          | Some (x, after'') =>
              Some (of_decimal negative (value_of (int +:+ frac))
                      (x - Z.of_nat (String.length frac)),
                    after'')
          | None => None
          end
      | None => None
      end
  | None => None
  end.

(** Whole numbers, for examples. *)
Definition of_Z (z : Z) : number :=
  match z with
  | Z0 => Zero false
  | Zpos p => of_ratio false (Zpos p) 1
  | Zneg p => of_ratio true (Zpos p) 1
  end.

(** *** Notions for the proofs *)

(** The value [m * 2^e] as the fraction [a/b]. *)
Definition is_value (a b : Z) (m : positive) (e : Z) : Prop :=
  (0 < a /\ 0 < b /\ a * 2 ^ Z.max 0 (- e) = Zpos m * 2 ^ Z.max 0 e * b)%Z.

Fixpoint all_digits (s : string) : bool :=
  match s with
  | EmptyString => true
  | String c rest => is_digit c && all_digits rest
  end.

(** What follows the digits is no digit. *)
Definition stops (rest : string) : bool :=
  match rest with
  | EmptyString => true
  | String c _ => negb (is_digit c)
  end.

(** What follows the number is no part of a number. *)
Definition ends (rest : string) : bool :=
  match rest with
  | EmptyString => true
  | String c _ =>
      negb (is_digit c || Ascii.eqb c "." || Ascii.eqb c "e" || Ascii.eqb c "E")
  end.

(** A number after its sign. *)
Definition read (negative : bool) (text : string) : option (number * string) :=
  match integer_part text with
  | Some (int, after) =>
      match fraction_part after with
      | Some (frac, after') =>
          match exponent_part after' with
          | Some (x, after'') =>
              Some (of_decimal negative (value_of (int +:+ frac))
                      (x - Z.of_nat (String.length frac))%Z,
                    after'')
          | None => None
          end
      | None => None
      end
  | None => None
  end.

End JsNumber.

(** ** The JSON codec of the runtime *)

Module Json.

(** The values of the interchange format, as JavaScript has them:
    numbers are doubles, strings are the bytes of their UTF-8 text,
    and the members of an object are its own properties in the order
    in which JavaScript enumerates them. *)
Inductive value : Type :=
| JNull
| JBool (b : bool)
| JNumber (x : JsNumber.number)
| JString (s : string)
| JArray (items : list value)
| JObject (members : list (string * value)).

(** *** The properties of an object

    The keys that are array indices (the decimal text of an integer
    below [2^32 - 1]) come first, by their value; the other keys
    follow in the order in which they were created.  No key comes
    twice. *)

Definition index_of (key : string) : option N :=
  let i := JsNumber.value_of key in
  if String.eqb (JsNumber.digits i) key && (i <? 4294967295)%N then Some i else None.

Definition has_key (key : string) (members : list (string * value)) : bool :=
  existsb (fun m => String.eqb key (fst m)) members.

Fixpoint replace_value (key : string) (v : value) (members : list (string * value))
  : list (string * value) :=
  match members with
  | [] => []
  | (k, v') :: rest =>
      if String.eqb key k then (k, v) :: rest else (k, v') :: replace_value key v rest
  end.

Fixpoint insert_index (i : N) (key : string) (v : value)
    (members : list (string * value)) : list (string * value) :=
  match members with
  | [] => [(key, v)]
  | (k, v') :: rest =>
      match index_of k with
      | Some i' =>
          if (i' <? i)%N then (k, v') :: insert_index i key v rest
          else (key, v) :: members
      | None => (key, v) :: members
      end
  end.

(** [CreateDataProperty(object, key, v)]: a property that exists
    keeps its place and takes the value. *)
Definition set_property (key : string) (v : value) (members : list (string * value))
  : list (string * value) :=
  if has_key key members then replace_value key v members
  else
    match index_of key with
    | Some i => insert_index i key v members
    | None => members ++ [(key, v)]
    end.

(** The object [JSON.parse] builds from the members of its text. *)
Definition properties (members : list (string * value)) : list (string * value) :=
  fold_left (fun object m => set_property (fst m) (snd m) object) members [].

(** The key can come after the keys [before] in an object. *)
Definition comes_after (before : list string) (key : string) : bool :=
  negb (existsb (String.eqb key) before)
  && match index_of key with
     | Some i =>
         forallb (fun k => match index_of k with
                           | Some i' => (i' <? i)%N
                           | None => false
                           end) before
     | None => true
     end.

Fixpoint in_order (before keys : list string) : bool :=
  match keys with
  | [] => true
  | key :: rest => comes_after before key && in_order (before ++ [key]) rest
  end.

(** The values of JavaScript that the interchange format has a text
    for: every number is a double and is finite, and the keys of
    every object are in the order of an object. *)
Fixpoint is_json (v : value) : bool :=
  match v with
  | JNumber x => JsNumber.is_double x && JsNumber.is_finite x
  | JArray items => forallb is_json items
  | JObject members =>
      in_order [] (map fst members) && forallb (fun m => is_json (snd m)) members
  | _ => true
  end.

(** The value without the signs of its zeros. *)
Fixpoint unsigned (v : value) : value :=
  match v with
  | JNumber x => JNumber (JsNumber.unsigned x)
  | JArray items => JArray (map unsigned items)
  | JObject members => JObject (map (fun m => (fst m, unsigned (snd m))) members)
  | _ => v
  end.

(** Deep equality: the same structure, the same strings and
    booleans, and numbers that [===] takes for equal, so that [-0] is
    equal to [0]. *)
Definition deep_equal (v w : value) : Prop := unsigned v = unsigned w.

Definition dquote : ascii := "034"%char.
Definition backslash : ascii := "\"%char.

Definition hex_digit (n : nat) : ascii :=
  match n with
  | 0 => "0" | 1 => "1" | 2 => "2" | 3 => "3" | 4 => "4" | 5 => "5" | 6 => "6"
  | 7 => "7" | 8 => "8" | 9 => "9" | 10 => "a" | 11 => "b" | 12 => "c"
  | 13 => "d" | 14 => "e" | _ => "f"
  end%char.

Definition hex_value (c : ascii) : option nat :=
  let n := nat_of_ascii c in
  if Nat.leb 48 n && Nat.leb n 57 then Some (n - 48)
  else if Nat.leb 97 n && Nat.leb n 102 then Some (n - 87)
  else if Nat.leb 65 n && Nat.leb n 70 then Some (n - 55)
  else None.

(** How [JSON.stringify] writes one character of a string. *)
Definition escape_char (c : ascii) : string :=
  let n := nat_of_ascii c in
  if Ascii.eqb c dquote then String backslash (String dquote "")
  else if Ascii.eqb c backslash then "\\"
  else if Nat.eqb n 8 then "\b"
  else if Nat.eqb n 9 then "\t"
  else if Nat.eqb n 10 then "\n"
  else if Nat.eqb n 12 then "\f"
  else if Nat.eqb n 13 then "\r"
  else if Nat.ltb n 32 then
    "\u00" +:+ String (hex_digit (n / 16)) (String (hex_digit (n mod 16)) "")
  else String c "".

Fixpoint escape (s : string) : string :=
  match s with
  | EmptyString => ""
  | String c rest => escape_char c +:+ escape rest
  end.

Definition quote (s : string) : string :=
  String dquote (escape s +:+ String dquote "").

(** A number that is not finite is written [null]. *)
Definition number (x : JsNumber.number) : string :=
  if JsNumber.is_finite x then JsNumber.toString x else "null".

Definition commas (parts : list string) : string := String.concat "," parts.

(** [JSON.stringify(value)], without indentation. *)
Fixpoint stringify (v : value) : string :=
  match v with
  | JNull => "null"
  | JBool true => "true"
  | JBool false => "false"
  | JNumber x => number x
  | JString s => quote s
  | JArray items => "[" +:+ commas (map stringify items) +:+ "]"
  | JObject members =>
      "{" +:+ commas (map (fun m => quote (fst m) +:+ ":" +:+ stringify (snd m)) members)
      +:+ "}"
  end.

(** Parsing *)

Definition is_space (c : ascii) : bool :=
  let n := nat_of_ascii c in Nat.eqb n 32 || Nat.eqb n 9 || Nat.eqb n 10 || Nat.eqb n 13.

Fixpoint skip_space (s : string) : string :=
  match s with
  | String c rest => if is_space c then skip_space rest else s
  | EmptyString => s
  end.

Definition unescape (c : ascii) : option ascii :=
  if Ascii.eqb c dquote then Some dquote
  else if Ascii.eqb c backslash then Some backslash
  else if Ascii.eqb c "/" then Some "/"%char
  else if Ascii.eqb c "b" then Some "008"%char
  else if Ascii.eqb c "t" then Some "009"%char
  else if Ascii.eqb c "n" then Some "010"%char
  else if Ascii.eqb c "f" then Some "012"%char
  else if Ascii.eqb c "r" then Some "013"%char
  else None.

(** The code unit of a [\uXXXX] escape. *)
Definition code_unit (h1 h2 h3 h4 : ascii) : option N :=
  match hex_value h1, hex_value h2, hex_value h3, hex_value h4 with
  | Some a, Some b, Some c, Some d =>
      Some (4096 * N.of_nat a + 256 * N.of_nat b + 16 * N.of_nat c + N.of_nat d)%N
  | _, _, _, _ => None
  end.

Definition byte (n : N) : ascii := ascii_of_N n.

(** The UTF-8 bytes of a code point. *)
Definition utf8 (cp : N) : string :=
  if (cp <? 128)%N then String (byte cp) ""
  else if (cp <? 2048)%N then
    String (byte (192 + cp / 64)) (String (byte (128 + cp mod 64)) "")
  else if (cp <? 65536)%N then
    String (byte (224 + cp / 4096))
      (String (byte (128 + (cp / 64) mod 64)) (String (byte (128 + cp mod 64)) ""))
  else
    String (byte (240 + cp / 262144))
      (String (byte (128 + (cp / 4096) mod 64))
         (String (byte (128 + (cp / 64) mod 64)) (String (byte (128 + cp mod 64)) ""))).

Definition is_high_surrogate (u : N) : bool := (55296 <=? u)%N && (u <? 56320)%N.
Definition is_low_surrogate (u : N) : bool := (56320 <=? u)%N && (u <? 57344)%N.

(** The code point of a surrogate pair. *)
Definition pair_of (high low : N) : N :=
  (65536 + (high - 55296) * 1024 + (low - 56320))%N.

(** A surrogate without its other half is no character; its bytes
    are those of U+FFFD, as Node writes it. *)
Definition replacement : string := utf8 65533.

Definition prepend (bytes : string) (r : option (string * string))
  : option (string * string) :=
  match r with
  | Some (str, after) => Some (bytes +:+ str, after)
  | None => None
  end.

(** The low surrogate escaped at the front of the text, and what
    follows it. *)
Definition low_escape (b u l1 l2 l3 l4 : ascii) : option N :=
  if Ascii.eqb b backslash && Ascii.eqb u "u" then
    match code_unit l1 l2 l3 l4 with
    | Some low => if is_low_surrogate low then Some low else None
    | None => None
    end
  else None.

(** The characters of a string up to its closing quote. *)
Fixpoint parse_chars (s : string) : option (string * string) :=
  match s with
  | EmptyString => None
  | String c rest =>
      if Ascii.eqb c dquote then Some ("", rest)
      else if Ascii.eqb c backslash then
        match rest with
        | String e rest' =>
            match unescape e with
            | Some c' => prepend (String c' "") (parse_chars rest')
            | None =>
                match rest' with
                | String h1 (String h2 (String h3 (String h4 rest''))) =>
                    if Ascii.eqb e "u" then
                      match code_unit h1 h2 h3 h4 with
                      | Some unit =>
                          if is_high_surrogate unit then
                            match rest'' with
                            | String b (String u (String l1 (String l2
                                (String l3 (String l4 rest3))))) =>
                                match low_escape b u l1 l2 l3 l4 with
                                | Some low =>
                                    prepend (utf8 (pair_of unit low)) (parse_chars rest3)
                                | None => prepend replacement (parse_chars rest'')
                                end
                            | _ => prepend replacement (parse_chars rest'')
                            end
                          else if is_low_surrogate unit then
                            prepend replacement (parse_chars rest'')
                          else prepend (utf8 unit) (parse_chars rest'')
                      | None => None
                      end
                    else None
                | _ => None
                end
            end
        | EmptyString => None
        end
      else if Nat.ltb (nat_of_ascii c) 32 then None
      else prepend (String c "") (parse_chars rest)
  end.

(** The text after a literal, when it starts with it. *)
Fixpoint strip (literal s : string) : option string :=
  match literal with
  | EmptyString => Some s
  | String c literal' =>
      match s with
      | String c' s' => if Ascii.eqb c c' then strip literal' s' else None
      | EmptyString => None
      end
  end.

Fixpoint parse_value (fuel : nat) (text : string) : option (value * string) :=
  match fuel with
  | 0 => None
  | S fuel =>
      match skip_space text with
      | EmptyString => None
      | String c rest as s =>
          if Ascii.eqb c dquote then
            option_map (fun '(str, after) => (JString str, after)) (parse_chars rest)
          else if Ascii.eqb c "[" then
            match skip_space rest with
            | String c' after =>
                if Ascii.eqb c' "]" then Some (JArray [], after)
                else
                  option_map (fun '(items, after) => (JArray items, after))
                    (parse_items fuel rest)
            | EmptyString => None
            end
          else if Ascii.eqb c "{" then
            match skip_space rest with
            | String c' after =>
                if Ascii.eqb c' "}" then Some (JObject [], after)
                else
                  option_map (fun '(members, after) => (JObject (properties members), after))
                    (parse_members fuel rest)
            | EmptyString => None
            end
          else if Ascii.eqb c "-" || JsNumber.is_digit c then
            option_map (fun '(x, after) => (JNumber x, after)) (JsNumber.parse_number s)
          else
            match strip "null" s, strip "true" s, strip "false" s with
            | Some after, _, _ => Some (JNull, after)
            | _, Some after, _ => Some (JBool true, after)
            | _, _, Some after => Some (JBool false, after)
            | _, _, _ => None
            end
      end
  end

with parse_items (fuel : nat) (text : string) : option (list value * string) :=
  match fuel with
  | 0 => None
  | S fuel =>
      match parse_value fuel text with
      | Some (v, after) =>
          match skip_space after with
          | String c more =>
              if Ascii.eqb c "," then
                option_map (fun '(vs, rest) => (v :: vs, rest)) (parse_items fuel more)
              else if Ascii.eqb c "]" then Some ([v], more)
              else None
          | EmptyString => None
          end
      | None => None
      end
  end

with parse_members (fuel : nat) (text : string)
  : option (list (string * value) * string) :=
  match fuel with
  | 0 => None
  | S fuel =>
      match skip_space text with
      | String c rest =>
          if Ascii.eqb c dquote then
            match parse_chars rest with
            | Some (key, after) =>
                match skip_space after with
                | String c' more =>
                    if Ascii.eqb c' ":" then
                      match parse_value fuel more with
                      | Some (v, after') =>
                          match skip_space after' with
                          | String c'' more' =>
                              if Ascii.eqb c'' "," then
                                option_map (fun '(ms, rest) => ((key, v) :: ms, rest))
                                  (parse_members fuel more')
                              else if Ascii.eqb c'' "}" then Some ([(key, v)], more')
                              else None
                          | EmptyString => None
                          end
                      | None => None
                      end
                    else None
                | EmptyString => None
                end
            | None => None
            end
          else None
      | EmptyString => None
      end
  end.

(** [JSON.parse(text)] *)
Definition parse (text : string) : Js.result value :=
  match parse_value (2 * String.length text + 2) text with
  | Some (v, after) =>
      match skip_space after with
      | EmptyString => Js.Ok v
      | _ => Js.Err Js.SyntaxError
      end
  | None => Js.Err Js.SyntaxError
  end.

Definition runtime : Os.json value := Os.mkJson value stringify parse.

(** Fuel that parsing the text of a value takes. *)
Fixpoint weight (v : value) : nat :=
  match v with
  | JArray items => S (list_sum (map (fun item => S (weight item)) items))
  | JObject members => S (list_sum (map (fun m => S (weight (snd m))) members))
  | _ => 1
  end.

(** The text after a value ends it: nothing, a comma or a closing
    bracket. *)
Definition closes (rest : string) : bool :=
  match rest with
  | EmptyString => true
  | String c _ => Ascii.eqb c "," || Ascii.eqb c "]" || Ascii.eqb c "}"
  end.

(** The value comes back from its text, whatever closes it, without
    the signs of its zeros. *)
Definition round_trips (v : value) : Prop :=
  forall fuel rest,
    weight v <= fuel -> closes rest = true ->
    parse_value fuel (stringify v +:+ rest) = Some (unsigned v, rest).

End Json.

(** ** The listing of 4.2, written from its description *)

Module Listing.
Import Js Os.

Definition result_map {A B} (f : A -> B) (r : result A) : result B :=
  match r with Ok a => Ok (f a) | Err e => Err e end.

(** The listings of the entries one after the other; the first failure
    ends the whole operation. *)
Fixpoint splice {A} (parts : list (result (list A))) : result (list A) :=
  match parts with
  | [] => Ok []
  | Err e :: _ => Err e
  | Ok part :: rest =>
      match splice rest with Ok tail => Ok (part ++ tail) | Err e => Err e end
  end.

(** The name ends in [.e] for some [e] of the set. *)
Definition has_extension (extensions : list string) (entry : Dirent) : bool :=
  existsb (fun e => endsWith (name entry) ("." +:+ e)) extensions.

(** Regular files without an accepted extension are removed; entries of
    every other kind stay. *)
Definition extension_filter (extensions : option (list string)) (entries : list Dirent)
  : list Dirent :=
  match extensions with
  | None => entries
  | Some exts =>
      List.filter (fun entry => negb (isFile entry && negb (has_extension exts entry)))
        entries
  end.

(** The filter as the sentence "removes the non-directory entries whose
    names do not end in [.e]" has it. *)
Definition extension_filter_non_directories (extensions : option (list string))
    (entries : list Dirent) : list Dirent :=
  match extensions with
  | None => entries
  | Some exts =>
      List.filter
        (fun entry => negb (negb (isDirectory entry) && negb (has_extension exts entry)))
        entries
  end.

(** A child's name prefixed with the name of its parent directory. *)
Definition prefixed (parent child : Dirent) : Dirent :=
  mkDirent (Path.join [name parent; name child]) (dkind child).

Definition only (onlyFiles onlyDirs : bool) (entries : list Dirent) : list Dirent :=
  List.filter
    (fun entry =>
       (if onlyFiles then isFile entry else true)
       && (if onlyDirs then isDirectory entry else true))
    entries.

Section Spec.
Context (O : api) (rootPath : option string).

(** Depth [n]: filter by extension, then replace every directory by
    its listing at depth [n - 1] under prefixed names. *)
Fixpoint listing (n : nat) (dirPath : string) (extensions : option (list string))
    (st : St O) : result (list Dirent) :=
  match fs_readdir O (FileSystemHelper.resolvePath rootPath (FileSystemHelper.PStr dirPath)) st with
  | Err e => Err e
  | Ok entries =>
      let kept := extension_filter extensions entries in
      match n with
      | 0 => Ok kept
      | S m =>
          splice
            (map (fun entry =>
                    if isDirectory entry then
                      result_map (map (prefixed entry))
                        (listing m (Path.join [dirPath; name entry]) extensions st)
                    else Ok [entry])
               kept)
      end
  end.

(** The same with the filter of the sentence as it is written. *)
Fixpoint listing_non_directories (n : nat) (dirPath : string)
    (extensions : option (list string)) (st : St O) : result (list Dirent) :=
  match fs_readdir O (FileSystemHelper.resolvePath rootPath (FileSystemHelper.PStr dirPath)) st with
  | Err e => Err e
  | Ok entries =>
      let kept := extension_filter_non_directories extensions entries in
      match n with
      | 0 => Ok kept
      | S m =>
          splice
            (map (fun entry =>
                    if isDirectory entry then
                      result_map (map (prefixed entry))
                        (listing_non_directories m (Path.join [dirPath; name entry])
                           extensions st)
                    else Ok [entry])
               kept)
      end
  end.

End Spec.

End Listing.

(** ** [execute]: a child process and its standard output *)

Module ChildProcess.
Import Js.

(** What a spawned child emits.  [execute] listens to ['data'] and
    ['end'] of [child.stdout] and to nothing else. *)
Inductive child_event : Type :=
| StdoutData (buffer : Buffer)
| StdoutEnd
| ErrorEvent (e : error)
| ExitEvent (code : nat).

(** [spawn(command, args)] throws, or returns a child that emits
    events later.  Node reports a command that cannot be started
    (ENOENT, EACCES, ...) through the ['error'] event of the child it
    returns; it throws for arguments of the wrong type and for the
    remaining system errors. *)
Inductive spawned : Type :=
| Throws (e : error)
| Child (events : list child_event).

Definition newline : ascii := "010"%char.

(** The variables the two listeners close over: the array [stdout],
    and whether [resolve(stdout)] was called.  The promise is resolved
    with the array itself, so a reader sees its final content. *)
Record listeners : Type := mkListeners { stdout : list string; resolved : bool }.

(** The ['data'] listener. *)
Definition on_data (buffer : Buffer) (stdout : list string) : list string :=
  fold_left
    (fun stdout line =>
       if String.eqb line "" then stdout else FileSystemHelper.push stdout line)
    (split newline (toString buffer)) stdout.

Definition deliver (l : listeners) (ev : child_event) : listeners :=
  match ev with
  | StdoutData buffer => mkListeners (on_data buffer (stdout l)) (resolved l)
  | StdoutEnd => mkListeners (stdout l) true
  | ErrorEvent _ => l
  | ExitEvent _ => l
  end.

Section Execute.
Variable spawn : string -> list string -> spawned.

Definition execute (command : string) (args : list string) : settle (list string) :=
  match spawn command args with
  | Throws e => Rejected e
  | Child events =>
      let final := fold_left deliver events (mkListeners [] false) in
      if resolved final then Resolved (stdout final) else Pending
  end.
End Execute.

Definition non_empty (line : string) : bool := negb (String.eqb line "").

(** The non-empty lines of a whole output. *)
Definition non_empty_lines (output : string) : list string :=
  List.filter non_empty (split newline output).

(** A chunk is line-aligned when it is empty or ends with a newline. *)
Inductive line_aligned : string -> Prop :=
| aligned_empty : line_aligned ""
| aligned_line (a : string) : line_aligned (a +:+ String newline "").

(** Everything the child wrote to its standard output. *)
Fixpoint whole_output (events : list child_event) : string :=
  match events with
  | [] => ""
  | StdoutData buffer :: rest => toString buffer +:+ whole_output rest
  | _ :: rest => whole_output rest
  end.

End ChildProcess.

(** ** [watchDir]: promises resolved by an [fs.FSWatcher] *)

Module DirWatch.
Import Js.

(** [{ event, filename }] *)
Definition change : Type := string * string.

(** An [fs.FSWatcher]: whether it is still open, the directory it
    watches, and the promise its listener resolves. *)
Record fswatcher : Type := mkWatcher {
  is_open : bool;
  watched : string;
  listener : nat
}.

(** The watchers handed out by [fs.watch] and the promises created by
    [watchDir], both by identity. *)
Record world : Type := mkWorld {
  fswatchers : gmap nat fswatcher;
  promises : gmap nat (settle change)
}.

Definition empty_world : world := mkWorld ∅ ∅.

(** [options: { recursive?: boolean; persistent?: boolean }] *)
Record WatchOptions : Type := mkWatchOptions {
  recursive : option bool;
  persistent : option bool
}.

(** What [watchDir] returns: the promise, and the variable [watcher]
    its [abort] closes over ([None]: still undefined). *)
Record abortable : Type := mkAbortable { promise : nat; watcher : option nat }.

(** [resolve(v)]: settles a pending promise and does nothing to a
    settled one. *)
Definition resolve (p : nat) (v : change) (w : world) : world :=
  match promises w !! p with
  | Some Pending => mkWorld (fswatchers w) (<[p := Resolved v]> (promises w))
  | _ => w
  end.

Definition close (h : nat) (w : world) : world :=
  mkWorld
    (alter (fun fw => mkWatcher false (watched fw) (listener fw)) h (fswatchers w))
    (promises w).

(** Every listener resolves a promise that exists. *)
Definition well_formed (w : world) : Prop :=
  forall h fw, fswatchers w !! h = Some fw -> listener fw ∈ dom (promises w).

(** Promise [p] is pending and [h] is the only watcher that can
    resolve it. *)
Definition armed (p h : nat) (w : world) : Prop :=
  promises w !! p = Some Pending
  /\ forall h' fw, fswatchers w !! h' = Some fw -> listener fw = p -> h' = h.

(** Promise [p] is pending and every watcher that could resolve it is
    closed. *)
Definition silenced (p : nat) (w : world) : Prop :=
  promises w !! p = Some Pending
  /\ forall h fw, fswatchers w !! h = Some fw -> listener fw = p -> is_open fw = false.

Section Methods.
Variable rootPath : option string.

(** Whether [fs.watch] accepts the path and the options or throws. *)
Variable fs_watch : string -> WatchOptions -> result unit.

Definition watchDir (dirPath : string) (options : WatchOptions) (w : world)
  : abortable * world :=
  let p := fresh (dom (promises w)) in
  let path := FileSystemHelper.resolvePath rootPath (FileSystemHelper.PStr dirPath) in
  match fs_watch path options with
  | Err e =>
      (mkAbortable p None, mkWorld (fswatchers w) (<[p := Rejected e]> (promises w)))
  | Ok _ =>
      let h := fresh (dom (fswatchers w)) in
      (mkAbortable p (Some h),
       mkWorld (<[h := mkWatcher true path p]> (fswatchers w))
         (<[p := Pending]> (promises w)))
  end.

(** [promise.abort = async () => { if (watcher) { watcher.close() } }] *)
Definition abort (a : abortable) (w : world) : settle unit * world :=
  match watcher a with
  | Some h => (Resolved tt, close h w)
  | None => (Resolved tt, w)
  end.

(** The operating system reports a change to watcher [h]: an open
    watcher calls its listener, a closed one is silent. *)
Definition notify (h : nat) (event filename : string) (w : world) : world :=
  match fswatchers w !! h with
  | Some fw => if is_open fw then resolve (listener fw) (event, filename) w else w
  | None => w
  end.

(** Everything that can happen to a world. *)
Inductive action : Type :=
| CallWatchDir (dirPath : string) (options : WatchOptions)
| CallAbort (a : abortable)
| Notify (h : nat) (event filename : string).

Definition step (w : world) (act : action) : world :=
  match act with
  | CallWatchDir dirPath options => snd (watchDir dirPath options w)
  | CallAbort a => snd (abort a w)
  | Notify h event filename => notify h event filename w
  end.

Definition run (acts : list action) (w : world) : world := fold_left step acts w.

(** The action is a change reported to watcher [h]. *)
Definition notifies (h : nat) (act : action) : bool :=
  match act with Notify h' _ _ => Nat.eqb h h' | _ => false end.

End Methods.

End DirWatch.

(** ** [watchFile]: promises resolved by stat polling *)

Module FileWatch.
Import Js Os.

(** The function objects [watchFile] and its [abort] create:
    [(curr, prev) => resolve({ curr, prev })] of the promise returned
    by [watchFile], and [(curr, prev) => { resolve() }] of the promise
    returned by [abort]. *)
Inductive closure : Type :=
| ResolveWatch (p : nat)
| ResolveAbort (q : nat).

(** Function objects by identity, the listeners [fs.watchFile] polls
    for per file name, and the two kinds of promises. *)
Record world : Type := mkWorld {
  functions : gmap nat closure;
  polls : gmap string (list nat);
  watch_promises : gmap nat (settle (Stats * Stats));
  abort_promises : gmap nat (settle unit)
}.

Definition empty_world : world := mkWorld ∅ ∅ ∅ ∅.

(** [options: { interval?: number; persistent?: boolean }] *)
Record WatchOptions : Type := mkWatchOptions {
  interval : option nat;
  persistent : option bool
}.

(** What [watchFile] returns: the promise and the [filePath] its
    [abort] closes over. *)
Record abortable : Type := mkAbortable { promise : nat; filePath : string }.

Definition listeners_of (filename : string) (w : world) : list nat :=
  default [] (polls w !! filename).

(** [fs.watchFile(filename, options, listener)]: the listener joins
    those polled for under that name; the options set the pace of the
    polling, which the model leaves open. *)
Definition fs_watchFile (filename : string) (options : WatchOptions) (listener : nat)
    (w : world) : world :=
  mkWorld (functions w)
    (<[filename := listeners_of filename w ++ [listener]]> (polls w))
    (watch_promises w) (abort_promises w).

(** [emitter.removeListener]: the most recently added instance goes. *)
Fixpoint remove_last (listener : nat) (ls : list nat) : list nat :=
  match ls with
  | [] => []
  | l :: rest =>
      if Nat.eqb l listener && negb (existsb (Nat.eqb listener) rest) then rest
      else l :: remove_last listener rest
  end.

(** [fs.unwatchFile(filename, listener)]: "if listener is specified,
    only that particular listener is removed"; polling of the name
    stops when no listener is left.  The listener is not called. *)
Definition fs_unwatchFile (filename : string) (listener : nat) (w : world) : world :=
  match polls w !! filename with
  | None => w
  | Some ls =>
      let ls' := remove_last listener ls in
      mkWorld (functions w)
        (match ls' with
         | [] => delete filename (polls w)
         | _ => <[filename := ls']> (polls w)
         end)
        (watch_promises w) (abort_promises w)
  end.

Definition settle_pending {A} (p : nat) (v : A) (m : gmap nat (settle A))
  : gmap nat (settle A) :=
  match m !! p with
  | Some Pending => <[p := Resolved v]> m
  | _ => m
  end.

(** Calling a function object with [(curr, prev)]. *)
Definition call (curr prev : Stats) (w : world) (f : nat) : world :=
  match functions w !! f with
  | Some (ResolveWatch p) =>
      mkWorld (functions w) (polls w)
        (settle_pending p (curr, prev) (watch_promises w)) (abort_promises w)
  | Some (ResolveAbort q) =>
      mkWorld (functions w) (polls w)
        (watch_promises w) (settle_pending q tt (abort_promises w))
  | None => w
  end.

(** The listeners polled for are function objects that exist, no name
    is polled for without a listener, and every function object
    resolves a promise that exists. *)
Definition well_formed (w : world) : Prop :=
  (forall name ls, polls w !! name = Some ls ->
     ls <> [] /\ forall f, In f ls -> f ∈ dom (functions w))
  /\ (forall f q, functions w !! f = Some (ResolveAbort q) -> q ∈ dom (abort_promises w)).

(** The promise [q] of an [abort] is pending and the function that
    resolves it is registered nowhere. *)
Definition never_called (q : nat) (w : world) : Prop :=
  abort_promises w !! q = Some Pending
  /\ forall f name ls,
       functions w !! f = Some (ResolveAbort q) ->
       polls w !! name = Some ls -> ~ In f ls.

(** The world [abort] builds before it calls [fs.unwatchFile]: a new
    pending promise and a new function object that resolves it. *)
Definition with_abort_closure (w : world) : world :=
  mkWorld
    (<[fresh (dom (functions w)) := ResolveAbort (fresh (dom (abort_promises w)))]>
       (functions w))
    (polls w) (watch_promises w)
    (<[fresh (dom (abort_promises w)) := Pending]> (abort_promises w)).

Section Methods.
Variable rootPath : option string.

Definition watchFile (path : string) (options : WatchOptions) (w : world)
  : abortable * world :=
  let p := fresh (dom (watch_promises w)) in
  let f := fresh (dom (functions w)) in
  let w1 :=
    mkWorld (<[f := ResolveWatch p]> (functions w)) (polls w)
      (<[p := Pending]> (watch_promises w)) (abort_promises w) in
  (mkAbortable p path,
   fs_watchFile (FileSystemHelper.resolvePath rootPath (FileSystemHelper.PStr path))
     options f w1).

(** [promise.abort = () => new Promise((resolve) =>
    fs.unwatchFile(this.resolvePath(filePath), (curr, prev) => { resolve() }))]:
    the arrow function handed to [fs.unwatchFile] is a new function
    object.  Returns the new promise. *)
Definition abort (a : abortable) (w : world) : nat * world :=
  let q := fresh (dom (abort_promises w)) in
  let f := fresh (dom (functions w)) in
  (q,
   fs_unwatchFile
     (FileSystemHelper.resolvePath rootPath (FileSystemHelper.PStr (filePath a))) f
     (with_abort_closure w)).

(** A poll finds the file changed: every listener registered under
    the name is called. *)
Definition poll_fires (filename : string) (curr prev : Stats) (w : world) : world :=
  fold_left (call curr prev) (listeners_of filename w) w.

Inductive action : Type :=
| CallWatchFile (path : string) (options : WatchOptions)
| CallAbort (a : abortable)
| PollFires (filename : string) (curr prev : Stats).

Definition step (w : world) (act : action) : world :=
  match act with
  | CallWatchFile path options => snd (watchFile path options w)
  | CallAbort a => snd (abort a w)
  | PollFires filename curr prev => poll_fires filename curr prev w
  end.

Definition run (acts : list action) (w : world) : world := fold_left step acts w.

End Methods.

End FileWatch.

(** ** Data of the examples *)

Module Examples.
Import Js Os FileSystemHelper.

(** The directory of 8.4: [a.txt], [b.md] and [sub/] holding [c.txt]. *)
Definition example_tree : TreeFs.tree :=
  [("a.txt", TreeFs.File "alpha"); ("b.md", TreeFs.File "beta");
   ("sub", TreeFs.Dir [("c.txt", TreeFs.File "gamma")])].

(** A directory holding a socket. *)
Definition socket_tree : TreeFs.tree := [("run.sock", TreeFs.Special)].

(** [{ acceptExtensions: ['txt'], recursiveLevels: 1 }] *)
Definition txt_one_level : ReadDirOptions :=
  mkReadDirOptions (Some ["txt"]) (Some 1) false false.

(** [{ "name": "helper", "tags": ["fs", 2, true, null] }] *)
Definition example_value : Json.value :=
  Json.JObject
    [("name", Json.JString "helper");
     ("tags",
      Json.JArray
        [Json.JString "fs"; Json.JNumber (JsNumber.Finite false 4503599627370496 (-51));
         Json.JBool true; Json.JNull])].

(** An object with the keys [7] and [10], which are array indices,
    before the others: the numbers 1.5, -0.1, 1e21, 5e-324 and -0,
    and a string with a quote and a newline in it. *)
Definition numbers_value : Json.value :=
  Json.JObject
    [("7",
      Json.JArray
        [Json.JNumber (JsNumber.Finite false 6755399441055744 (-52));
         Json.JNumber (JsNumber.Finite true 7205759403792794 (-56))]);
     ("10", Json.JNumber (JsNumber.Finite false 7629394531250000 17));
     ("size", Json.JNumber (JsNumber.Finite false 1 (-1074)));
     ("zero", Json.JNumber (JsNumber.Zero true));
     ("text", Json.JString (String "a" (String Json.dquote (String "b" (String "010" "")))))].

(** An operating system with one directory, [locked], that cannot be
    listed (EACCES); nothing else exists and nothing can be written. *)
Definition locked_os : api :=
  mkApi unit
    (fun _ _ => Err (SystemError ENOENT))
    (fun _ _ => Err (SystemError ENOENT))
    (fun _ _ => Err (SystemError ENOENT))
    (fun p _ =>
       if String.eqb p "." then Ok [mkDirent "locked" KDirectory]
       else Err (SystemError EACCES))
    (fun _ st => (Err (SystemError EACCES), st))
    (fun _ _ _ st => (Err (SystemError EACCES), st))
    (fun _ st => (Err (SystemError EACCES), st))
    (fun _ st => (Err (SystemError EACCES), st)).

Definition nl : string := String ChildProcess.newline "".

(** A child whose line [abc] reaches the ['data'] listener in two
    chunks, [ab] and [c] with the newline. *)
Definition split_line_child : ChildProcess.spawned :=
  ChildProcess.Child
    [ChildProcess.StdoutData (Buffer_from "ab");
     ChildProcess.StdoutData (Buffer_from ("c" +:+ nl));
     ChildProcess.StdoutEnd;
     ChildProcess.ExitEvent 0].

(** A child that prints three lines and a blank one, and exits with
    status 3. *)
Definition three_lines_child : ChildProcess.spawned :=
  ChildProcess.Child
    [ChildProcess.StdoutData
       (Buffer_from ("one" +:+ nl +:+ "two" +:+ nl +:+ "three" +:+ nl +:+ nl));
     ChildProcess.StdoutEnd;
     ChildProcess.ExitEvent 3].

(** The child [spawn] returns for a command that does not exist: it
    emits ['error'] with ENOENT, and its streams are closed without
    ['end']. *)
Definition failed_child : ChildProcess.spawned :=
  ChildProcess.Child [ChildProcess.ErrorEvent (SystemError ENOENT)].

End Examples.

(** ** Further predicates *)

Module More.
Import Js.

Definition is_dir (n : TreeFs.node) : bool :=
  match n with TreeFs.Dir _ => true | _ => false end.

(** What a place leads to: a name with a slash after it leads to a
    directory or to nothing. *)
Definition found (pl : TreeFs.place) (st : TreeFs.tree) : result TreeFs.node :=
  match pl with
  | TreeFs.Root => Ok (TreeFs.Dir st)
  | TreeFs.Dot dir => TreeFs.node_at dir st
  | TreeFs.DotDot dir => TreeFs.node_at (tl dir) st
  | TreeFs.Entry dir name false => TreeFs.node_at (name :: dir) st
  | TreeFs.Entry dir name true =>
      match TreeFs.node_at (name :: dir) st with
      | Ok (TreeFs.Dir d) => Ok (TreeFs.Dir d)
      | Ok _ => Err (SystemError ENOTDIR)
      | Err e => Err e
      end
  end.

(** Every directory of the first tree is a directory of the second. *)
Definition keeps_dirs (st st' : TreeFs.tree) : Prop :=
  forall path d,
    TreeFs.lookup_node path (TreeFs.Dir st) = Ok (TreeFs.Dir d) ->
    exists d', TreeFs.lookup_node path (TreeFs.Dir st') = Ok (TreeFs.Dir d').

(** Everything of the first tree that is not a directory is in the
    second as it is. *)
Definition keeps_files (st st' : TreeFs.tree) : Prop :=
  forall path n,
    TreeFs.lookup_node path (TreeFs.Dir st) = Ok n -> is_dir n = false ->
    TreeFs.lookup_node path (TreeFs.Dir st') = Ok n.

(** The chunks the ['data'] listener of [execute] receives, in the
    order of their arrival. *)
Definition chunks (events : list ChildProcess.child_event) : list string :=
  flat_map
    (fun ev => match ev with
               | ChildProcess.StdoutData buffer => [toString buffer]
               | _ => []
               end) events.

(** [s.includes(c)] for one character. *)
Fixpoint includes (c : ascii) (s : string) : bool :=
  match s with
  | EmptyString => false
  | String c' rest => Ascii.eqb c' c || includes c rest
  end.

(** The action tells watcher [h] of a change, or closes it. *)
Definition touches (h : nat) (act : DirWatch.action) : bool :=
  match act with
  | DirWatch.Notify h' _ _ => Nat.eqb h h'
  | DirWatch.CallAbort a =>
      match DirWatch.watcher a with Some h' => Nat.eqb h h' | None => false end
  | DirWatch.CallWatchDir _ _ => false
  end.

(** Promise [p] is pending, and [h] is an open watcher, the only
    one, whose listener resolves it. *)
Definition live (p h : nat) (w : DirWatch.world) : Prop :=
  DirWatch.armed p h w
  /\ exists fw, DirWatch.fswatchers w !! h = Some fw
                /\ DirWatch.is_open fw = true /\ DirWatch.listener fw = p.

(** Every listener created by [watchFile] resolves a promise that
    exists. *)
Definition watch_closed (w : FileWatch.world) : Prop :=
  forall f p, FileWatch.functions w !! f = Some (FileWatch.ResolveWatch p) ->
              p ∈ dom (FileWatch.watch_promises w).

(** Promise [p] is pending, and [f] is the one function that resolves
    it, polled for under [name] and under no other name. *)
Definition watching (p f : nat) (name : string) (w : FileWatch.world) : Prop :=
  FileWatch.watch_promises w !! p = Some Pending
  /\ FileWatch.functions w !! f = Some (FileWatch.ResolveWatch p)
  /\ In f (FileWatch.listeners_of name w)
  /\ (forall f', FileWatch.functions w !! f' = Some (FileWatch.ResolveWatch p) -> f' = f)
  /\ (forall name' ls, FileWatch.polls w !! name' = Some ls -> In f ls -> name' = name).

(** The action is a poll that finds the file [name] changed. *)
Definition polls_name (name : string) (act : FileWatch.action) : bool :=
  match act with
  | FileWatch.PollFires name' _ _ => String.eqb name name'
  | _ => false
  end.

End More.

(** * Theorems *)

Module StringFacts.

Lemma append_cons (c : ascii) (s t : string) : String c s +:+ t = String c (s +:+ t).
Proof. reflexivity. Qed.

Lemma append_empty (s : string) : s +:+ "" = s.
Proof.
  induction s as [|c s IH]; [reflexivity|].
  now rewrite append_cons, IH.
Qed.

Lemma append_assoc (a b c : string) : (a +:+ b) +:+ c = a +:+ (b +:+ c).
Proof.
  induction a as [|x a IH]; [reflexivity|].
  now rewrite !append_cons, IH.
Qed.

Lemma length_append (a b : string) :
  String.length (a +:+ b) = String.length a + String.length b.
Proof.
  induction a as [|x a IH]; [reflexivity|].
  rewrite append_cons. simpl. now rewrite IH.
Qed.

End StringFacts.


Module NumberProofs.
Import JsNumber StringFacts.
Local Open Scope Z_scope.

Lemma eqb_eq x y : eqb x y = true -> x = y.
Proof.
  destruct x as [|s|s|s m e], y as [|s'|s'|s' m' e']; simpl; try discriminate; auto.
  - intros H. apply Bool.eqb_prop in H. now subst.
  - intros H. apply Bool.eqb_prop in H. now subst.
  - intros H. apply andb_true_iff in H as [H He]. apply andb_true_iff in H as [Hs Hm].
    apply Bool.eqb_prop in Hs. apply Pos.eqb_eq in Hm. apply Z.eqb_eq in He. now subst.
Qed.

(** Fractions of the same value have the same integer part. *)
Lemma div_cross a b c d :
  0 < b -> 0 < d -> a * d = c * b -> a / b = c / d.
Proof.
  intros Hb Hd H.
  rewrite <- (Z.div_mul_cancel_r a b d) by lia.
  rewrite H, (Z.mul_comm b d).
  rewrite Z.div_mul_cancel_r by lia. reflexivity.
Qed.

Lemma round_whole m b : 0 < b -> round_half_even (m * b) b = m.
Proof.
  intros Hb. unfold round_half_even.
  rewrite Z.div_mul, Z.mod_mul by lia.
  destruct (2 * 0 <? b) eqn:E; [reflexivity|]. apply Z.ltb_ge in E. lia.
Qed.

Lemma pow2_pos k : 0 < 2 ^ k \/ k < 0.
Proof. destruct (Z.le_gt_cases 0 k); [left; now apply Z.pow_pos_nonneg|now right]. Qed.

Lemma binade_value a b m e :
  is_value a b m e -> binade a b = Z.log2 (Zpos m) + e.
Proof.
  intros (Ha & Hb & Hv). unfold binade.
  set (t := Z.max 0 (Z.log2 b + 1 - Z.log2 a)).
  assert (Ht : 0 <= t) by (unfold t; lia).
  assert (Hla : 0 <= Z.log2 a) by apply Z.log2_nonneg.
  assert (Hlb : 0 <= Z.log2 b) by apply Z.log2_nonneg.
  assert (Hone : 1 <= (a * 2 ^ t) / b).
  { apply Z.div_le_lower_bound; [lia|]. rewrite Z.mul_1_r.
    pose proof (Z.log2_spec a Ha) as [Ha1 _].
    pose proof (Z.log2_spec b Hb) as [_ Hb2].
    assert (H2 : 2 ^ (Z.log2 b + 1) <= 2 ^ Z.log2 a * 2 ^ t).
    { rewrite <- Z.pow_add_r by lia. apply Z.pow_le_mono_r; [lia|]. unfold t. lia. }
    assert (0 < 2 ^ t) by (apply Z.pow_pos_nonneg; lia).
    replace (Z.succ (Z.log2 b)) with (Z.log2 b + 1) in Hb2 by lia. nia. }
  destruct (Z.le_gt_cases 0 (e + t)) as [Hpos|Hneg].
  - assert (Heq : a * 2 ^ t = Zpos m * 2 ^ (e + t) * b).
    { destruct (Z.le_gt_cases 0 e) as [He|He].
      - rewrite (Z.max_l 0 (- e)), (Z.max_r 0 e) in Hv by lia.
        rewrite Z.pow_0_r, Z.mul_1_r in Hv. subst a.
        rewrite Z.pow_add_r by lia. ring.
      - rewrite (Z.max_r 0 (- e)), (Z.max_l 0 e) in Hv by lia.
        rewrite Z.pow_0_r, Z.mul_1_r in Hv.
        replace t with (- e + (e + t)) at 1 by lia.
        rewrite Z.pow_add_r by lia. rewrite Z.mul_assoc, Hv. ring. }
    rewrite Heq, Z.div_mul by lia.
    rewrite Z.log2_mul_pow2 by lia. lia.
  - assert (He : e < 0) by lia.
    rewrite (Z.max_r 0 (- e)), (Z.max_l 0 e) in Hv by lia.
    rewrite Z.pow_0_r, Z.mul_1_r in Hv.
    assert (Hj : 0 < 2 ^ (- (e + t))) by (apply Z.pow_pos_nonneg; lia).
    assert (Heq : a * 2 ^ t * 2 ^ (- (e + t)) = Zpos m * b).
    { rewrite <- Z.mul_assoc, <- Z.pow_add_r by lia.
      replace (t + - (e + t)) with (- e) by lia. exact Hv. }
    rewrite (div_cross (a * 2 ^ t) b (Zpos m) (2 ^ (- (e + t))) Hb Hj Heq) in Hone |- *.
    rewrite <- Z.shiftr_div_pow2 by lia.
    rewrite Z.log2_shiftr by lia.
    assert (Hm : 2 ^ (- (e + t)) <= Zpos m).
    { destruct (Z.lt_ge_cases (Zpos m) (2 ^ (- (e + t)))) as [Hlt|Hge]; [|exact Hge].
      rewrite Z.div_small in Hone by lia. lia. }
    apply Z.log2_le_pow2 in Hm; lia.
Qed.

(** A double is the double nearest to its value. *)
Lemma of_ratio_exact negative a b m e :
  is_double (Finite negative m e) = true ->
  is_value a b m e ->
  of_ratio negative a b = Finite negative m e.
Proof.
  intros Hd Hval. pose proof Hval as (Ha & Hb & Hv).
  unfold of_ratio. destruct (a =? 0) eqn:Ez; [apply Z.eqb_eq in Ez; lia|].
  rewrite (binade_value a b m e Hval).
  assert (Hexp : Z.max (Z.log2 (Zpos m) + e - 52) (-1074) = e
                 /\ Zpos m < 2 ^ 53 /\ e <= 971).
  { unfold is_double in Hd. apply orb_true_iff in Hd as [Hn|Hs].
    - repeat (apply andb_true_iff in Hn as [Hn ?]).
      apply Z.leb_le in Hn. apply Z.ltb_lt in H1. apply Z.leb_le in H0, H.
      assert (Z.log2 (Zpos m) = 52).
      { apply Z.log2_unique; [lia|]. change (Z.succ 52) with 53. lia. }
      lia.
    - apply andb_true_iff in Hs as [Hm He]. apply Z.ltb_lt in Hm. apply Z.eqb_eq in He.
      assert (Z.log2 (Zpos m) < 52).
      { apply Z.log2_lt_pow2; lia. }
      change (2 ^ 52) with 4503599627370496 in Hm.
      change (2 ^ 53) with 9007199254740992. lia. }
  destruct Hexp as (-> & Hm & He).
  assert (Hround : (let '(a', b') := shift a b (- e) in round_half_even a' b') = Zpos m).
  { unfold shift. destruct (0 <=? - e) eqn:E.
    - apply Z.leb_le in E. rewrite (Z.max_r 0 (- e)), (Z.max_l 0 e) in Hv by lia.
      rewrite Z.pow_0_r, Z.mul_1_r in Hv. rewrite Hv. now apply round_whole.
    - apply Z.leb_gt in E. rewrite (Z.max_l 0 (- e)), (Z.max_r 0 e) in Hv by lia.
      rewrite Z.pow_0_r, Z.mul_1_r in Hv. rewrite Z.opp_involutive.
      assert (0 < 2 ^ e) by (apply Z.pow_pos_nonneg; lia).
      replace a with (Zpos m * (b * 2 ^ e)) by (rewrite Hv; ring).
      apply round_whole. lia. }
  destruct (shift a b (- e)) as [a' b']. rewrite Hround.
  destruct (Zpos m =? 0) eqn:E0; [apply Z.eqb_eq in E0; lia|].
  destruct (Zpos m =? 2 ^ 53) eqn:E53; [apply Z.eqb_eq in E53; lia|].
  destruct (971 <? e) eqn:E971; [apply Z.ltb_lt in E971; lia|].
  reflexivity.
Qed.

(** The digits [Number::toString] takes read as the number. *)
Lemma place_reads negative x n k s0 s n' :
  reads negative x n k s0 = true -> place n k s0 = (s, n') -> reads_as negative s n' = x.
Proof. unfold reads. intros Hr Hp. rewrite Hp in Hr. now apply eqb_eq. Qed.

Lemma candidate_reads negative x a b n k s n' :
  candidate negative x a b n k = Some (s, n') -> reads_as negative s n' = x.
Proof.
  unfold candidate. destruct (decimal 1 (k - n)) as [c d].
  set (lo := (a * c) / (b * d)). set (r := (a * c) mod (b * d)).
  destruct (r =? 0).
  - destruct (reads negative x n k lo) eqn:E; [|discriminate].
    intros H; inversion H as [Hp]. exact (place_reads _ _ _ _ _ _ _ E Hp).
  - destruct (reads negative x n k lo) eqn:Elo;
      destruct (reads negative x n k (lo + 1)) eqn:Ehi;
      try discriminate.
    + destruct (2 * r <? b * d);
        [intros H; inversion H as [Hp]; exact (place_reads _ _ _ _ _ _ _ Elo Hp)|].
      destruct (b * d <? 2 * r);
        [intros H; inversion H as [Hp]; exact (place_reads _ _ _ _ _ _ _ Ehi Hp)|].
      destruct (Z.even lo); intros H; inversion H as [Hp].
      * exact (place_reads _ _ _ _ _ _ _ Elo Hp).
      * exact (place_reads _ _ _ _ _ _ _ Ehi Hp).
    + intros H; inversion H as [Hp]. exact (place_reads _ _ _ _ _ _ _ Elo Hp).
    + intros H; inversion H as [Hp]. exact (place_reads _ _ _ _ _ _ _ Ehi Hp).
Qed.

Lemma search_reads fuel negative x a b n : forall k s n',
  search fuel negative x a b n k = Some (s, n') -> reads_as negative s n' = x.
Proof.
  induction fuel as [|fuel IH]; intros k s n'; simpl; [discriminate|].
  destruct (candidate negative x a b n k) as [[s0 n0]|] eqn:E.
  - intros H; inversion H; subst. eapply candidate_reads; eauto.
  - apply IH.
Qed.

Lemma exact_reads negative m e :
  is_double (Finite negative m e) = true ->
  (let '(s, n) := exact m e in reads_as negative s n) = Finite negative m e.
Proof.
  intros Hd. unfold exact. destruct (0 <=? e) eqn:E.
  - apply Z.leb_le in E. unfold reads_as, of_decimal.
    replace (_ - _) with 0 by lia. unfold decimal. simpl (0 <=? 0).
    assert (0 < 2 ^ e) by (apply Z.pow_pos_nonneg; lia).
    rewrite Z2N.id by lia.
    apply of_ratio_exact; [exact Hd|]. unfold is_value.
    rewrite (Z.max_l 0 (- e)), (Z.max_r 0 e) by lia. simpl (10 ^ 0). simpl (2 ^ 0). nia.
  - apply Z.leb_gt in E. unfold reads_as, of_decimal.
    match goal with |- context [decimal _ ?k] => replace k with e by lia end.
    unfold decimal. destruct (0 <=? e) eqn:E'; [apply Z.leb_le in E'; lia|].
    assert (0 < 5 ^ (- e)) by (apply Z.pow_pos_nonneg; lia).
    assert (0 < 10 ^ (- e)) by (apply Z.pow_pos_nonneg; lia).
    rewrite Z2N.id by lia.
    apply of_ratio_exact; [exact Hd|]. unfold is_value.
    rewrite (Z.max_r 0 (- e)), (Z.max_l 0 e) by lia. simpl (2 ^ 0).
    split; [lia|]. split; [lia|].
    change 10 with (5 * 2). rewrite Z.pow_mul_l. ring.
Qed.

Lemma shortest_reads negative m e :
  is_double (Finite negative m e) = true ->
  (let '(s, n) := shortest negative m e in reads_as negative s n) = Finite negative m e.
Proof.
  intros Hd. unfold shortest. destruct (shift (Zpos m) 1 e) as [a b].
  destruct (search 17 negative (Finite negative m e) a b (magnitude a b) 1)
    as [[s n]|] eqn:E.
  - eapply search_reads; eauto.
  - now apply exact_reads.
Qed.

(** *** Reading the text of a number *)

Lemma ends_stops rest : ends rest = true -> stops rest = true.
Proof.
  destruct rest as [|c r]; [reflexivity|]. cbn [ends stops].
  destruct (is_digit c); [discriminate|reflexivity].
Qed.

Lemma span_digits_stops rest : stops rest = true -> span_digits rest = ("", rest).
Proof.
  destruct rest as [|c r]; [reflexivity|]. cbn [stops span_digits].
  intros H. apply negb_true_iff in H. now rewrite H.
Qed.

Lemma span_digits_app ds rest :
  all_digits ds = true -> stops rest = true -> span_digits (ds +:+ rest) = (ds, rest).
Proof.
  intros Hd Hs. induction ds as [|c ds IH].
  - now apply span_digits_stops.
  - cbn [all_digits] in Hd. apply andb_true_iff in Hd as [Hc Hd].
    rewrite append_cons. cbn [span_digits]. rewrite Hc, IH by exact Hd. reflexivity.
Qed.

Lemma all_digits_app a b : all_digits (a +:+ b) = all_digits a && all_digits b.
Proof.
  induction a as [|c a IH]; [reflexivity|].
  rewrite append_cons. cbn [all_digits]. now rewrite IH, andb_assoc.
Qed.

Lemma all_digits_zeros j : all_digits (zeros j) = true.
Proof. induction j as [|j IH]; [reflexivity|]. cbn [zeros all_digits]. now rewrite IH. Qed.

Lemma all_digits_uint d : all_digits (NilEmpty.string_of_uint d) = true.
Proof.
  induction d; cbn [NilEmpty.string_of_uint all_digits]; [reflexivity|..];
    now rewrite IHd.
Qed.

Lemma all_digits_digits n : all_digits (digits n) = true.
Proof. apply all_digits_uint. Qed.

Lemma length_zeros j : String.length (zeros j) = j.
Proof. induction j as [|j IH]; [reflexivity|]. cbn [zeros String.length]. now rewrite IH. Qed.

Lemma value_from_app acc a b :
  value_from acc (a +:+ b) = value_from (value_from acc a) b.
Proof.
  revert acc. induction a as [|c a IH]; intros acc; [reflexivity|].
  rewrite append_cons. cbn [value_from]. apply IH.
Qed.

Lemma value_from_zeros j : forall acc,
  value_from acc (zeros j) = (acc * 10 ^ N.of_nat j)%N.
Proof.
  induction j as [|j IH]; intros acc.
  - cbn [zeros value_from]. change (N.of_nat 0) with 0%N. rewrite N.pow_0_r. lia.
  - cbn [zeros value_from]. rewrite IH. change (digit_value "0") with 0%N.
    rewrite Nat2N.inj_succ, N.pow_succ_r'. ring.
Qed.

Lemma digit_step acc c k :
  digit_value c = Npos k ->
  (10 * Npos acc + digit_value c)%N = Npos (Pos.add k (Pos.mul 10 acc)).
Proof. intros ->. lia. Qed.

Lemma value_from_pos d : forall acc,
  value_from (Npos acc) (NilEmpty.string_of_uint d) = Npos (Pos.of_uint_acc d acc).
Proof.
  induction d; intros acc; cbn [NilEmpty.string_of_uint value_from Pos.of_uint_acc];
    [reflexivity|..];
    try (erewrite digit_step by reflexivity; apply IHd).
  change (10 * N.pos acc + digit_value "0")%N with (Npos (Pos.mul 10 acc)). apply IHd.
Qed.

Lemma value_of_uint d : value_of (NilEmpty.string_of_uint d) = N.of_uint d.
Proof.
  unfold value_of, N.of_uint.
  induction d; cbn [NilEmpty.string_of_uint value_from Pos.of_uint];
    [reflexivity|exact IHd|..];
    match goal with |- value_from ?acc _ = _ =>
      change acc with (Npos (Pos.of_nat (N.to_nat acc)))
    end; apply value_from_pos.
Qed.

Lemma value_of_digits n : value_of (digits n) = n.
Proof. unfold digits. rewrite value_of_uint. apply DecimalN.Unsigned.of_to. Qed.

Lemma to_uint_normal n : Decimal.unorm (N.to_uint n) = N.to_uint n.
Proof.
  rewrite <- (DecimalN.Unsigned.to_of (N.to_uint n)).
  now rewrite DecimalN.Unsigned.of_to.
Qed.

(** The digits of a number above zero start with a digit above zero. *)
Lemma digits_head p :
  exists d more,
    digits (Npos p) = String d more /\ is_digit d = true /\ Ascii.eqb d "0" = false.
Proof.
  unfold digits.
  pose proof (to_uint_normal (Npos p)) as Hnorm. cbn [N.to_uint] in *.
  pose proof (DecimalPos.Unsigned.to_uint_nonnil p) as Hnil.
  pose proof (DecimalPos.Unsigned.to_uint_nonzero p) as Hzero.
  destruct (Pos.to_uint p) as [|u|u|u|u|u|u|u|u|u|u]; [contradiction| |..];
    try (cbn [NilEmpty.string_of_uint]; eexists; eexists; repeat split; reflexivity).
  exfalso. rewrite DecimalFacts.unorm_D0 in Hnorm. unfold Decimal.unorm in Hnorm.
  destruct (Decimal.nzhead u) eqn:E; try discriminate.
  - injection Hnorm as <-. now apply Hzero.
  - rewrite <- E in Hnorm. now apply (DecimalFacts.nzhead_nonzero u u).
Qed.

Lemma digits_not_empty n : digits n <> "".
Proof.
  destruct n as [|p]; [discriminate|].
  destruct (digits_head p) as (d & more & -> & _). discriminate.
Qed.

Lemma split_at_app n : forall s front back,
  split_at n s = (front, back) ->
  s = front +:+ back /\ String.length front = Nat.min n (String.length s).
Proof.
  induction n as [|n IH]; intros s front back H.
  - cbn [split_at] in H. injection H as <- <-. split; [reflexivity|reflexivity].
  - destruct s as [|c s]; cbn [split_at] in H.
    + injection H as <- <-. split; reflexivity.
    + destruct (split_at n s) as [f b] eqn:E. injection H as <- <-.
      destruct (IH s f b E) as [-> Hl]. split; [reflexivity|].
      cbn [String.length]. lia.
Qed.

(** The parts of a number *)

Lemma integer_digits d more rest :
  is_digit d = true -> Ascii.eqb d "0" = false ->
  all_digits more = true -> stops rest = true ->
  integer_part (String d more +:+ rest) = Some (String d more, rest).
Proof.
  intros Hd Hz Hm Hs. rewrite append_cons. unfold integer_part. rewrite Hz, Hd.
  rewrite <- append_cons. rewrite span_digits_app; [reflexivity| |exact Hs].
  cbn [all_digits]. now rewrite Hd, Hm.
Qed.

Lemma fraction_none rest : ends rest = true -> fraction_part rest = Some ("", rest).
Proof.
  destruct rest as [|c r]; [reflexivity|]. cbn [ends fraction_part].
  destruct (Ascii.eqb c "."); [|reflexivity].
  rewrite !orb_true_r. discriminate.
Qed.

Lemma exponent_none rest : ends rest = true -> exponent_part rest = Some (0, rest).
Proof.
  destruct rest as [|c r]; [reflexivity|]. cbn [ends exponent_part].
  destruct (Ascii.eqb c "e"); [rewrite !orb_true_r; discriminate|].
  destruct (Ascii.eqb c "E"); [rewrite !orb_true_r; discriminate|]. reflexivity.
Qed.

Lemma fraction_digits ds rest :
  all_digits ds = true -> ds <> "" -> stops rest = true ->
  fraction_part (String "." (ds +:+ rest)) = Some (ds, rest).
Proof.
  intros Hd Hne Hs. unfold fraction_part. cbn [Ascii.eqb Bool.eqb].
  rewrite span_digits_app by assumption.
  destruct ds; [contradiction|reflexivity].
Qed.

Lemma exponent_text x rest :
  stops rest = true ->
  exponent_part
    (String "e" (((if 0 <=? x then "+" else "-") +:+ digits (Z.to_N (Z.abs x))) +:+ rest))
  = Some (x, rest).
Proof.
  intros Hs. unfold exponent_part. cbn [Ascii.eqb Bool.eqb orb].
  pose proof (digits_not_empty (Z.to_N (Z.abs x))) as Hne.
  pose proof (all_digits_digits (Z.to_N (Z.abs x))) as Hd.
  pose proof (value_of_digits (Z.to_N (Z.abs x))) as Hv.
  destruct (0 <=? x) eqn:E.
  - apply Z.leb_le in E.
    change (("+" +:+ ?a) +:+ ?b) with (String "+" (a +:+ b)).
    cbn [Ascii.eqb Bool.eqb]. rewrite span_digits_app by assumption.
    destruct (digits (Z.to_N (Z.abs x))); [contradiction|].
    rewrite Hv. f_equal. f_equal. lia.
  - apply Z.leb_gt in E.
    change (("-" +:+ ?a) +:+ ?b) with (String "-" (a +:+ b)).
    cbn [Ascii.eqb Bool.eqb]. rewrite span_digits_app by assumption.
    destruct (digits (Z.to_N (Z.abs x))); [contradiction|].
    rewrite Hv. f_equal. f_equal. lia.
Qed.

Lemma of_decimal_whole negative s j x :
  x = Z.of_nat j ->
  of_decimal negative (s * 10 ^ N.of_nat j)%N 0 = of_decimal negative s x.
Proof.
  intros ->. unfold of_decimal, decimal. cbn [Z.leb Z.compare].
  destruct (0 <=? Z.of_nat j) eqn:E; [|apply Z.leb_gt in E; lia].
  rewrite N2Z.inj_mul, N2Z.inj_pow, nat_N_Z. change (Z.of_N 10) with 10.
  rewrite Z.pow_0_r, Z.mul_1_r. reflexivity.
Qed.

(** The text of digits and an exponent reads as the digits with the
    exponent. *)
Lemma read_text negative p n rest :
  ends rest = true ->
  read negative (text (Npos p) n +:+ rest) = Some (reads_as negative (Npos p) n, rest).
Proof.
  intros He. pose proof (ends_stops rest He) as Hs.
  unfold text, reads_as.
  destruct (digits_head p) as (d & more & Hds & Hd & Hz).
  pose proof (all_digits_digits (Npos p)) as Hall.
  pose proof (value_of_digits (Npos p)) as Hval.
  set (ds := digits (Npos p)) in *.
  set (k := Z.of_nat (String.length ds)).
  assert (Hmore : all_digits more = true).
  { rewrite Hds in Hall. cbn [all_digits] in Hall. now apply andb_true_iff in Hall. }
  assert (Hk : k = 1 + Z.of_nat (String.length more)).
  { unfold k. rewrite Hds. cbn [String.length]. lia. }
  destruct ((k <=? n) && (n <=? 21)) eqn:E1.
  - apply andb_true_iff in E1 as [Hkn _]. apply Z.leb_le in Hkn.
    unfold read. rewrite Hds at 1. rewrite append_cons.
    rewrite integer_digits;
      [|exact Hd|exact Hz|rewrite all_digits_app, Hmore; apply all_digits_zeros|exact Hs].
    rewrite fraction_none, exponent_none by exact He.
    rewrite append_empty, <- append_cons, <- Hds.
    unfold value_of. rewrite value_from_app. fold (value_of ds).
    rewrite Hval, value_from_zeros. cbn [String.length Z.of_nat Z.sub Z.opp Z.add].
    f_equal. f_equal. apply of_decimal_whole. lia.
  - destruct ((0 <? n) && (n <=? 21)) eqn:E2.
    + apply andb_true_iff in E2 as [Hn Hn21]. apply Z.ltb_lt in Hn. apply Z.leb_le in Hn21.
      assert (Hnk : n < k).
      { apply andb_false_iff in E1 as [E1|E1]; [now apply Z.leb_gt in E1|].
        apply Z.leb_gt in E1. lia. }
      destruct (split_at (Z.to_nat n) ds) as [front back] eqn:Esplit.
      destruct (split_at_app _ _ _ _ Esplit) as [Happ Hlen].
      assert (Hfront : String.length front = Z.to_nat n) by (unfold k in Hnk; lia).
      assert (Hback : Z.of_nat (String.length back) = k - n).
      { unfold k. rewrite Happ, length_append. lia. }
      rewrite Happ, all_digits_app in Hall. apply andb_true_iff in Hall as [Hf Hb].
      destruct front as [|d' front']; [cbn [String.length] in Hfront; lia|].
      assert (d' = d) as -> by (rewrite Hds in Happ; now injection Happ).
      cbn [all_digits] in Hf. apply andb_true_iff in Hf as [_ Hf].
      unfold read. rewrite append_assoc.
      rewrite integer_digits; [|exact Hd|exact Hz|exact Hf|reflexivity].
      change ("." +:+ back) with (String "." back). rewrite append_cons.
      rewrite fraction_digits; [|exact Hb| |exact Hs].
      2:{ intros ->. cbn [String.length Z.of_nat] in Hback. lia. }
      rewrite exponent_none by exact He.
      rewrite <- Happ. fold ds. rewrite Hval. f_equal. f_equal. f_equal. lia.
    + destruct ((-6 <? n) && (n <=? 0)) eqn:E3.
      * apply andb_true_iff in E3 as [Hn6 Hn0]. apply Z.leb_le in Hn0.
        unfold read.
        change (("0." +:+ ?a) +:+ ?b) with (String "0" (String "." (a +:+ b))).
        cbn [integer_part Ascii.eqb Bool.eqb].
        rewrite append_assoc, <- append_assoc.
        rewrite fraction_digits; [| |destruct (zeros (Z.to_nat (- n))); rewrite Hds; discriminate|exact Hs].
        2:{ rewrite all_digits_app, all_digits_zeros. exact Hall. }
        rewrite exponent_none by exact He.
        unfold value_of. change ("0" +:+ ?a) with (String "0" a). cbn [value_from].
        change (10 * 0 + digit_value "0")%N with 0%N.
        rewrite value_from_app, value_from_zeros, N.mul_0_l.
        fold (value_of ds). rewrite Hval, length_append, length_zeros.
        f_equal. f_equal. f_equal. fold k. lia.
      * unfold read. rewrite Hds at 1.
        assert (Hexp : forall body : string,
                   exponent_part
                     (("e" +:+ (if 0 <=? n - 1 then "+" else "-")
                       +:+ digits (Z.to_N (Z.abs (n - 1)))) +:+ rest)
                   = Some (n - 1, rest)).
        { intros _. apply (exponent_text (n - 1) rest Hs). }
        specialize (Hexp "").
        destruct more as [|d2 more'].
        -- cbv iota.
           change ((String d "" +:+ ?a) +:+ ?b) with (String d "" +:+ (a +:+ b)).
           rewrite integer_digits; [|exact Hd|exact Hz|reflexivity|reflexivity].
           change (fraction_part (("e" +:+ ?a) +:+ ?b))
             with (Some ("", ("e" +:+ a) +:+ b)).
           cbv iota beta. rewrite Hexp. rewrite append_empty, <- Hds. fold ds.
           rewrite Hval. f_equal. f_equal. f_equal.
           cbn [String.length Z.of_nat] in Hk |- *. lia.
        -- cbv iota.
           change ((String d "" +:+ ?a) +:+ ?b) with (String d "" +:+ (a +:+ b)).
           rewrite integer_digits; [|exact Hd|exact Hz|reflexivity|reflexivity].
           change (("." +:+ ?a) +:+ ?b) with (String "." (a +:+ b)).
           rewrite (append_assoc (String d2 more')).
           rewrite fraction_digits; [|exact Hmore|discriminate|reflexivity].
           rewrite Hexp.
           change (String d "" +:+ String d2 more') with (String d (String d2 more')).
           rewrite <- Hds. fold ds. rewrite Hval. f_equal. f_equal. f_equal. lia.
Qed.

Lemma read_head negative t r :
  read negative t = Some r -> exists c tail, t = String c tail /\ is_digit c = true.
Proof.
  unfold read, integer_part. destruct t as [|c tail]; [discriminate|].
  intros H. exists c, tail. split; [reflexivity|].
  destruct (Ascii.eqb c "0") eqn:E; [apply Ascii.eqb_eq in E; now subst|].
  destruct (is_digit c); [reflexivity|discriminate].
Qed.

Lemma digit_no_minus c : is_digit c = true -> Ascii.eqb c "-" = false.
Proof. destruct c as [[] [] [] [] [] [] [] []]; simpl; try discriminate; reflexivity. Qed.

Lemma parse_number_signed negative t r :
  read negative t = Some r ->
  parse_number ((if negative then "-" else "") +:+ t) = Some r.
Proof.
  intros H. destruct (read_head _ _ _ H) as (c & tail & -> & Hd).
  destruct negative.
  - exact H.
  - change ("" +:+ String c tail) with (String c tail).
    unfold parse_number. rewrite (digit_no_minus c Hd). exact H.
Qed.

Lemma reads_as_zero negative n : reads_as negative 0 n = Zero negative.
Proof.
  unfold reads_as, of_decimal, decimal.
  destruct (0 <=? _); reflexivity.
Qed.

(** The digits [Number::toString] takes are digits of a number above
    zero. *)
Lemma shortest_positive negative m e s n :
  is_double (Finite negative m e) = true ->
  shortest negative m e = (s, n) ->
  exists p, s = Npos p /\ reads_as negative (Npos p) n = Finite negative m e.
Proof.
  intros Hd Hs. pose proof (shortest_reads negative m e Hd) as Hr.
  rewrite Hs in Hr. destruct s as [|p].
  - rewrite reads_as_zero in Hr. discriminate.
  - now exists p.
Qed.

(** [Number(String(x))] is [x], for every finite double but [-0],
    which comes back as [0]: the text of a number, read by the grammar
    of the interchange format, is the number. *)
Lemma parse_toString x rest :
  is_double x = true -> is_finite x = true -> ends rest = true ->
  parse_number (toString x +:+ rest) = Some (unsigned x, rest).
Proof.
  intros Hd Hf He. destruct x as [| |negative|negative m e]; try discriminate.
  - cbn [toString unsigned].
    change (parse_number ("0" +:+ rest)) with (read false (String "0" rest)).
    unfold read. cbn [integer_part Ascii.eqb Bool.eqb].
    rewrite fraction_none, exponent_none by exact He. reflexivity.
  - cbn [toString unsigned].
    destruct (shortest negative m e) as [s n] eqn:Es.
    destruct (shortest_positive _ _ _ _ _ Hd Es) as (p & -> & Hr).
    rewrite append_assoc. apply parse_number_signed.
    rewrite read_text by exact He. now rewrite Hr.
Qed.

(** The text of a finite number starts with its sign or a digit. *)
Lemma toString_head x :
  is_double x = true -> is_finite x = true ->
  exists c tail,
    toString x = String c tail /\ (Ascii.eqb c "-" || is_digit c) = true.
Proof.
  intros Hd Hf. destruct x as [| |negative|negative m e]; try discriminate.
  - exists "0"%char, "". split; reflexivity.
  - cbn [toString].
    destruct (shortest negative m e) as [s n] eqn:Es.
    destruct (shortest_positive _ _ _ _ _ Hd Es) as (p & -> & Hr).
    pose proof (read_text false p n "" eq_refl) as H.
    rewrite append_empty in H.
    destruct (read_head _ _ _ H) as (c & tail & -> & Hc).
    destruct negative.
    + exists "-"%char, (String c tail). split; reflexivity.
    + exists c, tail. split; [reflexivity|]. rewrite Hc. apply orb_true_r.
Qed.

End NumberProofs.

Module JsonProofs.
Import Js Json StringFacts.

(** Induction over values, with the hypothesis for every item of an
    array and every member of an object. *)
Lemma value_induction (P : value -> Prop) :
  P JNull ->
  (forall b, P (JBool b)) ->
  (forall x, P (JNumber x)) ->
  (forall s, P (JString s)) ->
  (forall items, Forall P items -> P (JArray items)) ->
  (forall members, Forall (fun m => P (snd m)) members -> P (JObject members)) ->
  forall v, P v.
Proof.
  intros Hnull Hbool Hnum Hstr Harr Hobj.
  fix IH 1. intros [|b|x|s|items|members].
  - exact Hnull.
  - apply Hbool.
  - apply Hnum.
  - apply Hstr.
  - apply Harr. induction items as [|x items IHitems]; constructor; [apply IH|exact IHitems].
  - apply Hobj. induction members as [|[k x] members IHm]; constructor;
      [apply IH|exact IHm].
Qed.

(** Strings *)

Lemma parse_escape_char (c : ascii) (tail : string) :
  parse_chars (escape_char c +:+ tail) = prepend (String c "") (parse_chars tail).
Proof. destruct c as [[] [] [] [] [] [] [] []]; reflexivity. Qed.

Lemma parse_escaped (s rest : string) :
  parse_chars (escape s +:+ String dquote rest) = Some (s, rest).
Proof.
  induction s as [|c s IH].
  - reflexivity.
  - cbn [escape]. now rewrite append_assoc, parse_escape_char, IH.
Qed.

Lemma parse_quoted (s rest : string) :
  exists tail, quote s +:+ rest = String dquote tail /\ parse_chars tail = Some (s, rest).
Proof.
  exists (escape s +:+ String dquote rest). split.
  - unfold quote. now rewrite append_cons, append_assoc.
  - apply parse_escaped.
Qed.

(** Characters *)

Lemma closes_ends rest : closes rest = true -> JsNumber.ends rest = true.
Proof.
  destruct rest as [|c r]; [reflexivity|].
  destruct c as [[] [] [] [] [] [] [] []]; simpl; try discriminate; reflexivity.
Qed.

Lemma number_dispatch c :
  (Ascii.eqb c "-" || JsNumber.is_digit c) = true ->
  is_space c = false
  /\ Ascii.eqb c dquote = false /\ Ascii.eqb c "[" = false /\ Ascii.eqb c "{" = false
  /\ Ascii.eqb c "]" = false /\ Ascii.eqb c "}" = false.
Proof.
  destruct c as [[] [] [] [] [] [] [] []]; simpl; try discriminate; intros _;
    repeat split; reflexivity.
Qed.

(** How [parse_value] goes on after the first character *)

Lemma parse_value_string fuel tail :
  parse_value (S fuel) (String dquote tail)
  = option_map (fun '(str, after) => (JString str, after)) (parse_chars tail).
Proof. reflexivity. Qed.

Lemma parse_value_number fuel c tail :
  (Ascii.eqb c "-" || JsNumber.is_digit c) = true ->
  parse_value (S fuel) (String c tail)
  = option_map (fun '(x, after) => (JNumber x, after))
      (JsNumber.parse_number (String c tail)).
Proof.
  intros Hd. destruct (number_dispatch c Hd) as (Hs & Hq & Ha & Ho & _).
  cbn [parse_value skip_space]. now rewrite Hs, Hq, Ha, Ho, Hd.
Qed.

Lemma parse_value_array fuel c tail :
  is_space c = false ->
  Ascii.eqb c "]" = false ->
  parse_value (S fuel) (String "[" (String c tail))
  = option_map (fun '(items, after) => (JArray items, after))
      (parse_items fuel (String c tail)).
Proof.
  intros Hs Hc.
  change (parse_value (S fuel) (String "[" (String c tail)))
    with (match skip_space (String c tail) with
          | String c' after =>
              if Ascii.eqb c' "]" then Some (JArray [], after)
              else option_map (fun '(items, after) => (JArray items, after))
                     (parse_items fuel (String c tail))
          | EmptyString => None
          end).
  cbn [skip_space]. now rewrite Hs, Hc.
Qed.

Lemma parse_value_object fuel c tail :
  is_space c = false ->
  Ascii.eqb c "}" = false ->
  parse_value (S fuel) (String "{" (String c tail))
  = option_map (fun '(members, after) => (JObject (properties members), after))
      (parse_members fuel (String c tail)).
Proof.
  intros Hs Hc.
  change (parse_value (S fuel) (String "{" (String c tail)))
    with (match skip_space (String c tail) with
          | String c' after =>
              if Ascii.eqb c' "}" then Some (JObject [], after)
              else option_map (fun '(members, after) => (JObject (properties members), after))
                     (parse_members fuel (String c tail))
          | EmptyString => None
          end).
  cbn [skip_space]. now rewrite Hs, Hc.
Qed.

(** The first character of the text of a value *)

Lemma value_head v :
  is_json v = true ->
  exists c s,
    stringify v = String c s
    /\ is_space c = false /\ Ascii.eqb c "]" = false /\ Ascii.eqb c "}" = false.
Proof.
  destruct v as [|[]|x|s|items|members]; intros Hj;
    try (eexists; eexists; split; [reflexivity|repeat split; reflexivity]).
  cbn [is_json] in Hj. apply andb_true_iff in Hj as [Hd Hf].
  destruct (NumberProofs.toString_head x Hd Hf) as (c & s & Heq & Hc).
  destruct (number_dispatch c Hc) as (Hs & _ & _ & _ & Hb & Hcl).
  exists c, s. cbn [stringify]. unfold number. rewrite Hf. auto.
Qed.

Lemma commas_one (s rest : string) : commas [s] +:+ rest = s +:+ rest.
Proof. reflexivity. Qed.

Lemma commas_more (s s' : string) (ss : list string) (rest : string) :
  commas (s :: s' :: ss) +:+ rest = s +:+ String "," (commas (s' :: ss) +:+ rest).
Proof. unfold commas. cbn [String.concat]. now rewrite !append_assoc. Qed.

(** The properties of an object *)

Lemma has_key_keys key members :
  has_key key members = existsb (String.eqb key) (map fst members).
Proof.
  unfold has_key. induction members as [|m members IH]; [reflexivity|].
  cbn [existsb map]. now rewrite IH.
Qed.

Lemma insert_index_last i key v members :
  forallb (fun k => match index_of k with
                    | Some i' => (i' <? i)%N
                    | None => false
                    end) (map fst members) = true ->
  insert_index i key v members = members ++ [(key, v)].
Proof.
  induction members as [|[k v'] members IH]; [reflexivity|].
  cbn [map fst forallb insert_index]. intros H. apply andb_true_iff in H as [Hk Hrest].
  destruct (index_of k) as [i'|]; [|discriminate].
  rewrite Hk, IH by exact Hrest. reflexivity.
Qed.

(** A key that can come after the others becomes the last property. *)
Lemma set_property_last key v members :
  comes_after (map fst members) key = true ->
  set_property key v members = members ++ [(key, v)].
Proof.
  unfold comes_after, set_property. intros H. apply andb_true_iff in H as [Hnew Hord].
  rewrite has_key_keys. apply negb_true_iff in Hnew. rewrite Hnew.
  destruct (index_of key) as [i|]; [|reflexivity].
  now apply insert_index_last.
Qed.

Lemma properties_from members : forall object,
  in_order (map fst object) (map fst members) = true ->
  fold_left (fun object m => set_property (fst m) (snd m) object) members object
  = object ++ members.
Proof.
  induction members as [|[k v] members IH]; intros object H.
  - cbn [fold_left]. now rewrite app_nil_r.
  - cbn [map fst in_order] in H. apply andb_true_iff in H as [Hk Hrest].
    cbn [fold_left fst snd]. rewrite (set_property_last k v object Hk).
    rewrite IH.
    + now rewrite <- app_assoc.
    + now rewrite map_app.
Qed.

(** Members in the order of an object are the properties of the
    object that [JSON.parse] builds from them. *)
Lemma properties_in_order members :
  in_order [] (map fst members) = true -> properties members = members.
Proof. intros H. unfold properties. now rewrite (properties_from members []). Qed.

Lemma unsigned_keys members :
  map fst (map (fun m : string * value => (fst m, unsigned (snd m))) members)
  = map fst members.
Proof. rewrite map_map. reflexivity. Qed.

(** Arrays and objects, given the round trip of their parts *)

Lemma parse_items_stringify items : forall fuel rest,
  Forall round_trips items ->
  items <> [] ->
  list_sum (map (fun item => S (weight item)) items) <= fuel ->
  parse_items fuel (commas (map stringify items) +:+ String "]" rest)
  = Some (map unsigned items, rest).
Proof.
  induction items as [|x items IH]; intros fuel rest Hall Hne Hfuel; [contradiction|].
  inversion Hall as [|? ? Hx Hitems]; subst.
  cbn [map list_sum fold_right] in Hfuel.
  destruct fuel as [|fuel]; [lia|].
  destruct items as [|y items].
  - cbn [map]. rewrite commas_one. cbn [parse_items].
    rewrite Hx by (try reflexivity; lia). reflexivity.
  - change (map stringify (x :: y :: items))
      with (stringify x :: stringify y :: map stringify items).
    rewrite commas_more. cbn [parse_items].
    rewrite Hx by (try reflexivity; lia).
    change (stringify y :: map stringify items) with (map stringify (y :: items)).
    change (skip_space (String "," ?t)) with (String ","%char t).
    cbv iota. change (Ascii.eqb "," ",") with true. cbv iota.
    rewrite IH; [reflexivity|assumption|discriminate|unfold list_sum; lia].
Qed.

Lemma parse_members_key fuel tail key more :
  parse_chars tail = Some (key, String ":" more) ->
  parse_members (S fuel) (String dquote tail)
  = match parse_value fuel more with
    | Some (v, after) =>
        match skip_space after with
        | String c more' =>
            if Ascii.eqb c "," then
              option_map (fun '(ms, rest) => ((key, v) :: ms, rest))
                (parse_members fuel more')
            else if Ascii.eqb c "}" then Some ([(key, v)], more')
            else None
        | EmptyString => None
        end
    | None => None
    end.
Proof.
  intros Hkey. cbn [parse_members].
  change (skip_space (String dquote tail)) with (String dquote tail).
  cbv iota. change (Ascii.eqb dquote dquote) with true. cbv iota.
  rewrite Hkey.
  change (skip_space (String ":" more)) with (String ":"%char more).
  cbv iota. change (Ascii.eqb ":" ":") with true. cbv iota.
  reflexivity.
Qed.

Lemma member_text key v tail :
  exists text,
    (quote key +:+ ":" +:+ stringify v) +:+ tail = String dquote text
    /\ parse_chars text = Some (key, String ":" (stringify v +:+ tail)).
Proof.
  destruct (parse_quoted key (String ":" (stringify v +:+ tail))) as (text & Heq & Hp).
  exists text. split; [|exact Hp].
  rewrite <- Heq. now rewrite !append_assoc.
Qed.

Lemma parse_members_stringify members : forall fuel rest,
  Forall (fun m => round_trips (snd m)) members ->
  members <> [] ->
  list_sum (map (fun m => S (weight (snd m))) members) <= fuel ->
  parse_members fuel
    (commas (map (fun m => quote (fst m) +:+ ":" +:+ stringify (snd m)) members)
     +:+ String "}" rest)
  = Some (map (fun m => (fst m, unsigned (snd m))) members, rest).
Proof.
  induction members as [|[key x] members IH]; intros fuel rest Hall Hne Hfuel;
    [contradiction|].
  inversion Hall as [|? ? Hx Hmembers]; subst. cbn [snd] in Hx.
  cbn [map list_sum fold_right snd] in Hfuel.
  destruct fuel as [|fuel]; [lia|].
  destruct members as [|[key' y] members].
  - cbn [map fst snd]. rewrite commas_one.
    destruct (member_text key x (String "}" rest)) as (text & -> & Hkey).
    rewrite (parse_members_key _ _ _ _ Hkey).
    rewrite Hx by (try reflexivity; lia). reflexivity.
  - set (member := fun m : string * value => quote (fst m) +:+ ":" +:+ stringify (snd m)).
    change (map member ((key, x) :: (key', y) :: members))
      with (member (key, x) :: member (key', y) :: map member members).
    rewrite commas_more.
    change (member (key', y) :: map member members)
      with (map member ((key', y) :: members)).
    unfold member at 1. cbn [fst snd].
    destruct (member_text key x
                (String "," (commas (map member ((key', y) :: members))
                             +:+ String "}" rest))) as (text & -> & Hkey).
    rewrite (parse_members_key _ _ _ _ Hkey).
    rewrite Hx by (try reflexivity; lia).
    change (skip_space (String "," ?t)) with (String ","%char t).
    cbv iota. change (Ascii.eqb "," ",") with true. cbv iota.
    unfold member.
    rewrite IH; [reflexivity|assumption|discriminate|unfold list_sum; lia].
Qed.

Lemma Forall_is_json {A} (P : value -> Prop) (part : A -> value) (l : list A) :
  Forall (fun a => is_json (part a) = true -> P (part a)) l ->
  forallb (fun a => is_json (part a)) l = true ->
  Forall (fun a => P (part a)) l.
Proof.
  induction 1 as [|a l Ha _ IH]; intros H; constructor;
    cbn [forallb] in H; apply andb_true_iff in H as [Hj Hl]; auto.
Qed.

(** Every value of the interchange format comes back from its text,
    whatever closes it, without the signs of its zeros. *)
Lemma stringify_round_trips v : is_json v = true -> round_trips v.
Proof.
  induction v as [|b|x|s|items Hitems|members Hmembers] using value_induction;
    intros Hjson fuel rest Hfuel Hclose;
    (destruct fuel as [|fuel]; [cbn [weight] in Hfuel; lia|]).
  - reflexivity.
  - destruct b; reflexivity.
  - pose proof Hjson as Hj. cbn [is_json] in Hj. apply andb_true_iff in Hj as [Hd Hf].
    destruct (NumberProofs.toString_head x Hd Hf) as (c & tail & Heq & Hc).
    cbn [stringify unsigned]. unfold number. rewrite Hf.
    rewrite Heq, append_cons, (parse_value_number fuel c _ Hc).
    rewrite <- append_cons, <- Heq.
    rewrite (NumberProofs.parse_toString x rest Hd Hf (closes_ends rest Hclose)).
    reflexivity.
  - cbn [stringify]. destruct (parse_quoted s rest) as (tail & -> & Hp).
    now rewrite parse_value_string, Hp.
  - cbn [stringify unsigned]. destruct items as [|x items]; [reflexivity|].
    cbn [is_json] in Hjson.
    pose proof (Forall_is_json round_trips (fun v => v) _ Hitems Hjson) as Hall.
    change (parse_value (S fuel)
              (String "[" ((commas (map stringify (x :: items)) +:+ "]") +:+ rest))
            = Some (JArray (map unsigned (x :: items)), rest)).
    rewrite append_assoc. change ("]" +:+ rest) with (String "]" rest).
    cbn [forallb] in Hjson. apply andb_true_iff in Hjson as [Hjx _].
    destruct (value_head x Hjx) as (c & s & Heq & Hs & Hb & _).
    assert (Hbody : exists tail,
               commas (map stringify (x :: items)) +:+ String "]" rest = String c tail).
    { destruct items as [|y items]; cbn [map].
      - rewrite commas_one, Heq, append_cons. eauto.
      - rewrite commas_more, Heq, append_cons. eauto. }
    destruct Hbody as (tail & Hbody).
    rewrite Hbody, (parse_value_array fuel c tail Hs Hb), <- Hbody.
    rewrite parse_items_stringify; [reflexivity|assumption|discriminate|].
    cbn [weight] in Hfuel. lia.
  - cbn [stringify unsigned]. destruct members as [|[key x] members]; [reflexivity|].
    cbn [is_json] in Hjson. apply andb_true_iff in Hjson as [Horder Hjson].
    pose proof (Forall_is_json round_trips snd _ Hmembers Hjson) as Hall.
    set (member := fun m : string * value => quote (fst m) +:+ ":" +:+ stringify (snd m)).
    change (parse_value (S fuel)
              (String "{" ((commas (map member ((key, x) :: members)) +:+ "}") +:+ rest))
            = Some (JObject (map (fun m => (fst m, unsigned (snd m)))
                               ((key, x) :: members)), rest)).
    rewrite append_assoc. change ("}" +:+ rest) with (String "}" rest).
    assert (Hbody : exists tail,
               commas (map member ((key, x) :: members)) +:+ String "}" rest
               = String dquote tail).
    { destruct members as [|m members]; cbn [map].
      - rewrite commas_one. unfold member, quote. cbn [fst].
        rewrite !append_cons. eauto.
      - rewrite commas_more. unfold member at 1. unfold quote. cbn [fst].
        rewrite !append_cons. eauto. }
    destruct Hbody as (tail & Hbody).
    rewrite Hbody, (parse_value_object fuel dquote tail eq_refl eq_refl), <- Hbody.
    unfold member.
    rewrite parse_members_stringify; [|assumption|discriminate|].
    + cbn [option_map]. rewrite properties_in_order; [reflexivity|].
      now rewrite unsigned_keys.
    + cbn [weight] in Hfuel. lia.
Qed.

(** The fuel [parse] starts with is enough. *)
Lemma sum_le_commas {A} (w : A -> nat) (text : A -> string) (l : list A) :
  Forall (fun a => w a <= String.length (text a)) l ->
  list_sum (map (fun a => S (w a)) l) <= S (String.length (commas (map text l))).
Proof.
  induction 1 as [|a l Ha _ IH]; [cbn; lia|].
  destruct l as [|b l].
  - cbn [map list_sum fold_right]. rewrite <- (append_empty (commas [text a])).
    rewrite commas_one, append_empty. lia.
  - change (map text (a :: b :: l)) with (text a :: text b :: map text l).
    rewrite <- (append_empty (commas _)), commas_more, append_empty.
    rewrite length_append.
    change (String.length (String "," ?t)) with (S (String.length t)).
    change (text b :: map text l) with (map text (b :: l)).
    unfold list_sum in *. cbn [map fold_right] in *. lia.
Qed.

Lemma weight_le_length v : is_json v = true -> weight v <= String.length (stringify v).
Proof.
  induction v as [|b|x|s|items Hitems|members Hmembers] using value_induction;
    intros Hjson.
  - cbn. lia.
  - destruct b; cbn; lia.
  - destruct (value_head (JNumber x) Hjson) as (c & s & -> & _). cbn. lia.
  - cbn. lia.
  - cbn [is_json] in Hjson.
    pose proof (Forall_is_json (fun v => weight v <= String.length (stringify v))
                  (fun v => v) _ Hitems Hjson) as Hall.
    pose proof (sum_le_commas weight stringify items Hall).
    change (String.length (stringify (JArray items)))
      with (S (String.length (commas (map stringify items) +:+ "]"))).
    rewrite length_append. cbn [weight String.length]. lia.
  - cbn [is_json] in Hjson. apply andb_true_iff in Hjson as [_ Hjson].
    pose proof (Forall_is_json (fun v => weight v <= String.length (stringify v))
                  snd _ Hmembers Hjson) as Hall.
    set (member := fun m : string * value => quote (fst m) +:+ ":" +:+ stringify (snd m)).
    assert (Hm : Forall (fun m => weight (snd m) <= String.length (member m)) members).
    { eapply Forall_impl; [exact Hall|]. intros m Hw. unfold member.
      rewrite !length_append. simpl in Hw |- *. lia. }
    pose proof (sum_le_commas (fun m => weight (snd m)) member members Hm).
    change (String.length (stringify (JObject members)))
      with (S (String.length (commas (map member members) +:+ "}"))).
    rewrite length_append. cbn [weight String.length]. lia.
Qed.

(** [JSON.parse(JSON.stringify(v))] is [v] without the signs of its
    zeros, for every value of the interchange format. *)
Lemma parse_stringify v : is_json v = true -> parse (stringify v) = Ok (unsigned v).
Proof.
  intros Hjson. unfold parse.
  pose proof (stringify_round_trips v Hjson (2 * String.length (stringify v) + 2) "") as H.
  rewrite append_empty in H. rewrite H; [reflexivity| |reflexivity].
  pose proof (weight_le_length v Hjson). lia.
Qed.

Lemma number_unsigned_twice x :
  JsNumber.unsigned (JsNumber.unsigned x) = JsNumber.unsigned x.
Proof. destruct x; reflexivity. Qed.

Lemma unsigned_twice v : unsigned (unsigned v) = unsigned v.
Proof.
  induction v as [|b|x|s|items Hitems|members Hmembers] using value_induction;
    cbn [unsigned]; try reflexivity.
  - now rewrite number_unsigned_twice.
  - f_equal. rewrite map_map. apply map_ext_Forall. exact Hitems.
  - f_equal. rewrite map_map. apply map_ext_Forall.
    eapply Forall_impl; [exact Hmembers|]. intros m Hm. cbn [fst snd]. now rewrite Hm.
Qed.

(** What comes back is deep-equal to the value. *)
Lemma unsigned_deep_equal v : deep_equal (unsigned v) v.
Proof. apply unsigned_twice. Qed.

End JsonProofs.

Module WalkFacts.
Import Js Os TreeFs More.

Lemma lookup_node_app a : forall b n,
  lookup_node (a ++ b) n
  = match lookup_node a n with Ok m => lookup_node b m | Err e => Err e end.
Proof.
  induction a as [|s a IH]; intros b n; [reflexivity|].
  simpl. destruct n as [c|entries|]; try reflexivity.
  destruct (find_entry s entries); [apply IH|reflexivity].
Qed.

Lemma node_at_cons c dir st :
  node_at (c :: dir) st
  = match node_at dir st with
    | Ok (Dir entries) =>
        match find_entry c entries with
        | Some child => Ok child
        | None => Err (SystemError ENOENT)
        end
    | Ok _ => Err (SystemError ENOTDIR)
    | Err e => Err e
    end.
Proof.
  unfold node_at. simpl. rewrite lookup_node_app.
  destruct (lookup_node (rev dir) (Dir st)) as [[f|entries|]|e]; simpl;
    try reflexivity; try now destruct (find_entry c entries).
Qed.

(** What leads to something lies in a directory. *)
Lemma node_at_parent c dir st n :
  node_at (c :: dir) st = Ok n -> exists d, node_at dir st = Ok (Dir d).
Proof.
  rewrite node_at_cons. destruct (node_at dir st) as [[f|entries|]|e]; try discriminate.
  eauto.
Qed.

Lemma node_at_tl dir st d :
  node_at dir st = Ok (Dir d) -> exists d', node_at (tl dir) st = Ok (Dir d').
Proof.
  destruct dir as [|c dir]; simpl; [eauto|]. apply node_at_parent.
Qed.

Lemma enter_stays dir c : stays c = true -> enter dir c = dir.
Proof. unfold enter. now intros ->. Qed.

Lemma enter_name dir c :
  stays c = false -> String.eqb c ".." = false -> enter dir c = c :: dir.
Proof. unfold enter. now intros -> ->. Qed.

(** [enter] is the step of [path.normalize] below the working
    directory. *)
Lemma enter_normalize dir c :
  Forall (fun s => String.eqb s ".." = false) dir ->
  enter dir c = Path.normalize_step false dir c
  /\ Forall (fun s => String.eqb s ".." = false) (enter dir c).
Proof.
  intros Hdir. unfold enter, stays, Path.normalize_step.
  destruct (String.eqb c "" || String.eqb c "."); [auto|].
  destruct (String.eqb c "..") eqn:E.
  - destruct dir as [|top below]; [auto|].
    inversion Hdir as [|? ? Htop Hbelow]; subst. rewrite Htop. auto.
  - auto.
Qed.

Lemma walk_app st a : forall dir b,
  walk st dir (a ++ b)
  = match walk st dir a with Ok dir' => walk st dir' b | Err e => Err e end.
Proof.
  induction a as [|c a IH]; intros dir b; [reflexivity|].
  simpl. destruct (node_at dir st) as [[f|entries|]|e]; try reflexivity. apply IH.
Qed.

(** A walk that succeeds ends where [path.normalize] says. *)
Lemma walk_normalize st comps : forall dir dir',
  Forall (fun s => String.eqb s ".." = false) dir ->
  walk st dir comps = Ok dir' ->
  dir' = fold_left (Path.normalize_step false) comps dir
  /\ Forall (fun s => String.eqb s ".." = false) dir'.
Proof.
  induction comps as [|c comps IH]; intros dir dir' Hdir; simpl.
  - intros H; inversion H; subst. auto.
  - destruct (node_at dir st) as [[f|entries|]|e]; try discriminate.
    destruct (enter_normalize dir c Hdir) as [<- Hnext]. now apply IH.
Qed.

Lemma walk_segments p st dir :
  walk st [] (components p) = Ok dir -> rev dir = Path.segments p.
Proof.
  intros H. apply walk_normalize in H as [-> _]; [reflexivity|constructor].
Qed.

(** What a path leads to is what its segments lead to. *)
Lemma lookup_segments p st n :
  lookup p st = Ok n -> p <> "" /\ lookup_node (Path.segments p) (Dir st) = Ok n.
Proof.
  unfold lookup. destruct (String.eqb p "") eqn:Hp; [discriminate|].
  apply String.eqb_neq in Hp.
  destruct (walk st [] (components p)) as [dir|e] eqn:Hw; [|discriminate].
  apply walk_segments in Hw. unfold node_at. rewrite Hw. auto.
Qed.

(** Walking in a tree that has the directories of another. *)
Lemma walk_keeps_dirs st st' comps : forall dir dir',
  keeps_dirs st st' -> walk st dir comps = Ok dir' -> walk st' dir comps = Ok dir'.
Proof.
  induction comps as [|c comps IH]; intros dir dir' Hk; simpl; [auto|].
  destruct (node_at dir st) as [[f|entries|]|e] eqn:E; try discriminate.
  destruct (Hk _ _ E) as [d' Hd']. unfold node_at. rewrite Hd'. now apply IH.
Qed.

(** Slashes at the end of a path *)

Lemma without_slashes_spec rcomps :
  exists k,
    rcomps = repeat "" k ++ without_slashes rcomps
    /\ (k = 0 <-> ends_with_slash rcomps = false \/ rcomps = [])
    /\ match without_slashes rcomps with
       | c :: _ => String.eqb c "" = false
       | [] => True
       end.
Proof.
  induction rcomps as [|c rcomps (k & Hk & _ & Hhead)]; simpl.
  - exists 0. repeat split; auto.
  - destruct (String.eqb c "") eqn:E.
    + apply String.eqb_eq in E; subst c. exists (S k). simpl.
      split; [now rewrite <- Hk|]. split; [|exact Hhead].
      split; [discriminate|]. intros [H|H]; discriminate.
    + exists 0. repeat split; auto.
Qed.

Lemma walk_slashes st dir d k :
  node_at dir st = Ok (Dir d) -> walk st dir (repeat "" k) = Ok dir.
Proof.
  intros H. induction k as [|k IH]; [reflexivity|].
  simpl. now rewrite H.
Qed.

Lemma walk_one st dir c :
  walk st dir [c]
  = match node_at dir st with
    | Ok (Dir _) => Ok (enter dir c)
    | Ok _ => Err (SystemError ENOTDIR)
    | Err e => Err e
    end.
Proof. simpl. now destruct (node_at dir st) as [[f|entries|]|e]. Qed.

Lemma components_split p :
  exists k,
    components p
    = rev (without_slashes (rev (components p))) ++ repeat "" k
    /\ (k = 0 <-> ends_with_slash (rev (components p)) = false \/ components p = []).
Proof.
  destruct (without_slashes_spec (rev (components p))) as (k & Hk & Hz & _).
  exists k. split.
  - rewrite <- (rev_involutive (components p)) at 1. rewrite Hk at 1.
    rewrite rev_app_distr. f_equal.
    clear. induction k as [|k IH]; [reflexivity|].
    simpl. rewrite IH. clear. induction k as [|k IH]; [reflexivity|].
    simpl. now rewrite <- IH.
  - rewrite Hz. split; intros [H|H]; auto; right.
    + apply (f_equal (@rev string)) in H. now rewrite rev_involutive in H.
    + now rewrite H.
Qed.

(** Walking to the end of a path that ends in slashes: what is before
    the slashes has to be a directory. *)
Lemma walk_then_slashes st dir k :
  match walk st dir (repeat "" k) with
  | Ok dir' => node_at dir' st
  | Err e => Err e
  end
  = match k with
    | 0 => node_at dir st
    | S _ =>
        match node_at dir st with
        | Ok (Dir d) => Ok (Dir d)
        | Ok _ => Err (SystemError ENOTDIR)
        | Err e => Err e
        end
    end.
Proof.
  destruct k as [|k]; [reflexivity|].
  destruct (node_at dir st) as [[f|d|]|e] eqn:E.
  - simpl. now rewrite E.
  - rewrite (walk_slashes st dir d (S k) E). exact E.
  - simpl. now rewrite E.
  - simpl. now rewrite E.
Qed.

(** What a path leads to, by what its end names. *)
Lemma lookup_locate p st :
  lookup p st = match locate p st with Ok pl => found pl st | Err e => Err e end.
Proof.
  unfold lookup, locate. destruct (String.eqb p ""); [reflexivity|].
  destruct (components_split p) as (k & Hsplit & Hk).
  destruct (without_slashes_spec (rev (components p))) as (_ & _ & _ & Hhead).
  rewrite Hsplit at 1.
  destruct (without_slashes (rev (components p))) as [|last before] eqn:Hw.
  - simpl. rewrite walk_then_slashes. unfold node_at. simpl. now destruct k.
  - cbn [rev]. rewrite <- app_assoc, !walk_app.
    destruct (walk st [] (rev before)) as [dir|e]; [|reflexivity].
    rewrite walk_app, walk_one.
    destruct (node_at dir st) as [[f|d|]|e] eqn:E; try reflexivity.
    assert (Hslash : ends_with_slash (rev (components p)) = match k with 0 => false | _ => true end).
    { destruct k as [|k].
      - destruct (proj1 Hk eq_refl) as [H|H]; [exact H|].
        rewrite H in Hw. discriminate.
      - destruct (ends_with_slash (rev (components p))) eqn:Hs; [reflexivity|].
        assert (S k = 0) by (apply Hk; now left). discriminate. }
    rewrite Hslash. rewrite walk_then_slashes. unfold enter, stays. rewrite Hhead. simpl.
    destruct (String.eqb last ".") eqn:Hdot; simpl.
    + rewrite E. now destruct k.
    + destruct (String.eqb last "..") eqn:Hdd; simpl.
      * destruct (node_at_tl dir st d E) as [d' Hd']. rewrite Hd'. now destruct k.
      * now destruct k.
Qed.

(** The entry a path names is the one its segments name. *)
Lemma locate_segments p st dir name slash :
  locate p st = Ok (Entry dir name slash) -> Path.segments p = rev (name :: dir).
Proof.
  unfold locate. destruct (String.eqb p ""); [discriminate|].
  destruct (components_split p) as (k & Hsplit & _).
  destruct (without_slashes_spec (rev (components p))) as (_ & _ & _ & Hhead).
  destruct (without_slashes (rev (components p))) as [|last before]; [discriminate|].
  destruct (walk st [] (rev before)) as [dir0|e] eqn:Hwalk; [|discriminate].
  destruct (node_at dir0 st) as [[f|d|]|e]; try discriminate.
  destruct (String.eqb last ".") eqn:Hdot; [discriminate|].
  destruct (String.eqb last "..") eqn:Hdd; [discriminate|].
  intros H; inversion H; subst dir0 name. clear H.
  apply walk_normalize in Hwalk as [Hdir _]; [|constructor].
  unfold Path.segments, Path.normalizeString. fold (components p).
  rewrite Hsplit. cbn [rev]. rewrite <- app_assoc, !fold_left_app, <- Hdir.
  f_equal. cbn [fold_left app]. unfold Path.normalize_step at 2.
  rewrite Hhead, Hdot, Hdd. simpl.
  clear. induction k as [|k IH]; [reflexivity|]. exact IH.
Qed.

Lemma locate_parent p st dir name slash :
  locate p st = Ok (Entry dir name slash) -> exists d, node_at dir st = Ok (Dir d).
Proof.
  unfold locate. destruct (String.eqb p ""); [discriminate|].
  destruct (without_slashes (rev (components p))) as [|last before]; [discriminate|].
  destruct (walk st [] (rev before)) as [dir0|e]; [|discriminate].
  destruct (node_at dir0 st) as [[f|d|]|e] eqn:E; try discriminate.
  destruct (String.eqb last "."); [discriminate|].
  destruct (String.eqb last ".."); [discriminate|].
  intros H; inversion H; subst. eauto.
Qed.

(** In a tree that has the directories of another a path names the
    same place. *)
Lemma locate_keeps_dirs p st st' pl :
  keeps_dirs st st' -> locate p st = Ok pl -> locate p st' = Ok pl.
Proof.
  intros Hk. unfold locate. destruct (String.eqb p ""); [discriminate|].
  destruct (without_slashes (rev (components p))) as [|last before]; [auto|].
  destruct (walk st [] (rev before)) as [dir0|e] eqn:Hwalk; [|discriminate].
  rewrite (walk_keeps_dirs st st' _ _ _ Hk Hwalk).
  destruct (node_at dir0 st) as [[f|d|]|e] eqn:E; try discriminate.
  destruct (Hk _ _ E) as [d' Hd']. unfold node_at. now rewrite Hd'.
Qed.

(** A path that leads to something that is not a directory names an
    entry, and no slash follows the name. *)
Lemma lookup_file p st n :
  lookup p st = Ok n -> is_dir n = false ->
  exists dir name,
    locate p st = Ok (Entry dir name false) /\ node_at (name :: dir) st = Ok n.
Proof.
  rewrite lookup_locate. destruct (locate p st) as [[|dir|dir|dir name [|]]|e] eqn:Hl;
    simpl; try discriminate.
  - intros H; inversion H; subst. discriminate.
  - intros H Hn.
    assert (Hd : exists d, node_at dir st = Ok (Dir d)).
    { revert Hl. unfold locate. destruct (String.eqb p ""); [discriminate|].
      destruct (without_slashes (rev (components p))) as [|last before]; [discriminate|].
      destruct (walk st [] (rev before)) as [dir0|e0]; [|discriminate].
      destruct (node_at dir0 st) as [[f|d|]|e0] eqn:E; try discriminate.
      destruct (String.eqb last "."); [|destruct (String.eqb last "..")];
        intros Hpl; inversion Hpl; subst; eauto. }
    destruct Hd as [d Hd]. rewrite Hd in H. inversion H; subst. discriminate.
  - intros H Hn.
    assert (Hd : exists d, node_at dir st = Ok (Dir d)).
    { revert Hl. unfold locate. destruct (String.eqb p ""); [discriminate|].
      destruct (without_slashes (rev (components p))) as [|last before]; [discriminate|].
      destruct (walk st [] (rev before)) as [dir0|e0]; [|discriminate].
      destruct (node_at dir0 st) as [[f|d|]|e0] eqn:E; try discriminate.
      destruct (String.eqb last "."); [|destruct (String.eqb last "..")];
        intros Hpl; inversion Hpl; subst; eauto. }
    destruct Hd as [d Hd]. destruct (node_at_tl dir st d Hd) as [d' Hd'].
    rewrite Hd' in H. inversion H; subst. discriminate.
  - destruct (node_at (name :: dir) st) as [[f|d|]|e]; try discriminate.
    intros H; inversion H; subst. discriminate.
  - eauto.
Qed.

End WalkFacts.

Module ReadDirProofs.
Import Js Os FileSystemHelper Listing Examples.

Lemma fold_push {A} (xs acc : list A) :
  fold_left (fun found x => push found x) xs acc = acc ++ xs.
Proof.
  revert acc. induction xs as [|x xs IH]; intros acc; simpl.
  - now rewrite app_nil_r.
  - rewrite IH. unfold push. now rewrite <- app_assoc.
Qed.

Lemma push_children_app file found children :
  push_children file found children = found ++ map (prefixed file) children.
Proof.
  unfold push_children. revert found.
  induction children as [|c cs IH]; intros found; simpl.
  - now rewrite app_nil_r.
  - rewrite IH. unfold push. now rewrite <- app_assoc.
Qed.

Lemma filter_extensions_spec E files :
  filter_extensions E files = extension_filter E files.
Proof.
  destruct E as [exts|]; simpl; [|reflexivity].
  apply List.filter_ext. intros d. unfold accepted, has_extension.
  destruct (isFile d); simpl; [|reflexivity].
  now rewrite negb_involutive.
Qed.

Lemma filter_only_spec onlyF onlyD l :
  filter_only onlyF onlyD l = only onlyF onlyD l.
Proof.
  unfold filter_only, only.
  destruct onlyF, onlyD; simpl.
  - induction l as [|d l IH]; simpl; [reflexivity|].
    destruct (isFile d); simpl; [|exact IH].
    destruct (isDirectory d); simpl; now rewrite IH.
  - apply List.filter_ext. intros d. now rewrite andb_true_r.
  - reflexivity.
  - induction l as [|d l IH]; simpl; [reflexivity|]. now rewrite <- IH.
Qed.

Lemma filter_only_off l : filter_only false false l = l.
Proof. reflexivity. Qed.

Section Loops.
Context (O : api) (rootPath : option string) (st : St O).

(** The loop of [readDirSync], once the listing of every directory
    entry is known. *)
Lemma sync_loop (child : Dirent -> result (list Dirent)) files acc :
  fold_left
    (fun loop file =>
       bind loop (fun foundFiles =>
       if isDirectory file then
         bind (throwing (child file))
           (fun childrenFiles =>
              Returned (push_children file foundFiles childrenFiles))
       else Returned (push foundFiles file)))
    files (Returned acc)
  = throwing
      (result_map (app acc)
         (splice
            (map (fun entry =>
                    if isDirectory entry then
                      result_map (map (prefixed entry)) (child entry)
                    else Ok [entry])
               files))).
Proof.
  revert acc. induction files as [|f files IH]; intros acc; simpl.
  - now rewrite app_nil_r.
  - destruct (isDirectory f).
    + destruct (child f) as [cs|e]; simpl.
      * rewrite IH, push_children_app.
        destruct (splice _) as [tail|e]; simpl; [|reflexivity].
        now rewrite app_assoc.
      * clear IH. induction files as [|g files IH]; simpl; auto.
    + simpl. rewrite IH. unfold push.
      destruct (splice _) as [tail|e]; simpl; [|reflexivity].
      now rewrite <- app_assoc.
Qed.

Lemma async_loop_stopped (k : list Dirent -> Dirent -> option (list Dirent)) files :
  fold_left
    (fun loop file =>
       match loop with None => None | Some foundFiles => k foundFiles file end)
    files None = None.
Proof. induction files; simpl; auto. Qed.

(** The loop of [readDir]: a child listing that fails stops the
    callback. *)
Lemma async_loop (child : Dirent -> result (list Dirent)) files acc :
  fold_left
    (fun loop file =>
       match loop with
       | None => None
       | Some foundFiles =>
           if isDirectory file then
             await (match child file with
                    | Ok l => Resolved l
                    | Err e => Rejected e
                    end)
               (fun childrenFiles =>
                  Some (push_children file foundFiles childrenFiles))
           else Some (push foundFiles file)
       end)
    files (Some acc)
  = match
      splice
        (map (fun entry =>
                if isDirectory entry then
                  result_map (map (prefixed entry)) (child entry)
                else Ok [entry])
           files)
    with
    | Ok tail => Some (acc ++ tail)
    | Err _ => None
    end.
Proof.
  revert acc. induction files as [|f files IH]; intros acc; simpl.
  - now rewrite app_nil_r.
  - destruct (isDirectory f).
    + destruct (child f) as [cs|e]; simpl.
      * rewrite IH, push_children_app.
        destruct (splice _) as [tail|e]; simpl; [|reflexivity].
        now rewrite app_assoc.
      * apply async_loop_stopped.
    + rewrite IH. unfold push.
      destruct (splice _) as [tail|e]; simpl; [|reflexivity].
      now rewrite <- app_assoc.
Qed.

Lemma fold_left_pointwise {A B} (f g : A -> B -> A) l a :
  (forall a b, f a b = g a b) -> fold_left f l a = fold_left g l a.
Proof.
  intros Hfg. revert a. induction l as [|b l IH]; intros a; simpl; [reflexivity|].
  now rewrite Hfg, IH.
Qed.

Lemma only_off l : only false false l = l.
Proof.
  unfold only. induction l as [|d l IH]; simpl; [reflexivity|].
  f_equal. exact IH.
Qed.

Lemma result_map_only_off (r : result (list Dirent)) :
  result_map (only false false) r = r.
Proof. destruct r; simpl; [now rewrite only_off|reflexivity]. Qed.

Lemma readDirSync_levels_listing n : forall dirPath E onlyF onlyD,
  readDirSync_levels O rootPath n dirPath E onlyF onlyD st
  = throwing (result_map (only onlyF onlyD) (listing O rootPath n dirPath E st)).
Proof.
  induction n as [|n IH]; intros dirPath E onlyF onlyD; simpl;
    destruct (fs_readdir O _ st) as [files|e]; simpl; try reflexivity.
  - now rewrite filter_only_spec, filter_extensions_spec.
  - rewrite filter_extensions_spec.
    erewrite fold_left_pointwise.
    2:{ intros loop file. rewrite IH, result_map_only_off. reflexivity. }
    rewrite (sync_loop
               (fun file => listing O rootPath n (Path.join [dirPath; name file]) E st)).
    destruct (splice _) as [tail|e]; simpl; [|reflexivity].
    now rewrite filter_only_spec.
Qed.

(** [readDir] resolves with the listing, rejects when the directory
    itself cannot be listed, and stays pending when a directory
    below it cannot. *)
Lemma readDir_levels_listing n : forall dirPath E onlyF onlyD,
  readDir_levels O rootPath n dirPath E onlyF onlyD st
  = match fs_readdir O (resolvePath rootPath (PStr dirPath)) st with
    | Err e => Rejected e
    | Ok _ =>
        match listing O rootPath n dirPath E st with
        | Ok l => Resolved (only onlyF onlyD l)
        | Err _ => Pending
        end
    end.
Proof.
  induction n as [|n IH]; intros dirPath E onlyF onlyD; simpl;
    destruct (fs_readdir O _ st) as [files|e]; simpl; try reflexivity.
  - now rewrite filter_only_spec, filter_extensions_spec.
  - rewrite filter_extensions_spec.
    set (child := fun file : Dirent =>
                    listing O rootPath n (Path.join [dirPath; name file]) E st).
    rewrite (fold_left_pointwise _
               (fun loop file =>
                  match loop with
                  | None => None
                  | Some foundFiles =>
                      if isDirectory file then
                        await (match child file with
                               | Ok l => Resolved l
                               | Err e => Rejected e
                               end)
                          (fun childrenFiles =>
                             Some (push_children file foundFiles childrenFiles))
                      else Some (push foundFiles file)
                  end)).
    2:{ intros [foundFiles|] file; [|reflexivity].
        destruct (isDirectory file); [|reflexivity].
        rewrite IH. unfold child.
        destruct n; simpl; destruct (fs_readdir O _ st); simpl; try reflexivity.
        - now rewrite only_off.
        - destruct (splice _); simpl; [now rewrite only_off|reflexivity]. }
    rewrite (async_loop child).
    destruct (splice _) as [tail|e]; simpl; [|reflexivity].
    now rewrite filter_only_spec.
Qed.
End Loops.

(** C1, as amended: for every state of the file system, extension set
    and depth [S n], whenever the listing of 4.2 exists -- regular
    files without an accepted extension removed, every remaining
    directory replaced by its listing at depth [n] under prefixed
    names, other entries unchanged -- [readDir] resolves with it and
    [readDirSync] returns it, [onlyFiles] and [onlyDirs] applied last;
    and the directory of the example lists as [a.txt] and
    [sub/c.txt]. *)
Theorem readDir_is_the_filtered_expanded_listing :
  (forall (O : api) (rootPath : option string) (st : St O) (dirPath : string)
          (E : option (list string)) (n : nat) (onlyF onlyD : bool)
          (l : list Dirent),
      listing O rootPath (S n) dirPath E st = Ok l ->
      let options := mkReadDirOptions E (Some (S n)) onlyF onlyD in
      readDir O rootPath dirPath options st = Resolved (only onlyF onlyD l)
      /\ readDirSync O rootPath dirPath options st = Returned (only onlyF onlyD l))
  /\ readDir TreeFs.treefs None "." txt_one_level example_tree
     = Resolved [mkDirent "a.txt" KFile; mkDirent "sub/c.txt" KFile]
  /\ readDirSync TreeFs.treefs None "." txt_one_level example_tree
     = Returned [mkDirent "a.txt" KFile; mkDirent "sub/c.txt" KFile].
Proof.
  split; [|split; reflexivity].
  intros O rootPath st dirPath E n onlyF onlyD l Hl options.
  unfold readDir, readDirSync, levels_of, options; cbn [recursiveLevels
    acceptExtensions onlyFiles onlyDirs].
  rewrite readDir_levels_listing, readDirSync_levels_listing, Hl.
  split; [|reflexivity].
  destruct (fs_readdir O (resolvePath rootPath (PStr dirPath)) st) eqn:Hroot;
    [reflexivity|].
  simpl in Hl. rewrite Hroot in Hl. discriminate.
Qed.

Lemma readDir_is_the_filtered_expanded_listing_witness :
  readDir TreeFs.treefs (Some "sub") "."
    (mkReadDirOptions (Some ["txt"]) (Some 2) true false) example_tree
  = Resolved [mkDirent "c.txt" KFile].
Proof.
  apply (proj1 readDir_is_the_filtered_expanded_listing TreeFs.treefs (Some "sub")
           example_tree "." (Some ["txt"]) 1 true false [mkDirent "c.txt" KFile]).
  reflexivity.
Defined.

(** C1, as stated, fails: an entry that is neither a regular file nor
    a directory is a non-directory entry whose name has no accepted
    extension, and [readDir] and [readDirSync] keep it, where the
    listing that removes non-directory entries has nothing. *)
Lemma readDir_keeps_other_entries :
  readDirSync TreeFs.treefs None "." txt_one_level socket_tree
  = Returned [mkDirent "run.sock" KOther]
  /\ readDir TreeFs.treefs None "." txt_one_level socket_tree
     = Resolved [mkDirent "run.sock" KOther]
  /\ isDirectory (mkDirent "run.sock" KOther) = false
  /\ has_extension ["txt"] (mkDirent "run.sock" KOther) = false
  /\ listing_non_directories TreeFs.treefs None 1 "." (Some ["txt"]) socket_tree = Ok [].
Proof. repeat split; reflexivity. Qed.

End ReadDirProofs.

Module TreeFsFacts.
Import Js Os FileSystemHelper TreeFs Examples More.

Lemma find_set_entry s c entries : find_entry s (set_entry s c entries) = Some c.
Proof.
  induction entries as [|[s' c'] entries IH]; simpl.
  - now rewrite String.eqb_refl.
  - destruct (String.eqb s s') eqn:E; simpl; rewrite E; [reflexivity|exact IH].
Qed.

Lemma set_entry_same s c entries :
  find_entry s entries = Some c -> set_entry s c entries = entries.
Proof.
  induction entries as [|[s' c'] entries IH]; simpl; [discriminate|].
  destruct (String.eqb s s'); intros H.
  - now inversion H.
  - now rewrite IH.
Qed.

Lemma find_entry_set_other t s c entries :
  String.eqb t s = false -> find_entry t (set_entry s c entries) = find_entry t entries.
Proof.
  intros Hts. induction entries as [|[s' c'] entries IH]; simpl.
  - now rewrite Hts.
  - destruct (String.eqb s s') eqn:E; simpl.
    + apply String.eqb_eq in E; subst. now rewrite Hts.
    + now rewrite IH.
Qed.

Lemma find_entry_remove_other t s entries :
  String.eqb t s = false -> find_entry t (remove_entry s entries) = find_entry t entries.
Proof.
  intros Hts. induction entries as [|[s' c'] entries IH]; simpl; [reflexivity|].
  destruct (String.eqb s s') eqn:E; simpl.
  - apply String.eqb_eq in E; subst. now rewrite Hts.
  - now rewrite IH.
Qed.

Lemma set_entry_twice s c c' entries :
  set_entry s c (set_entry s c' entries) = set_entry s c entries.
Proof.
  induction entries as [|[s' c''] entries IH]; simpl.
  - now rewrite String.eqb_refl.
  - destruct (String.eqb s s') eqn:E; simpl; rewrite E; [reflexivity|now rewrite IH].
Qed.

Lemma remove_set_new s c entries :
  find_entry s entries = None -> remove_entry s (set_entry s c entries) = entries.
Proof.
  induction entries as [|[s' c'] entries IH]; simpl.
  - now rewrite String.eqb_refl.
  - destruct (String.eqb s s') eqn:E; [discriminate|]. simpl. rewrite E.
    intros H. now rewrite IH.
Qed.

(** After a successful change the path leads to the entry [f] answered
    with. *)
Lemma lookup_change f rest : forall s entries entries',
  change s rest f entries = Ok entries' ->
  exists old, match f old with
              | Ok (Some child) => lookup_node (s :: rest) (Dir entries') = Ok child
              | Ok None => True
              | Err _ => False
              end.
Proof.
  induction rest as [|s' rest IH]; intros s entries entries'; simpl.
  - intros H. exists (find_entry s entries).
    destruct (f (find_entry s entries)) as [[child|]|e]; try discriminate; auto.
    inversion H; subst. now rewrite find_set_entry.
  - destruct (find_entry s entries) as [[c|below|]|]; try discriminate.
    destruct (change s' rest f below) as [below'|e] eqn:E; try discriminate.
    intros H; inversion H; subst. rewrite find_set_entry.
    apply IH in E. exact E.
Qed.

(** Writing with the default flag: the file holds the data. *)
Lemma lookup_written data rest : forall s entries entries',
  change s rest (write_entry data (mkWriteOptions None)) entries = Ok entries' ->
  lookup_node (s :: rest) (Dir entries') = Ok (File data).
Proof.
  intros s entries entries' H. apply lookup_change in H as [old H].
  destruct old as [[c|es|]|]; simpl in H; try contradiction; exact H.
Qed.

(** A path that is missing below an existing directory. *)
Lemma change_creates f child rest : forall s entries,
  f None = Ok (Some child) ->
  lookup_node (s :: rest) (Dir entries) = Err (SystemError ENOENT) ->
  (exists es, lookup_node (parent (s :: rest)) (Dir entries) = Ok (Dir es)) ->
  exists entries',
    change s rest f entries = Ok entries'
    /\ lookup_node (s :: rest) (Dir entries') = Ok child.
Proof.
  intros s entries Hf. revert s entries.
  induction rest as [|s' rest IH]; intros s entries Hmiss [es Hpar].
  - simpl in *. destruct (find_entry s entries) as [c|] eqn:E.
    + discriminate.
    + rewrite Hf. eexists; split; [reflexivity|]. simpl. now rewrite find_set_entry.
  - change (parent (s :: s' :: rest)) with (s :: parent (s' :: rest)) in Hpar.
    cbn [lookup_node] in Hmiss, Hpar. cbn [change].
    destruct (find_entry s entries) as [[c|below|]|] eqn:E; try discriminate.
    destruct (IH s' below Hmiss (ex_intro _ es Hpar)) as (below' & Hc & Hl).
    rewrite Hc. eexists; split; [reflexivity|].
    cbn [lookup_node]. rewrite find_set_entry. exact Hl.
Qed.

(** Changing an entry into itself changes nothing. *)
Lemma change_same f rest : forall s entries old,
  lookup_node (s :: rest) (Dir entries) = Ok old ->
  f (Some old) = Ok (Some old) ->
  change s rest f entries = Ok entries.
Proof.
  induction rest as [|s' rest IH]; intros s entries old; simpl.
  - destruct (find_entry s entries) as [c|] eqn:E; try discriminate.
    intros H Hf; inversion H; subst. rewrite Hf. now rewrite set_entry_same.
  - destruct (find_entry s entries) as [[c|below|]|] eqn:E; try discriminate.
    intros H Hf. rewrite (IH s' below old H Hf). now rewrite set_entry_same.
Qed.

(** Changing an entry that exists. *)
Lemma change_replaces f old new rest : forall s entries,
  lookup_node (s :: rest) (Dir entries) = Ok old ->
  f (Some old) = Ok (Some new) ->
  exists entries',
    change s rest f entries = Ok entries'
    /\ lookup_node (s :: rest) (Dir entries') = Ok new.
Proof.
  induction rest as [|s' rest IH]; intros s entries; simpl.
  - destruct (find_entry s entries) as [c|] eqn:E; [|discriminate].
    intros H Hf; inversion H; subst. rewrite Hf.
    eexists; split; [reflexivity|]. simpl. now rewrite find_set_entry.
  - destruct (find_entry s entries) as [[c|below|]|] eqn:E; try discriminate.
    intros H Hf. destruct (IH s' below H Hf) as (below' & Hc & Hl).
    rewrite Hc. eexists; split; [reflexivity|].
    simpl. rewrite find_set_entry. exact Hl.
Qed.

(** Creating an entry with [f] and removing it again with [g]. *)
Lemma change_undo f g child rest : forall s entries entries',
  f None = Ok (Some child) ->
  g (Some child) = Ok None ->
  lookup_node (s :: rest) (Dir entries) = Err (SystemError ENOENT) ->
  change s rest f entries = Ok entries' ->
  change s rest g entries' = Ok entries.
Proof.
  intros s entries entries' Hf Hg. revert s entries entries'.
  induction rest as [|s' rest IH]; intros s entries entries'; simpl.
  - destruct (find_entry s entries) as [c|] eqn:E; [discriminate|].
    intros _. rewrite Hf. intros H; inversion H; subst.
    rewrite find_set_entry, Hg. now rewrite remove_set_new.
  - destruct (find_entry s entries) as [[c|below|]|] eqn:E; try discriminate.
    intros Hmiss. destruct (change s' rest f below) as [below'|e] eqn:Hc; [|discriminate].
    intros H; inversion H; subst. rewrite find_set_entry.
    rewrite (IH s' below below' Hmiss Hc).
    now rewrite set_entry_twice, set_entry_same.
Qed.

(** An entry that refuses the change. *)
Lemma change_refused f old e rest : forall s entries,
  lookup_node (s :: rest) (Dir entries) = Ok old ->
  f (Some old) = Err e ->
  change s rest f entries = Err e.
Proof.
  induction rest as [|s' rest IH]; intros s entries; simpl.
  - destruct (find_entry s entries) as [c|]; [|discriminate].
    intros H Hf; inversion H; subst. now rewrite Hf.
  - destruct (find_entry s entries) as [[c|below|]|]; try discriminate.
    intros H Hf. now rewrite (IH s' below H Hf).
Qed.

Lemma write_entry_file data options old r :
  write_entry data options old = Ok r -> exists content, r = Some (File content).
Proof.
  destruct old as [[c|d|]|]; simpl; try discriminate.
  - destruct (wflag options) as [[|]|]; intros H; inversion H; eauto.
  - intros H; inversion H; eauto.
Qed.

(** Writing one file leaves every other regular file alone. *)
Lemma write_keeps_other_files data options rest : forall s entries entries' q content,
  change s rest (write_entry data options) entries = Ok entries' ->
  q <> s :: rest ->
  lookup_node q (Dir entries) = Ok (File content) ->
  lookup_node q (Dir entries') = Ok (File content).
Proof.
  induction rest as [|s' rest IH]; intros s entries entries' q content Hc Hq Hl.
  - simpl in Hc. destruct q as [|t q]; [discriminate|]. simpl in Hl |- *.
    destruct (String.eqb t s) eqn:Ets.
    + apply String.eqb_eq in Ets; subst t.
      destruct (find_entry s entries) as [[c|d|]|] eqn:E; try discriminate;
        destruct q as [|t' q]; try congruence; try discriminate.
    + assert (Hfind : find_entry t entries' = find_entry t entries).
      { destruct (write_entry data options (find_entry s entries)) as [r|e] eqn:W;
          [|discriminate].
        destruct (write_entry_file _ _ _ _ W) as (c & ->).
        inversion Hc; subst. now apply find_entry_set_other. }
      now rewrite Hfind.
  - simpl in Hc.
    destruct (find_entry s entries) as [[c|below|]|] eqn:E; try discriminate.
    destruct (change s' rest _ below) as [below'|e] eqn:Hb; [|discriminate].
    inversion Hc; subst. destruct q as [|t q]; [discriminate|]. simpl in Hl |- *.
    destruct (String.eqb t s) eqn:Ets.
    + apply String.eqb_eq in Ets; subst t. rewrite find_set_entry.
      rewrite E in Hl. eapply IH; eauto. congruence.
    + now rewrite find_entry_set_other.
Qed.

(** A change that leaves directories alone leaves every directory of
    the tree a directory. *)
Lemma change_keeps_dirs f rest : forall s entries entries',
  (forall d r, f (Some (Dir d)) <> Ok r) ->
  change s rest f entries = Ok entries' ->
  keeps_dirs entries entries'.
Proof.
  induction rest as [|s' rest IH]; intros s entries entries' Hf Hc q d Hq.
  - destruct q as [|t q]; [simpl; eauto|]. simpl in Hc, Hq |- *.
    destruct (String.eqb t s) eqn:Ets.
    + apply String.eqb_eq in Ets; subst t.
      destruct (find_entry s entries) as [[c|d0|]|] eqn:E; try discriminate.
      * destruct q; discriminate.
      * destruct (f (Some (Dir d0))) as [r|e] eqn:F; [|discriminate].
        now destruct (Hf d0 r).
      * destruct q; discriminate.
    + assert (Hfind : find_entry t entries' = find_entry t entries).
      { destruct (f (find_entry s entries)) as [[child|]|e]; inversion Hc; subst.
        - now apply find_entry_set_other.
        - now apply find_entry_remove_other. }
      rewrite Hfind. eauto.
  - destruct q as [|t q]; [simpl; eauto|]. simpl in Hc, Hq |- *.
    destruct (find_entry s entries) as [[c|below|]|] eqn:E; try discriminate.
    destruct (change s' rest f below) as [below'|e] eqn:Hb; [|discriminate].
    inversion Hc; subst.
    destruct (String.eqb t s) eqn:Ets.
    + apply String.eqb_eq in Ets; subst t. rewrite find_set_entry.
      rewrite E in Hq. exact (IH s' below below' Hf Hb q d Hq).
    + rewrite find_entry_set_other by exact Ets. eauto.
Qed.

(** A change that only creates leaves everything that is not a
    directory alone. *)
Lemma change_keeps_files f rest : forall s entries entries',
  (forall old r, f (Some old) <> Ok r) ->
  change s rest f entries = Ok entries' ->
  keeps_files entries entries'.
Proof.
  induction rest as [|s' rest IH]; intros s entries entries' Hf Hc q n Hq Hn.
  - destruct q as [|t q]; [simpl in Hq; inversion Hq; subst; discriminate|].
    simpl in Hc, Hq |- *.
    destruct (String.eqb t s) eqn:Ets.
    + apply String.eqb_eq in Ets; subst t.
      destruct (find_entry s entries) as [old|] eqn:E; [|discriminate].
      destruct (f (Some old)) as [r|e] eqn:F; [|discriminate].
      now destruct (Hf old r).
    + assert (Hfind : find_entry t entries' = find_entry t entries).
      { destruct (f (find_entry s entries)) as [[child|]|e]; inversion Hc; subst.
        - now apply find_entry_set_other.
        - now apply find_entry_remove_other. }
      now rewrite Hfind.
  - destruct q as [|t q]; [simpl in Hq; inversion Hq; subst; discriminate|].
    simpl in Hc, Hq |- *.
    destruct (find_entry s entries) as [[c|below|]|] eqn:E; try discriminate.
    destruct (change s' rest f below) as [below'|e] eqn:Hb; [|discriminate].
    inversion Hc; subst.
    destruct (String.eqb t s) eqn:Ets.
    + apply String.eqb_eq in Ets; subst t. rewrite find_set_entry.
      rewrite E in Hq. exact (IH s' below below' Hf Hb q n Hq Hn).
    + now rewrite find_entry_set_other.
Qed.

Lemma keeps_dirs_refl st : keeps_dirs st st.
Proof. intros q d H. eauto. Qed.

Lemma keeps_dirs_trans st1 st2 st3 :
  keeps_dirs st1 st2 -> keeps_dirs st2 st3 -> keeps_dirs st1 st3.
Proof. intros H12 H23 q d H. destruct (H12 q d H) as [d' H']. eauto. Qed.

Lemma keeps_files_refl st : keeps_files st st.
Proof. intros q n H _. exact H. Qed.

Lemma keeps_files_trans st1 st2 st3 :
  keeps_files st1 st2 -> keeps_files st2 st3 -> keeps_files st1 st3.
Proof. intros H12 H23 q n H Hn. apply H23; [|exact Hn]. now apply H12. Qed.

(** The entry of a place *)

Lemma entry_path dir name :
  exists s rest,
    rev (name :: dir) = s :: rest
    /\ parent (s :: rest) = rev dir
    /\ forall f st, change_entry dir name f st = change s rest f st.
Proof.
  destruct (rev (name :: dir)) as [|s rest] eqn:E.
  - apply (f_equal (@length string)) in E. simpl in E.
    rewrite length_app in E. simpl in E. lia.
  - exists s, rest. split; [reflexivity|]. split.
    + unfold parent. rewrite <- E. simpl. apply removelast_last.
    + intros f st. unfold change_entry. now rewrite E.
Qed.

(** What a path that names an entry leads to. *)
Lemma lookup_entry p st dir name :
  locate p st = Ok (Entry dir name false) ->
  lookup p st = lookup_node (rev (name :: dir)) (Dir st).
Proof. intros H. rewrite WalkFacts.lookup_locate, H. reflexivity. Qed.

(** A write that succeeds is a change of the entry the segments of
    the path name. *)
Lemma write_succeeds p data options st st' :
  tree_writeFile p data options st = (Ok tt, st') ->
  exists dir name s rest,
    locate p st = Ok (Entry dir name false)
    /\ rev (name :: dir) = s :: rest
    /\ Path.segments p = s :: rest
    /\ change s rest (write_entry data options) st = Ok st'
    /\ keeps_dirs st st'.
Proof.
  unfold tree_writeFile.
  destruct (locate p st) as [[|dir|dir|dir name [|]]|e] eqn:Hl; try discriminate.
  destruct (entry_path dir name) as (s & rest & Hrev & _ & Hc). rewrite Hc.
  destruct (change s rest _ st) as [st1|e] eqn:E; simpl; [|discriminate].
  intros H; inversion H; subst st1.
  exists dir, name, s, rest. repeat split; auto.
  - rewrite <- Hrev. eapply WalkFacts.locate_segments; eauto.
  - eapply change_keeps_dirs; [|exact E]. intros d r. simpl. discriminate.
Qed.

Lemma writeFile_then_readFile p data st st' :
  tree_writeFile p data no_options st = (Ok tt, st') ->
  tree_readFile p st' = Ok (Buffer_from data).
Proof.
  intros H. apply write_succeeds in H as (dir & name & s & rest & Hl & Hrev & _ & Hc & Hk).
  unfold tree_readFile.
  rewrite (lookup_entry p st' dir name (WalkFacts.locate_keeps_dirs _ _ _ _ Hk Hl)).
  rewrite Hrev. now rewrite (lookup_written _ _ _ _ _ Hc).
Qed.

(** [mkdir] with [recursive: true] *)

Lemma mkdir_creates dir name st st' :
  change_entry dir name mkdir_entry st = Ok st' ->
  keeps_dirs st st' /\ keeps_files st st' /\ node_at (name :: dir) st' = Ok (Dir []).
Proof.
  destruct (entry_path dir name) as (s & rest & Hrev & _ & Hc). rewrite Hc.
  intros H. split; [|split].
  - eapply change_keeps_dirs; [|exact H]. intros d r. discriminate.
  - eapply change_keeps_files; [|exact H]. intros old r. discriminate.
  - unfold node_at. rewrite Hrev. apply lookup_change in H as [old H].
    destruct old as [n|]; simpl in H; [contradiction|exact H].
Qed.

(** What [mkdirp] leaves: what was there, and when it succeeds, every
    directory the path walks through. *)
Lemma mkdirp_spec comps : forall dir st d,
  node_at dir st = Ok (Dir d) ->
  keeps_dirs st (snd (mkdirp comps dir st))
  /\ keeps_files st (snd (mkdirp comps dir st))
  /\ (fst (mkdirp comps dir st) = Ok tt ->
      exists dir' d',
        walk (snd (mkdirp comps dir st)) dir comps = Ok dir'
        /\ node_at dir' (snd (mkdirp comps dir st)) = Ok (Dir d')).
Proof.
  induction comps as [|c comps IH]; intros dir st d Hdir.
  - simpl. split; [apply keeps_dirs_refl|]. split; [apply keeps_files_refl|]. eauto.
  - cbn [mkdirp walk].
    assert (Hwalk : forall st',
               keeps_dirs st st' ->
               exists d', node_at dir st' = Ok (Dir d')).
    { intros st' Hk. exact (Hk _ _ Hdir). }
    destruct (stays c || String.eqb c "..") eqn:Hc.
    + assert (Hnext : exists d', node_at (enter dir c) st = Ok (Dir d')).
      { unfold enter. destruct (stays c); [eauto|].
        simpl in Hc. rewrite Hc. eapply WalkFacts.node_at_tl; eauto. }
      destruct Hnext as [d' Hd'].
      destruct (IH (enter dir c) st d' Hd') as (Hk & Hf & Hok).
      split; [exact Hk|]. split; [exact Hf|].
      intros Hres. destruct (Hwalk _ Hk) as [d0 Hd0]. rewrite Hd0. auto.
    + apply orb_false_iff in Hc as [Hstay Hdd].
      rewrite (WalkFacts.enter_name dir c Hstay Hdd).
      destruct (node_at (c :: dir) st) as [[f|d'|]|e] eqn:E.
      * simpl. split; [apply keeps_dirs_refl|]. split; [apply keeps_files_refl|].
        destruct comps; discriminate.
      * destruct (IH (c :: dir) st d' E) as (Hk & Hf & Hok).
        split; [exact Hk|]. split; [exact Hf|].
        intros Hres. destruct (Hwalk _ Hk) as [d0 Hd0]. rewrite Hd0. auto.
      * simpl. split; [apply keeps_dirs_refl|]. split; [apply keeps_files_refl|].
        destruct comps; discriminate.
      * destruct (change_entry dir c mkdir_entry st) as [st1|e1] eqn:Hmk.
        -- destruct (mkdir_creates dir c st st1 Hmk) as (Hk1 & Hf1 & Hnew).
           destruct (IH (c :: dir) st1 [] Hnew) as (Hk & Hf & Hok).
           split; [eapply keeps_dirs_trans; eauto|].
           split; [eapply keeps_files_trans; eauto|].
           intros Hres.
           destruct (Hwalk _ (keeps_dirs_trans _ _ _ Hk1 Hk)) as [d0 Hd0].
           rewrite Hd0. auto.
        -- simpl. split; [apply keeps_dirs_refl|]. split; [apply keeps_files_refl|].
           discriminate.
Qed.

(** [mkdirp] on a path that can be walked. *)
Lemma mkdirp_existing st comps : forall dir dir' d n,
  node_at dir st = Ok (Dir d) ->
  walk st dir comps = Ok dir' ->
  node_at dir' st = Ok n ->
  mkdirp comps dir st
  = (match n with Dir _ => Ok tt | _ => Err (SystemError EEXIST) end, st).
Proof.
  induction comps as [|c comps IH]; intros dir dir' d n Hdir; simpl.
  - intros H Hn; inversion H; subst. rewrite Hdir in Hn. now inversion Hn.
  - rewrite Hdir. intros Hw Hn.
    destruct (stays c || String.eqb c "..") eqn:Hc.
    + assert (Hnext : exists d', node_at (enter dir c) st = Ok (Dir d')).
      { unfold enter. destruct (stays c); [eauto|].
        simpl in Hc. rewrite Hc. eapply WalkFacts.node_at_tl; eauto. }
      destruct Hnext as [d' Hd']. eapply IH; eauto.
    + apply orb_false_iff in Hc as [Hstay Hdd].
      rewrite (WalkFacts.enter_name dir c Hstay Hdd) in Hw.
      destruct (node_at (c :: dir) st) as [[f|d'|]|e] eqn:E.
      * destruct comps as [|c' comps]; simpl in Hw.
        -- inversion Hw; subst. rewrite E in Hn. now inversion Hn.
        -- rewrite E in Hw. discriminate.
      * eapply IH; eauto.
      * destruct comps as [|c' comps]; simpl in Hw.
        -- inversion Hw; subst. rewrite E in Hn. now inversion Hn.
        -- rewrite E in Hw. discriminate.
      * destruct comps as [|c' comps]; simpl in Hw.
        -- inversion Hw; subst. rewrite E in Hn. discriminate.
        -- rewrite E in Hw. discriminate.
Qed.

Lemma mkdir_existing p st n :
  lookup p st = Ok n ->
  tree_mkdir p st = (match n with Dir _ => Ok tt | _ => Err (SystemError EEXIST) end, st).
Proof.
  unfold lookup, tree_mkdir. destruct (String.eqb p ""); [discriminate|].
  destruct (walk st [] (components p)) as [dir|e] eqn:Hw; [|discriminate].
  intros Hn. exact (mkdirp_existing st _ [] dir st n eq_refl Hw Hn).
Qed.

Lemma lookup_node_firstn segs : forall n d k,
  lookup_node segs n = Ok (Dir d) ->
  is_dir n = true ->
  exists d', lookup_node (firstn k segs) n = Ok (Dir d').
Proof.
  induction segs as [|s segs IH]; intros n d k H Hn.
  - rewrite firstn_nil. eauto.
  - destruct k as [|k]; [destruct n; try discriminate; simpl; eauto|].
    destruct n as [c|entries|]; try discriminate. cbn [firstn lookup_node] in H |- *.
    destruct (find_entry s entries) as [child|]; [|discriminate].
    eapply IH; eauto. destruct segs; simpl in H.
    + now inversion H.
    + now destruct child.
Qed.

(** After [mkdir] succeeded the path leads to a directory, and so
    does every part of it. *)
Lemma mkdir_succeeds p st st' :
  tree_mkdir p st = (Ok tt, st') ->
  p <> ""
  /\ keeps_dirs st st'
  /\ (exists d, lookup p st' = Ok (Dir d))
  /\ forall k, exists d, lookup_node (firstn k (Path.segments p)) (Dir st') = Ok (Dir d).
Proof.
  unfold tree_mkdir, lookup. destruct (String.eqb p "") eqn:Hp; [discriminate|].
  intros H. destruct (mkdirp_spec (components p) [] st st eq_refl) as (Hk & _ & Hok).
  rewrite H in Hk, Hok. simpl in Hk, Hok.
  destruct (Hok eq_refl) as (dir' & d' & Hw & Hd').
  split; [now apply String.eqb_neq|]. split; [exact Hk|].
  rewrite Hw. split; [eauto|].
  intros k. apply WalkFacts.walk_segments in Hw. rewrite <- Hw.
  eapply lookup_node_firstn; eauto.
Qed.

Lemma write_then_read_with_codec
    {value : Type} (J : json value) (rootPath : option string)
    (P : string) (V W : value) (st st' : tree) :
  JSON_parse J (JSON_stringify J V) = Ok W ->
  writeJSONFile treefs J rootPath P V st = (Resolved tt, st') ->
  readJSONFile treefs J rootPath P st' = Resolved W.
Proof.
  intros Hcodec Hwrite.
  unfold writeJSONFile, writeFile in Hwrite. cbn [fs_writeFile treefs] in Hwrite.
  destruct (tree_writeFile _ _ _ st) as [[[]|e] st1] eqn:E; simpl in Hwrite;
    inversion Hwrite; subst.
  unfold readJSONFile, readFile. cbn [fs_readFile treefs].
  rewrite (writeFile_then_readFile _ _ _ _ E). simpl.
  unfold toString, Buffer_from; simpl. now rewrite Hcodec.
Qed.

(** C2, as amended: for every path and every value [V] of the
    interchange format -- objects, arrays, strings, booleans, null
    and numbers, which are the finite doubles -- when [writeJSONFile]
    resolves, [readJSONFile] on the resulting file system resolves
    with [V] without the signs of its zeros: [JSON.stringify] writes
    [-0] as [0].  What comes back is [V] itself when no number of [V]
    is [-0], and is equal to [V] for [===] on the numbers
    ([JsonProofs.unsigned_deep_equal]). *)
Theorem writeJSONFile_then_readJSONFile
    (rootPath : option string) (P : string) (V : Json.value) (st st' : tree) :
  Json.is_json V = true ->
  writeJSONFile treefs Json.runtime rootPath P V st = (Resolved tt, st') ->
  readJSONFile treefs Json.runtime rootPath P st' = Resolved (Json.unsigned V).
Proof.
  intros Hjson. apply write_then_read_with_codec.
  now apply JsonProofs.parse_stringify.
Qed.

Lemma writeJSONFile_then_readJSONFile_witness :
  readJSONFile treefs Json.runtime (Some "sub") "value.json"
    (snd (writeJSONFile treefs Json.runtime (Some "sub") "value.json"
            numbers_value example_tree))
  = Resolved (Json.unsigned numbers_value).
Proof.
  apply (writeJSONFile_then_readJSONFile (Some "sub") "value.json"
           numbers_value example_tree).
  - vm_compute. reflexivity.
  - vm_compute. reflexivity.
Defined.

(** C2 as stated does not hold for a value that holds [-0], which the
    interchange format has a text for: [writeJSONFile] of [[-0]]
    leaves the text [[0]] in the file, and [readJSONFile] resolves
    with [[0]]; [Object.is] tells [0] from [-0]. *)
Theorem negative_zero_reads_back_as_zero :
  let V := Json.JArray [Json.JNumber (JsNumber.Zero true)] in
  let W := Json.JArray [Json.JNumber (JsNumber.Zero false)] in
  Json.is_json V = true
  /\ Json.parse "[-0]" = Ok V
  /\ exists st',
       writeJSONFile treefs Json.runtime None "zero.json" V example_tree
       = (Resolved tt, st')
       /\ readTXTFile treefs None "zero.json" st' = Resolved "[0]"
       /\ readJSONFile treefs Json.runtime None "zero.json" st' = Resolved W
       /\ W <> V
       /\ JsNumber.eqb (JsNumber.Zero false) (JsNumber.Zero true) = false.
Proof.
  cbv zeta. split; [reflexivity|]. split; [vm_compute; reflexivity|].
  eexists. split; [vm_compute; reflexivity|].
  split; [vm_compute; reflexivity|]. split; [vm_compute; reflexivity|].
  split; [discriminate|reflexivity].
Qed.

Lemma touch_new_file p st :
  lookup p st = Err (SystemError ENOENT) ->
  parent_is_directory p st ->
  exists st',
    tree_writeFile p "" touch_options st = (Ok tt, st')
    /\ lookup p st' = Ok (File "").
Proof.
  intros Hmiss (dir & name & Hl).
  rewrite (lookup_entry p st dir name Hl) in Hmiss.
  unfold tree_writeFile. rewrite Hl.
  destruct (entry_path dir name) as (s & rest & Hrev & Hpar & Hc). rewrite Hc.
  rewrite Hrev in Hmiss.
  destruct (WalkFacts.locate_parent p st dir name false Hl) as [d Hd].
  destruct (change_creates (write_entry "" touch_options) (File "") rest s st
              eq_refl Hmiss) as (st' & Hch & Hnew).
  { exists d. rewrite Hpar. exact Hd. }
  exists st'. rewrite Hch. split; [reflexivity|].
  assert (Hk : keeps_dirs st st').
  { eapply change_keeps_dirs; [|exact Hch]. intros d0 r. discriminate. }
  rewrite (lookup_entry p st' dir name (WalkFacts.locate_keeps_dirs _ _ _ _ Hk Hl)).
  now rewrite Hrev.
Qed.

Lemma touch_existing_file p content st :
  lookup p st = Ok (File content) ->
  tree_writeFile p "" touch_options st = (Ok tt, st).
Proof.
  intros H. destruct (WalkFacts.lookup_file p st _ H eq_refl) as (dir & name & Hl & Hn).
  unfold tree_writeFile. rewrite Hl.
  destruct (entry_path dir name) as (s & rest & Hrev & _ & Hc). rewrite Hc.
  unfold node_at in Hn. rewrite Hrev in Hn.
  rewrite (change_same (write_entry "" touch_options) rest s st (File content) Hn).
  - reflexivity.
  - simpl. now rewrite StringFacts.append_empty.
Qed.

(** C9, as amended: [touch] and [touchSync] on a nonexistent path
    that names an entry of a directory that exists -- every component
    before the last one can be walked, and no slash follows the name
    -- create an empty file; with the default options on an existing
    file they leave the file system, and so the content of the file,
    unchanged; both are [writeFile] and [writeFileSync] of the empty
    string, by default with flag ['a']. *)
Theorem touch_creates_empty_or_keeps_content
    (rootPath : option string) (filePath : string) (st : tree) :
  let p := resolvePath rootPath (PStr filePath) in
  (lookup p st = Err (SystemError ENOENT) ->
   parent_is_directory p st ->
   exists st',
     touch treefs rootPath filePath touch_options st = (Resolved tt, st')
     /\ touchSync treefs rootPath filePath touch_options st = (Returned tt, st')
     /\ lookup p st' = Ok (File ""))
  /\ (forall content,
        lookup p st = Ok (File content) ->
        touch treefs rootPath filePath touch_options st = (Resolved tt, st)
        /\ touchSync treefs rootPath filePath touch_options st = (Returned tt, st))
  /\ (forall options,
        touch treefs rootPath filePath options st
        = writeFile treefs rootPath filePath "" options st
        /\ touchSync treefs rootPath filePath options st
           = writeFileSync treefs rootPath filePath "" options st).
Proof.
  intros p. split; [|split].
  - intros Hmiss Hpar.
    destruct (touch_new_file p st Hmiss Hpar) as (st' & Hw & Hl).
    exists st'. unfold touch, touchSync, writeFile, writeFileSync.
    cbn [fs_writeFile treefs]. fold p. now rewrite Hw.
  - intros content Hfile.
    unfold touch, touchSync, writeFile, writeFileSync.
    cbn [fs_writeFile treefs]. fold p.
    now rewrite (touch_existing_file p content st Hfile).
  - intros options. split; reflexivity.
Qed.

Lemma touch_creates_empty_or_keeps_content_witness :
  (exists st',
     touch treefs None "sub/new.txt" touch_options example_tree = (Resolved tt, st')
     /\ touchSync treefs None "sub/new.txt" touch_options example_tree = (Returned tt, st')
     /\ lookup "sub/new.txt" st' = Ok (File ""))
  /\ touch treefs (Some "sub") "c.txt" touch_options example_tree
     = (Resolved tt, example_tree).
Proof.
  split.
  - apply (proj1 (touch_creates_empty_or_keeps_content None "sub/new.txt" example_tree)).
    + reflexivity.
    + exists ["sub"], "new.txt". reflexivity.
  - apply (proj1 (proj2 (touch_creates_empty_or_keeps_content (Some "sub") "c.txt"
                           example_tree)) "gamma").
    reflexivity.
Defined.

(** C9, as stated, fails: a nonexistent path below a directory that
    does not exist is a nonexistent path, and [touch] and [touchSync]
    fail on it with ENOENT and create nothing; so they do when the
    missing directory is left again with [..], and with a slash after
    the name they fail with EISDIR. *)
Lemma touch_needs_the_parent_directory :
  lookup "missing/new.txt" example_tree = Err (SystemError ENOENT)
  /\ touch treefs None "missing/new.txt" touch_options example_tree
     = (Rejected (SystemError ENOENT), example_tree)
  /\ touchSync treefs None "missing/new.txt" touch_options example_tree
     = (Raised (SystemError ENOENT), example_tree)
  /\ lookup "missing/new.txt"
       (snd (touch treefs None "missing/new.txt" touch_options example_tree))
     = Err (SystemError ENOENT)
  /\ lookup "missing/../new.txt" example_tree = Err (SystemError ENOENT)
  /\ touch treefs None "missing/../new.txt" touch_options example_tree
     = (Rejected (SystemError ENOENT), example_tree)
  /\ lookup "new.txt/" example_tree = Err (SystemError ENOENT)
  /\ touch treefs None "new.txt/" touch_options example_tree
     = (Rejected (SystemError EISDIR), example_tree).
Proof. repeat split; reflexivity. Qed.

(** C10: for every path that leads to an existing object of the file
    system, of whatever kind, [mkdirSync] returns without raising and
    leaves the file system as it is, because [fs.existsSync] alone
    decides; [mkdir] hands the path to [fs.mkdir] whatever exists
    there, and is rejected with EEXIST when the object is not a
    directory. *)
Theorem mkdirSync_returns_on_any_existing_path :
  (forall (O : api) (rootPath : option string) (dirPath : string) (st : St O),
      existsSync O (resolvePath rootPath (PStr dirPath)) st = true ->
      mkdirSync O rootPath dirPath st = (Returned tt, st))
  /\ (forall (O : api) (rootPath : option string) (dirPath : string) (st : St O),
        fst (mkdir O rootPath dirPath st)
        = promisified (fst (fs_mkdir O (resolvePath rootPath (PStr dirPath)) st)))
  /\ (forall (rootPath : option string) (dirPath : string) (st : tree) (n : node),
        lookup (resolvePath rootPath (PStr dirPath)) st = Ok n ->
        mkdirSync treefs rootPath dirPath st = (Returned tt, st)
        /\ mkdir treefs rootPath dirPath st
           = (match n with
              | Dir _ => Resolved tt
              | _ => Rejected (SystemError EEXIST)
              end, st)).
Proof.
  split; [|split].
  - intros O rootPath dirPath st Hex. unfold mkdirSync. now rewrite Hex.
  - intros O rootPath dirPath st. unfold mkdir.
    now destruct (fs_mkdir O _ st) as [r st'].
  - intros rootPath dirPath st n Hn. split.
    + unfold mkdirSync, existsSync. cbn [fs_access treefs]. unfold tree_access.
      now rewrite Hn.
    + unfold mkdir. cbn [fs_mkdir treefs]. rewrite (mkdir_existing _ _ _ Hn).
      destruct n; reflexivity.
Qed.

Lemma mkdirSync_returns_on_any_existing_path_witness :
  mkdirSync treefs None "a.txt" example_tree = (Returned tt, example_tree)
  /\ mkdir treefs None "a.txt" example_tree
     = (Rejected (SystemError EEXIST), example_tree).
Proof.
  apply (proj2 (proj2 mkdirSync_returns_on_any_existing_path) None "a.txt" example_tree
           (File "alpha")).
  reflexivity.
Defined.

End TreeFsFacts.

Module OutcomeProofs.
Import Js Os FileSystemHelper TreeFs Examples.

Lemma same_outcome_result {A} (r : result A) : same_outcome (throwing r) (promisified r).
Proof. destruct r; reflexivity. Qed.

Lemma same_outcome_then {A B} (r : result A) (k : A -> completion B) :
  same_outcome (bind (throwing r) k) (async_then (promisified r) k).
Proof. destruct r as [a|e]; simpl; [destruct (k a)|]; reflexivity. Qed.

Lemma same_outcome_try {A} (r : result A) :
  same_outcome (try_catch (bind (throwing r) (fun _ => Returned true)) false)
    (Resolved (not_err r)).
Proof. destruct r; reflexivity. Qed.

Section Generic.
Context (O : api) {value : Type} (J : json value) (rootPath : option string).

Lemma writeFile_agree p data options st :
  agree (writeFileSync O rootPath p data options st)
    (writeFile O rootPath p data options st).
Proof.
  unfold agree, writeFileSync, writeFile.
  destruct (fs_writeFile O _ data options st) as [r st']; simpl.
  split; [apply same_outcome_result|reflexivity].
Qed.

Lemma rm_agree p st : agree (rmSync O rootPath p st) (rm O rootPath p st).
Proof.
  unfold agree, rmSync, rm. destruct (fs_unlink O _ st) as [r st']; simpl.
  split; [apply same_outcome_result|reflexivity].
Qed.

Lemma mkdir_agree p st :
  existsSync O (resolvePath rootPath (PStr p)) st = false ->
  agree (mkdirSync O rootPath p st) (mkdir O rootPath p st).
Proof.
  intros Hex. unfold agree, mkdirSync, mkdir. rewrite Hex.
  destruct (fs_mkdir O _ st) as [r st']; simpl.
  split; [apply same_outcome_result|reflexivity].
Qed.

Lemma rmdir_flag p st :
  fst (rmdir O rootPath p st)
  = Resolved (match fst (rmdirSync O rootPath p st) with
              | Returned _ => true
              | Raised _ => false
              end)
  /\ snd (rmdir O rootPath p st) = snd (rmdirSync O rootPath p st).
Proof.
  unfold rmdir, rmdirSync. destruct (fs_rmdir O _ st) as [[u|e] st']; split; reflexivity.
Qed.

Lemma readDir_resolves_iff p options st l :
  readDirSync O rootPath p options st = Returned l
  <-> readDir O rootPath p options st = Resolved l.
Proof.
  unfold readDirSync, readDir.
  rewrite ReadDirProofs.readDirSync_levels_listing, ReadDirProofs.readDir_levels_listing.
  destruct (fs_readdir O (resolvePath rootPath (PStr p)) st) as [files|e] eqn:Hroot.
  - destruct (Listing.listing O rootPath _ p _ st) as [l'|e']; simpl;
      split; intros H; inversion H; reflexivity.
  - assert (Hl : Listing.listing O rootPath (levels_of options) p
                   (acceptExtensions options) st = Err e).
    { destruct (levels_of options); simpl; now rewrite Hroot. }
    rewrite Hl. simpl. split; discriminate.
Qed.

Lemma readDir_rejected p options st e :
  readDir O rootPath p options st = Rejected e ->
  readDirSync O rootPath p options st = Raised e.
Proof.
  unfold readDirSync, readDir.
  rewrite ReadDirProofs.readDirSync_levels_listing, ReadDirProofs.readDir_levels_listing.
  destruct (fs_readdir O (resolvePath rootPath (PStr p)) st) as [files|e0] eqn:Hroot.
  - destruct (Listing.listing O rootPath _ p _ st); discriminate.
  - intros H; inversion H; subst.
    destruct (levels_of options); simpl; now rewrite Hroot.
Qed.
End Generic.

(** On the tree file system [mkdir] and [mkdirSync] part only on a
    path that exists and is not a directory. *)
Lemma mkdir_agree_on_tree rootPath p (tree : TreeFs.tree) :
  match lookup (resolvePath rootPath (PStr p)) tree with
  | Ok (File _) | Ok Special => True
  | _ => agree (mkdirSync treefs rootPath p tree) (mkdir treefs rootPath p tree)
  end.
Proof.
  destruct (lookup (resolvePath rootPath (PStr p)) tree) as [[c|entries|]|e] eqn:Hl;
    try exact I.
  - unfold agree, mkdirSync, mkdir, existsSync. cbn [fs_access fs_mkdir treefs].
    unfold tree_access. rewrite Hl, (TreeFsFacts.mkdir_existing _ _ _ Hl). simpl. auto.
  - apply mkdir_agree. unfold existsSync. cbn [fs_access treefs].
    unfold tree_access. now rewrite Hl.
Qed.

(** C3, as amended: for the same state and arguments, [writeFile],
    [readFile], [readTXTFile], [readJSONFile], [fileExists],
    [dirExists], [rm] and [touch] end as their [...Sync] variants do
    -- the value returned is the value resolved with, the error raised
    is the error rejected with, the resulting state is the same.
    [mkdir] and [mkdirSync] do so when the path does not exist, and on
    the tree file system unless it exists and is not a directory.
    [rmdir] never rejects: it resolves with [true] when [rmdirSync]
    returns and with [false] when it raises.  [readDirSync] returns a
    listing exactly when [readDir] resolves with it, and raises the
    error [readDir] is rejected with. *)
Theorem sync_and_async_variants
    (O : api) {value : Type} (J : json value) (rootPath : option string) (st : St O) :
  (forall p data options,
      agree (writeFileSync O rootPath p data options st)
        (writeFile O rootPath p data options st))
  /\ (forall p, same_outcome (readFileSync O rootPath p st) (readFile O rootPath p st))
  /\ (forall p, same_outcome (readTXTFileSync O rootPath p st) (readTXTFile O rootPath p st))
  /\ (forall p,
        same_outcome (readJSONFileSync O J rootPath p st) (readJSONFile O J rootPath p st))
  /\ (forall p, same_outcome (fileExistsSync O rootPath p st) (fileExists O rootPath p st))
  /\ (forall p, same_outcome (dirExistsSync O rootPath p st) (dirExists O rootPath p st))
  /\ (forall p, agree (rmSync O rootPath p st) (rm O rootPath p st))
  /\ (forall p options,
        agree (touchSync O rootPath p options st) (touch O rootPath p options st))
  /\ (forall p,
        existsSync O (resolvePath rootPath (PStr p)) st = false ->
        agree (mkdirSync O rootPath p st) (mkdir O rootPath p st))
  /\ (forall p (tree : TreeFs.tree),
        match lookup (resolvePath rootPath (PStr p)) tree with
        | Ok (File _) | Ok Special => True
        | _ => agree (mkdirSync treefs rootPath p tree) (mkdir treefs rootPath p tree)
        end)
  /\ (forall p,
        fst (rmdir O rootPath p st)
        = Resolved (match fst (rmdirSync O rootPath p st) with
                    | Returned _ => true
                    | Raised _ => false
                    end)
        /\ snd (rmdir O rootPath p st) = snd (rmdirSync O rootPath p st))
  /\ (forall p options l,
        readDirSync O rootPath p options st = Returned l
        <-> readDir O rootPath p options st = Resolved l)
  /\ (forall p options e,
        readDir O rootPath p options st = Rejected e ->
        readDirSync O rootPath p options st = Raised e).
Proof.
  repeat match goal with |- _ /\ _ => split end.
  - intros p data options. apply writeFile_agree.
  - intros p. apply same_outcome_result.
  - intros p. apply same_outcome_then.
  - intros p. apply same_outcome_then.
  - intros p. apply same_outcome_try.
  - intros p. apply same_outcome_try.
  - intros p. apply rm_agree.
  - intros p options. unfold touchSync, touch. apply writeFile_agree.
  - intros p. apply mkdir_agree.
  - intros p tree. apply mkdir_agree_on_tree.
  - intros p. apply rmdir_flag.
  - intros p options l. apply readDir_resolves_iff.
  - intros p options e. apply readDir_rejected.
Qed.

Lemma sync_and_async_variants_witness :
  agree (mkdirSync treefs None "sub/made" example_tree)
    (mkdir treefs None "sub/made" example_tree)
  /\ readDirSync treefs None "nowhere" txt_one_level example_tree
     = Raised (SystemError ENOENT).
Proof.
  pose proof (sync_and_async_variants treefs Json.runtime None example_tree) as H.
  split.
  - apply H. reflexivity.
  - apply H. reflexivity.
Defined.

(** C3, as stated, fails: on a directory that does not exist
    [rmdirSync] raises ENOENT where [rmdir] resolves with [false], on
    an empty directory [rmdirSync] returns nothing where [rmdir]
    resolves with [true], and on the path of an existing regular file
    [mkdirSync] returns where [mkdir] is rejected with EEXIST. *)
Lemma rmdir_and_mkdir_variants_differ :
  fst (rmdirSync treefs None "nowhere" example_tree) = Raised (SystemError ENOENT)
  /\ fst (rmdir treefs None "nowhere" example_tree) = Resolved false
  /\ fst (rmdirSync treefs None "empty" [("empty", Dir [])]) = Returned tt
  /\ fst (rmdir treefs None "empty" [("empty", Dir [])]) = Resolved true
  /\ fst (mkdirSync treefs None "a.txt" example_tree) = Returned tt
  /\ fst (mkdir treefs None "a.txt" example_tree) = Rejected (SystemError EEXIST).
Proof. repeat split; reflexivity. Qed.

(** C7: whatever error the operating system answers with,
    [fileExists], [fileExistsSync], [dirExists] and [dirExistsSync]
    give [false] and [fileStatsSync] gives [null], none of them
    raising or rejecting; and on a path that does not exist the four
    checks give [false]. *)
Theorem existence_checks_are_soft
    (O : api) (rootPath : option string) (p : string) (st : St O) :
  (fileExists O rootPath p st
     = Resolved (not_err (fs_access O (resolvePath rootPath (PStr p)) st))
   /\ fileExistsSync O rootPath p st
      = Returned (not_err (fs_access O (resolvePath rootPath (PStr p)) st))
   /\ dirExists O rootPath p st
      = Resolved (not_err (fs_stat O (resolvePath rootPath (PStr p)) st))
   /\ dirExistsSync O rootPath p st
      = Returned (not_err (fs_stat O (resolvePath rootPath (PStr p)) st))
   /\ exists stats, fileStatsSync O rootPath p st = Returned stats)
  /\ (forall e,
        fs_access O (resolvePath rootPath (PStr p)) st = Err e ->
        fileExists O rootPath p st = Resolved false
        /\ fileExistsSync O rootPath p st = Returned false)
  /\ (forall e,
        fs_stat O (resolvePath rootPath (PStr p)) st = Err e ->
        dirExists O rootPath p st = Resolved false
        /\ dirExistsSync O rootPath p st = Returned false
        /\ fileStatsSync O rootPath p st = Returned None)
  /\ (forall tree : TreeFs.tree,
        lookup (resolvePath rootPath (PStr p)) tree = Err (SystemError ENOENT) ->
        fileExists treefs rootPath p tree = Resolved false
        /\ fileExistsSync treefs rootPath p tree = Returned false
        /\ dirExists treefs rootPath p tree = Resolved false
        /\ dirExistsSync treefs rootPath p tree = Returned false).
Proof.
  unfold fileExists, fileExistsSync, dirExists, dirExistsSync, fileStatsSync.
  split; [|split; [|split]].
  - repeat split;
      try (destruct (fs_access O _ st); reflexivity);
      try (destruct (fs_stat O _ st); reflexivity).
    destruct (fs_stat O _ st); eexists; reflexivity.
  - intros e H. rewrite H. split; reflexivity.
  - intros e H. rewrite H. repeat split; reflexivity.
  - intros tree H. cbn [fs_access fs_stat treefs]. unfold tree_access, tree_stat.
    rewrite H. repeat split; reflexivity.
Qed.

Lemma existence_checks_are_soft_witness :
  fileExists treefs (Some "sub") "ghost.txt" example_tree = Resolved false
  /\ fileExistsSync treefs (Some "sub") "ghost.txt" example_tree = Returned false
  /\ dirExists treefs (Some "sub") "ghost.txt" example_tree = Resolved false
  /\ dirExistsSync treefs (Some "sub") "ghost.txt" example_tree = Returned false.
Proof.
  apply (existence_checks_are_soft treefs (Some "sub") "ghost.txt" example_tree).
  reflexivity.
Defined.

End OutcomeProofs.

Module ExecuteProofs.
Import Js ChildProcess Examples.

Lemma on_data_lines buffer stdout :
  on_data buffer stdout = stdout ++ non_empty_lines (toString buffer).
Proof.
  unfold on_data, non_empty_lines.
  generalize (split newline (toString buffer)) as lines.
  intros lines. revert stdout.
  induction lines as [|line lines IH]; intros stdout; simpl.
  - now rewrite app_nil_r.
  - rewrite IH. unfold non_empty at 2.
    destruct (String.eqb line ""); simpl; [reflexivity|].
    unfold FileSystemHelper.push. now rewrite <- app_assoc.
Qed.

(** What the listeners have collected after a run of events. *)
Lemma deliver_all events : forall l,
  stdout (fold_left deliver events l)
  = stdout l
    ++ flat_map (fun ev => match ev with
                           | StdoutData buffer => non_empty_lines (toString buffer)
                           | _ => []
                           end) events.
Proof.
  induction events as [|ev events IH]; intros l; simpl.
  - now rewrite app_nil_r.
  - rewrite IH. destruct ev; simpl; try reflexivity.
    now rewrite on_data_lines, <- app_assoc.
Qed.

Lemma resolved_all events : forall l,
  resolved (fold_left deliver events l)
  = resolved l || existsb (fun ev => match ev with StdoutEnd => true | _ => false end) events.
Proof.
  induction events as [|ev events IH]; intros l; simpl.
  - now rewrite orb_false_r.
  - rewrite IH. destruct ev; simpl; try reflexivity.
    now rewrite orb_true_r.
Qed.

(** Splitting a text whose front part ends a line. *)
Lemma split_after_newline a b : forall cur,
  List.filter non_empty (split_acc newline cur (a +:+ String newline b))
  = List.filter non_empty (split_acc newline cur a)
    ++ List.filter non_empty (split_acc newline "" b).
Proof.
  induction a as [|c a IH]; intros cur.
  - change ("" +:+ String newline b) with (String newline b).
    cbn [split_acc]. rewrite Ascii.eqb_refl. cbn [List.filter].
    now destruct (non_empty cur).
  - change (String c a +:+ String newline b) with (String c (a +:+ String newline b)).
    cbn [split_acc]. destruct (Ascii.eqb c newline).
    + cbn [List.filter]. rewrite IH. now destruct (non_empty cur).
    + apply IH.
Qed.

Lemma lines_of_aligned a b :
  line_aligned a ->
  non_empty_lines (a +:+ b) = non_empty_lines a ++ non_empty_lines b.
Proof.
  intros [|a0]; unfold non_empty_lines, split.
  - reflexivity.
  - rewrite StringFacts.append_assoc.
    change (String newline "" +:+ b) with (String newline b).
    fold non_empty. rewrite !split_after_newline.
    cbn [split_acc List.filter non_empty String.eqb negb].
    now rewrite app_nil_r.
Qed.

(** When every chunk is line-aligned, the lines collected are the
    non-empty lines of the whole output. *)
Lemma collected_lines_of_aligned_chunks events :
  Forall (fun ev => match ev with
                    | StdoutData buffer => line_aligned (toString buffer)
                    | _ => True
                    end) events ->
  flat_map (fun ev => match ev with
                      | StdoutData buffer => non_empty_lines (toString buffer)
                      | _ => []
                      end) events
  = non_empty_lines (whole_output events).
Proof.
  induction 1 as [|ev events Hev _ IH]; [reflexivity|].
  destruct ev; simpl; try exact IH.
  now rewrite lines_of_aligned, IH.
Qed.

Section Execute.
Variable spawn : string -> list string -> spawned.

(** [execute] on a child whose standard output ends: the non-empty
    lines of every chunk, chunk after chunk. *)
Lemma execute_collects_chunk_lines command args events :
  spawn command args = Child events ->
  In StdoutEnd events ->
  execute spawn command args
  = Resolved (flat_map (fun ev => match ev with
                                  | StdoutData buffer => non_empty_lines (toString buffer)
                                  | _ => []
                                  end) events).
Proof.
  intros Hspawn Hend. unfold execute. rewrite Hspawn.
  rewrite resolved_all, deliver_all. simpl.
  replace (existsb _ events) with true; [reflexivity|].
  symmetry. apply existsb_exists. exists StdoutEnd. split; [exact Hend|reflexivity].
Qed.

(** With line-aligned chunks these are the non-empty lines of the
    whole output. *)
Lemma execute_aligned_chunks command args events :
  spawn command args = Child events ->
  In StdoutEnd events ->
  Forall (fun ev => match ev with
                    | StdoutData buffer => line_aligned (toString buffer)
                    | _ => True
                    end) events ->
  execute spawn command args = Resolved (non_empty_lines (whole_output events)).
Proof.
  intros Hspawn Hend Hal.
  rewrite (execute_collects_chunk_lines _ _ _ Hspawn Hend).
  now rewrite collected_lines_of_aligned_chunks.
Qed.

(** [execute] is rejected exactly when [spawn] throws. *)
Lemma execute_rejected_iff command args e :
  execute spawn command args = Rejected e <-> spawn command args = Throws e.
Proof.
  unfold execute. destruct (spawn command args) as [e'|events].
  - split; intros H; inversion H; reflexivity.
  - destruct (resolved _); split; discriminate.
Qed.

(** The exit status plays no part. *)
Lemma execute_ignores_exit command args before code after :
  spawn command args = Child (before ++ ExitEvent code :: after) ->
  forall spawn', spawn' command args = Child (before ++ after) ->
  execute spawn command args = execute spawn' command args.
Proof.
  intros H spawn' H'. unfold execute. rewrite H, H'.
  now rewrite !fold_left_app.
Qed.
End Execute.

(** C4 at the failing input: the line [abc] delivered as the chunks
    [ab] and [c] is resolved as the two lines [ab] and [c], where the
    non-empty lines of the whole output are the one line [abc]; the
    three lines and the blank one of 8.9, delivered in one chunk, are
    resolved as the three lines. *)
Theorem execute_splits_lines_at_chunk_boundaries :
  execute (fun _ _ => split_line_child) "printf" ["abc\n"] = Resolved ["ab"; "c"]
  /\ non_empty_lines (whole_output
                        [StdoutData (Buffer_from "ab");
                         StdoutData (Buffer_from ("c" +:+ nl)); StdoutEnd; ExitEvent 0])
     = ["abc"]
  /\ execute (fun _ _ => three_lines_child) "printf" ["one\ntwo\nthree\n\n"]
     = Resolved ["one"; "two"; "three"].
Proof. repeat split; reflexivity. Qed.

(** C5 at the failing input: for a command that cannot be started,
    reported by the ['error'] event of the child, [execute] is not
    rejected: its promise stays pending; an exit status other than 0
    does not reject it either. *)
Theorem execute_misses_the_error_event :
  execute (fun _ _ => failed_child) "no-such-command" [] = Pending
  /\ execute (fun _ _ => three_lines_child) "printf" ["one\ntwo\nthree\n\n"]
     = Resolved ["one"; "two"; "three"].
Proof. split; reflexivity. Qed.

End ExecuteProofs.

Module DirWatchProofs.
Import Js DirWatch.

Lemma resolve_other p p' v w :
  p' <> p -> promises (resolve p' v w) !! p = promises w !! p.
Proof.
  intros Hne. unfold resolve.
  destruct (promises w !! p') as [[| |]|]; simpl; try reflexivity.
  now rewrite lookup_insert_ne.
Qed.

Lemma resolve_watchers p v w : fswatchers (resolve p v w) = fswatchers w.
Proof. unfold resolve. now destruct (promises w !! p) as [[| |]|]. Qed.

Lemma resolve_dom p v w : dom (promises w) ⊆ dom (promises (resolve p v w)).
Proof.
  unfold resolve. destruct (promises w !! p) as [[| |]|]; simpl; try reflexivity.
  apply dom_insert_subseteq.
Qed.

Lemma close_lookup h h' w fw :
  fswatchers (close h w) !! h' = Some fw ->
  exists fw0, fswatchers w !! h' = Some fw0
              /\ listener fw = listener fw0
              /\ (h' = h -> is_open fw = false)
              /\ (h' <> h -> fw = fw0).
Proof.
  unfold close; simpl. destruct (decide (h = h')) as [->|Hne].
  - rewrite lookup_alter_eq. destruct (fswatchers w !! h') as [fw0|]; simpl; [|discriminate].
    intros H; inversion H; subst. exists fw0. repeat split; auto. congruence.
  - rewrite lookup_alter_ne by exact Hne. intros H. exists fw.
    repeat split; auto. congruence.
Qed.

Section Steps.
Variable rootPath : option string.
Variable fs_watch : string -> WatchOptions -> result unit.

Abbreviation step := (DirWatch.step rootPath fs_watch).
Abbreviation run := (DirWatch.run rootPath fs_watch).
Abbreviation watchDir := (DirWatch.watchDir rootPath fs_watch).

Lemma dir_well_formed_step w act : well_formed w -> well_formed (step w act).
Proof.
  intros Hwf. destruct act as [dirPath options|a|h event filename]; simpl.
  - unfold DirWatch.watchDir. destruct (fs_watch _ _); simpl; intros h fw; simpl.
    + rewrite lookup_insert. case_decide as Hh.
      * intros Hfw; inversion Hfw; subst; simpl. set_solver.
      * intros Hfw. apply Hwf in Hfw. set_solver.
    + intros Hfw. apply Hwf in Hfw. set_solver.
  - unfold abort. destruct (watcher a) as [h0|]; simpl; [|exact Hwf].
    intros h fw H. apply close_lookup in H as (fw0 & H0 & Hl & _).
    rewrite Hl. exact (Hwf _ _ H0).
  - unfold notify. destruct (fswatchers w !! h) as [fw0|]; [|exact Hwf].
    destruct (is_open fw0); [|exact Hwf].
    intros h' fw. rewrite resolve_watchers. intros H.
    apply (resolve_dom (listener fw0) (event, filename) w). exact (Hwf _ _ H).
Qed.

Lemma dir_well_formed_run acts : forall w, well_formed w -> well_formed (run acts w).
Proof.
  induction acts as [|act acts IH]; intros w Hwf; simpl; [exact Hwf|].
  apply IH, dir_well_formed_step, Hwf.
Qed.

Lemma dir_well_formed_empty : well_formed empty_world.
Proof. intros h fw H. simpl in H. now rewrite lookup_empty in H. Qed.

Lemma fresh_promise_other p s w :
  promises w !! p = Some s -> fresh (dom (promises w)) <> p.
Proof.
  intros Hp Heq. apply (is_fresh (dom (promises w))). rewrite Heq.
  now apply elem_of_dom_2 with s.
Qed.

(** A call of [watchDir] leaves the promises of other watches alone
    and adds no listener for them. *)
Lemma watchDir_other p dirPath options w :
  promises w !! p = Some Pending ->
  promises (snd (watchDir dirPath options w)) !! p = Some Pending
  /\ forall h fw,
       fswatchers (snd (watchDir dirPath options w)) !! h = Some fw ->
       listener fw = p ->
       fswatchers w !! h = Some fw.
Proof.
  intros Hp. pose proof (fresh_promise_other _ _ _ Hp) as Hne.
  unfold DirWatch.watchDir. destruct (fs_watch _ _); simpl.
  - rewrite lookup_insert_ne by exact Hne. split; [exact Hp|].
    intros h fw. rewrite lookup_insert. case_decide as Hh; [|auto].
    intros Hfw; inversion Hfw; subst; simpl. intros Hl. contradiction.
  - rewrite lookup_insert_ne by exact Hne. auto.
Qed.

Lemma armed_step p h w act :
  armed p h w -> notifies h act = false -> armed p h (step w act).
Proof.
  intros [Hp Hown] Hact. destruct act as [dirPath options|a|h0 event filename]; simpl.
  - destruct (watchDir_other p dirPath options w Hp) as [Hp' Hold].
    split; [exact Hp'|]. intros h' fw H Hl. eapply Hown; eauto.
  - unfold abort. destruct (watcher a) as [h0|]; simpl; [|split; assumption].
    split; [exact Hp|]. intros h' fw H Hl.
    apply close_lookup in H as (fw0 & H0 & Hl0 & _).
    apply (Hown h' fw0 H0). congruence.
  - simpl in Hact. apply Nat.eqb_neq in Hact.
    unfold notify. destruct (fswatchers w !! h0) as [fw0|] eqn:E; [|split; assumption].
    destruct (is_open fw0); [|split; assumption].
    assert (Hne : listener fw0 <> p).
    { intros Hl. apply Hact. symmetry. exact (Hown _ _ E Hl). }
    split.
    + rewrite resolve_other by exact Hne. exact Hp.
    + intros h' fw. rewrite resolve_watchers. apply Hown.
Qed.

Lemma armed_run p h acts : forall w,
  armed p h w ->
  Forall (fun act => notifies h act = false) acts ->
  armed p h (run acts w).
Proof.
  induction acts as [|act acts IH]; intros w Harm Hacts; simpl; [exact Harm|].
  inversion Hacts; subst. apply IH; [|assumption]. now apply armed_step.
Qed.

Lemma silenced_step p w act : silenced p w -> silenced p (step w act).
Proof.
  intros [Hp Hclosed]. destruct act as [dirPath options|a|h0 event filename]; simpl.
  - destruct (watchDir_other p dirPath options w Hp) as [Hp' Hold].
    split; [exact Hp'|]. intros h fw H Hl. eapply Hclosed; eauto.
  - unfold abort. destruct (watcher a) as [h0|]; simpl; [|split; assumption].
    split; [exact Hp|]. intros h fw H Hl.
    apply close_lookup in H as (fw0 & H0 & Hl0 & Hsame & Hother).
    destruct (decide (h = h0)) as [Heq|Hne]; [now apply Hsame|].
    rewrite (Hother Hne). apply (Hclosed h fw0 H0). congruence.
  - unfold notify. destruct (fswatchers w !! h0) as [fw0|] eqn:E; [|split; assumption].
    destruct (is_open fw0) eqn:Eopen; [|split; assumption].
    assert (Hne : listener fw0 <> p).
    { intros Hl. rewrite (Hclosed _ _ E Hl) in Eopen. discriminate. }
    split.
    + rewrite resolve_other by exact Hne. exact Hp.
    + intros h fw. rewrite resolve_watchers. apply Hclosed.
Qed.

Lemma silenced_run p acts : forall w, silenced p w -> silenced p (run acts w).
Proof.
  induction acts as [|act acts IH]; intros w Hs; simpl; [exact Hs|].
  apply IH, silenced_step, Hs.
Qed.

(** A successful [watchDir] arms its promise with the new watcher. *)
Lemma watchDir_arms dirPath options w :
  well_formed w ->
  fs_watch (FileSystemHelper.resolvePath rootPath (FileSystemHelper.PStr dirPath)) options
  = Ok tt ->
  exists h,
    watcher (fst (watchDir dirPath options w)) = Some h
    /\ armed (promise (fst (watchDir dirPath options w))) h
         (snd (watchDir dirPath options w)).
Proof.
  intros Hwf Hok. unfold DirWatch.watchDir. rewrite Hok. simpl.
  eexists; split; [reflexivity|]. split; simpl.
  - apply lookup_insert_eq.
  - intros h' fw. rewrite lookup_insert. case_decide as Hh; [auto|].
    intros Hfw Hl. apply Hwf in Hfw. rewrite Hl in Hfw.
    exfalso. exact (is_fresh _ Hfw).
Qed.

(** [abort] closes the one watcher that could resolve the promise. *)
Lemma abort_silences a h w :
  watcher a = Some h -> armed (promise a) h w -> silenced (promise a) (snd (abort a w)).
Proof.
  intros Hw [Hp Hown]. unfold abort. rewrite Hw. simpl. split; [exact Hp|].
  intros h' fw H Hl. apply close_lookup in H as (fw0 & H0 & Hl0 & Hsame & _).
  apply Hsame. apply (Hown h' fw0 H0). congruence.
Qed.

(** C8: for every directory watch that [watchDir] created, in any
    world reached by calls and change events, when [abort] is called
    before a change event for the watch fires, the call of [abort]
    completes without error, and after every further run of calls
    and change events the promise of the watch is pending. *)
Theorem aborted_watchDir_stays_pending
    (before between after : list action) (dirPath : string) (options : WatchOptions) :
  let w0 := run before empty_world in
  let a := fst (watchDir dirPath options w0) in
  let w1 := run between (snd (watchDir dirPath options w0)) in
  fs_watch (FileSystemHelper.resolvePath rootPath (FileSystemHelper.PStr dirPath)) options
  = Ok tt ->
  (forall h, watcher a = Some h -> Forall (fun act => notifies h act = false) between) ->
  fst (abort a w1) = Resolved tt
  /\ promises (run after (snd (abort a w1))) !! promise a = Some Pending.
Proof.
  intros w0 a w1 Hok Hquiet.
  destruct (watchDir_arms dirPath options w0
              (dir_well_formed_run before _ dir_well_formed_empty) Hok)
    as (h & Hw & Harm).
  fold a in Hw, Harm. split.
  - unfold abort. now rewrite Hw.
  - apply (silenced_run (promise a) after).
    apply (abort_silences a h); [exact Hw|].
    apply armed_run; [exact Harm|]. exact (Hquiet h Hw).
Qed.
End Steps.

Lemma aborted_watchDir_stays_pending_witness :
  let fs_watch := fun (_ : string) (_ : WatchOptions) => Ok tt in
  let options := mkWatchOptions (Some true) None in
  let w0 := run None fs_watch [CallWatchDir "logs" options] empty_world in
  let a := fst (watchDir None fs_watch "src" options w0) in
  let w1 := run None fs_watch [Notify 0 "change" "app.log"]
              (snd (watchDir None fs_watch "src" options w0)) in
  fst (abort a w1) = Resolved tt
  /\ promises
       (run None fs_watch [Notify 1 "rename" "index.ts"; CallWatchDir "docs" options]
          (snd (abort a w1))) !! promise a = Some Pending.
Proof.
  apply (aborted_watchDir_stays_pending None (fun _ _ => Ok tt)
           [CallWatchDir "logs" (mkWatchOptions (Some true) None)]
           [Notify 0 "change" "app.log"]
           [Notify 1 "rename" "index.ts";
            CallWatchDir "docs" (mkWatchOptions (Some true) None)]
           "src" (mkWatchOptions (Some true) None)).
  - reflexivity.
  - intros h Hh. vm_compute in Hh. inversion Hh. repeat constructor.
Defined.

End DirWatchProofs.

Module FileWatchProofs.
Import Js Os FileWatch.

Lemma remove_last_absent f ls : ~ In f ls -> remove_last f ls = ls.
Proof.
  induction ls as [|l ls IH]; simpl; [reflexivity|].
  intros Hnot. destruct (Nat.eqb l f) eqn:E; simpl.
  - apply Nat.eqb_eq in E. exfalso. apply Hnot. now left.
  - rewrite IH; [reflexivity|]. intros Hin. apply Hnot. now right.
Qed.

Lemma remove_last_incl f ls x : In x (remove_last f ls) -> In x ls.
Proof.
  induction ls as [|l ls IH]; simpl; [auto|].
  destruct (Nat.eqb l f && negb (existsb (Nat.eqb f) ls)); simpl.
  - now right.
  - intros [->|Hin]; [now left|right; now apply IH].
Qed.

(** Unregistering a function that is not registered changes nothing. *)
Lemma unwatch_unregistered name f w :
  well_formed w ->
  (forall ls, polls w !! name = Some ls -> ~ In f ls) ->
  fs_unwatchFile name f w = w.
Proof.
  intros [Hwf _] Hnot. unfold fs_unwatchFile.
  destruct (polls w !! name) as [ls|] eqn:E; [|reflexivity].
  rewrite (remove_last_absent f ls (Hnot ls eq_refl)).
  destruct (Hwf name ls E) as [Hne _].
  destruct ls as [|l ls]; [contradiction|].
  rewrite insert_id by exact E. now destruct w.
Qed.

Lemma lookup_polls_watch name name' options f w ls :
  polls (fs_watchFile name options f w) !! name' = Some ls ->
  (name' = name /\ ls = listeners_of name w ++ [f])
  \/ (name' <> name /\ polls w !! name' = Some ls).
Proof.
  unfold fs_watchFile; simpl. rewrite lookup_insert. case_decide as Hn.
  - intros Hl; inversion Hl; subst. now left.
  - intros Hl. right. split; [congruence|exact Hl].
Qed.

Lemma lookup_polls_unwatch name name' f w ls :
  polls (fs_unwatchFile name f w) !! name' = Some ls ->
  exists ls0, polls w !! name' = Some ls0 /\ forall x, In x ls -> In x ls0.
Proof.
  unfold fs_unwatchFile. destruct (polls w !! name) as [ls1|] eqn:E.
  - simpl. destruct (remove_last f ls1) as [|l ls2] eqn:R.
    + rewrite lookup_delete. case_decide as Hn; [discriminate|].
      intros Hl. exists ls. auto.
    + rewrite lookup_insert. case_decide as Hn.
      * intros Hl; inversion Hl; subst. exists ls1. split; [exact E|].
        intros x Hx. apply (remove_last_incl f). now rewrite R.
      * intros Hl. exists ls. auto.
  - intros Hl. exists ls. auto.
Qed.

Lemma listeners_of_spec name w f :
  In f (listeners_of name w) -> exists ls, polls w !! name = Some ls /\ In f ls.
Proof.
  unfold listeners_of. destruct (polls w !! name) as [ls|]; simpl; [eauto|contradiction].
Qed.

Lemma settle_other {A} (p p' : nat) (v : A) (m : gmap nat (settle A)) :
  p' <> p -> settle_pending p' v m !! p = m !! p.
Proof.
  intros Hne. unfold settle_pending. destruct (m !! p') as [[| |]|]; try reflexivity.
  now rewrite lookup_insert_ne.
Qed.

(** Calling the listeners of a poll leaves [q] pending when none of
    them is the function that resolves it. *)
Lemma calls_keep_pending q curr prev ls : forall w,
  abort_promises w !! q = Some Pending ->
  (forall f, In f ls -> functions w !! f <> Some (ResolveAbort q)) ->
  let w' := fold_left (call curr prev) ls w in
  abort_promises w' !! q = Some Pending
  /\ functions w' = functions w /\ polls w' = polls w.
Proof.
  induction ls as [|f ls IH]; intros w Hq Hfun; simpl; [auto|].
  assert (Hcall : abort_promises (call curr prev w f) !! q = Some Pending
                  /\ functions (call curr prev w f) = functions w
                  /\ polls (call curr prev w f) = polls w).
  { unfold call. destruct (functions w !! f) as [[p|q']|] eqn:E; simpl; auto.
    split; [|auto]. rewrite settle_other; [exact Hq|].
    intros ->. apply (Hfun f); [now left|exact E]. }
  destruct Hcall as (Hq' & Hf' & Hp').
  destruct (IH (call curr prev w f) Hq') as (H1 & H2 & H3).
  - intros g Hg. rewrite Hf'. apply Hfun. now right.
  - simpl in *. rewrite H2, H3. auto.
Qed.

Lemma settle_dom {A} (p : nat) (v : A) (m : gmap nat (settle A)) :
  dom (settle_pending p v m) = dom m.
Proof.
  unfold settle_pending. destruct (m !! p) as [[| |]|] eqn:E; try reflexivity.
  apply dom_insert_lookup_L. now rewrite E.
Qed.

Lemma calls_keep_shape curr prev ls : forall w,
  let w' := fold_left (call curr prev) ls w in
  functions w' = functions w /\ polls w' = polls w
  /\ dom (abort_promises w') = dom (abort_promises w).
Proof.
  induction ls as [|f ls IH]; intros w; simpl; [auto|].
  destruct (IH (call curr prev w f)) as (H1 & H2 & H3). simpl in *.
  rewrite H1, H2, H3. unfold call.
  destruct (functions w !! f) as [[p|q]|]; simpl; auto.
  now rewrite settle_dom.
Qed.

Section Steps.
Variable rootPath : option string.

Abbreviation step := (FileWatch.step rootPath).
Abbreviation run := (FileWatch.run rootPath).
Abbreviation watchFile := (FileWatch.watchFile rootPath).
Abbreviation abort := (FileWatch.abort rootPath).

Lemma fresh_function_unregistered w name ls :
  well_formed w -> polls w !! name = Some ls -> ~ In (fresh (dom (functions w))) ls.
Proof.
  intros [Hwf _] Hl Hin. destruct (Hwf name ls Hl) as [_ Hdom].
  exact (is_fresh _ (Hdom _ Hin)).
Qed.

Lemma with_abort_closure_well_formed w :
  well_formed w -> well_formed (with_abort_closure w).
Proof.
  intros [Hpolls Hfun]. split; simpl.
  - intros name ls Hl. destruct (Hpolls name ls Hl) as [Hne Hdom].
    split; [exact Hne|]. intros f Hf. apply dom_insert_subseteq, Hdom, Hf.
  - intros f q. rewrite lookup_insert. case_decide as Hfresh.
    + intros Hq; inversion Hq; subst.
      apply elem_of_dom_2 with Pending, lookup_insert_eq.
    + intros Hq. apply dom_insert_subseteq, (Hfun f), Hq.
Qed.

(** The call of [fs.unwatchFile] in [abort] does nothing. *)
Lemma abort_world a w :
  well_formed w -> snd (abort a w) = with_abort_closure w.
Proof.
  intros Hwf. unfold FileWatch.abort. cbn [snd].
  fold (with_abort_closure w).
  apply unwatch_unregistered; [now apply with_abort_closure_well_formed|].
  intros ls Hl. simpl in Hl. eapply fresh_function_unregistered; eauto.
Qed.

(** [abort] leaves every poll registered. *)
Lemma abort_keeps_polls a w : well_formed w -> polls (snd (abort a w)) = polls w.
Proof. intros Hwf. now rewrite abort_world. Qed.

Lemma file_well_formed_step w act : well_formed w -> well_formed (step w act).
Proof.
  intros Hwf. destruct act as [path options|a|name curr prev]; cbn [FileWatch.step].
  - destruct Hwf as [Hpolls Hfun]. split.
    + intros name ls Hl. unfold FileWatch.watchFile in Hl. cbn [snd] in Hl.
      apply lookup_polls_watch in Hl as [[-> ->]|[Hn Hl]]; simpl in *.
      * split; [now destruct (listeners_of _ _)|].
        intros f Hf. apply in_app_or in Hf as [Hf|[<-|[]]].
        -- apply listeners_of_spec in Hf as (ls0 & Hl0 & Hin). simpl in Hl0.
           destruct (Hpolls _ _ Hl0) as [_ Hdom].
           apply dom_insert_subseteq, Hdom, Hin.
        -- eapply elem_of_dom_2, lookup_insert_eq.
      * destruct (Hpolls _ _ Hl) as [Hne Hdom]. split; [exact Hne|].
        intros f Hf. apply dom_insert_subseteq, Hdom, Hf.
    + intros f q. unfold FileWatch.watchFile. cbn [snd]. simpl.
      rewrite lookup_insert. case_decide as Hfresh; [discriminate|]. apply Hfun.
  - rewrite abort_world by exact Hwf. now apply with_abort_closure_well_formed.
  - unfold poll_fires.
    destruct (calls_keep_shape curr prev (listeners_of name w) w) as (H1 & H2 & H3).
    destruct Hwf as [Hpolls Hfun]. split.
    + intros nm ls. rewrite H1, H2. apply Hpolls.
    + intros f q. rewrite H1, H3. apply Hfun.
Qed.

Lemma file_well_formed_run acts : forall w, well_formed w -> well_formed (run acts w).
Proof.
  induction acts as [|act acts IH]; intros w Hwf; simpl; [exact Hwf|].
  apply IH, file_well_formed_step, Hwf.
Qed.

Lemma file_well_formed_empty : well_formed empty_world.
Proof.
  split; simpl.
  - intros name ls Hl. now rewrite lookup_empty in Hl.
  - intros f q Hf. now rewrite lookup_empty in Hf.
Qed.

Lemma never_called_step q w act :
  well_formed w -> never_called q w -> never_called q (step w act).
Proof.
  intros Hwf [Hq Hreg]. destruct act as [path options|a|name curr prev]; cbn [FileWatch.step].
  - unfold FileWatch.watchFile. cbn [snd]. split; [exact Hq|].
    intros f name ls Hf Hl. simpl in Hf.
    rewrite lookup_insert in Hf. case_decide as Hfresh; [discriminate|].
    apply lookup_polls_watch in Hl as [[-> ->]|[Hn Hl]]; simpl in *.
    + intros Hin. apply in_app_or in Hin as [Hin|[<-|[]]]; [|congruence].
      apply listeners_of_spec in Hin as (ls0 & Hl0 & Hin). simpl in Hl0.
      exact (Hreg f _ ls0 Hf Hl0 Hin).
    + exact (Hreg f name ls Hf Hl).
  - assert (Hne : fresh (dom (abort_promises w)) <> q).
    { intros Heq. apply (is_fresh (dom (abort_promises w))). rewrite Heq.
      now apply elem_of_dom_2 with Pending. }
    rewrite abort_world by exact Hwf. split; simpl.
    + now rewrite lookup_insert_ne.
    + intros f name ls. rewrite lookup_insert. case_decide as Hfresh.
      * intros Hf; inversion Hf. contradiction.
      * apply Hreg.
  - unfold poll_fires.
    destruct (calls_keep_pending q curr prev (listeners_of name w) w Hq)
      as (H1 & H2 & H3).
    + intros f Hin Hf. apply listeners_of_spec in Hin as (ls0 & Hl0 & Hin).
      exact (Hreg f name ls0 Hf Hl0 Hin).
    + split; [exact H1|]. rewrite H2, H3. exact Hreg.
Qed.

Lemma never_called_run q acts : forall w,
  well_formed w -> never_called q w -> never_called q (run acts w).
Proof.
  induction acts as [|act acts IH]; intros w Hwf Hn; simpl; [exact Hn|].
  apply IH; [now apply file_well_formed_step|now apply never_called_step].
Qed.

(** In every world reached by calls and polls, [abort] unregisters
    nothing, and the promise it returns is pending after every
    further run of calls and polls. *)
Lemma abort_never_completes (before after : list action) (a : abortable) :
  let w := run before empty_world in
  polls (snd (abort a w)) = polls w
  /\ abort_promises (run after (snd (abort a w))) !! fst (abort a w) = Some Pending.
Proof.
  intros w.
  assert (Hwf : well_formed w) by apply file_well_formed_run, file_well_formed_empty.
  split; [now apply abort_keeps_polls|].
  apply never_called_run.
  - apply (file_well_formed_step w (CallAbort a)), Hwf.
  - rewrite abort_world by exact Hwf.
    change (fst (abort a w)) with (fresh (dom (abort_promises w))).
    split; simpl.
    + apply lookup_insert_eq.
    + intros f name ls. rewrite lookup_insert. case_decide as Hfresh.
      * intros _ Hl. subst f. eapply fresh_function_unregistered; eauto.
      * intros Hf. destruct Hwf as [_ Hfun]. apply Hfun in Hf.
        exfalso. exact (is_fresh _ Hf).
Qed.
End Steps.

(** C6 at the failing input: after [watchFile] on [notes.txt] and a
    call of the returned [abort], the listener of the watch is still
    registered and the promise returned by [abort] is pending; the
    next poll that finds the file changed still calls the listener of
    the watch, and the promise of [abort] is pending after it. *)
Theorem watchFile_abort_unregisters_nothing :
  let options := mkWatchOptions (Some 100) None in
  let w1 := snd (watchFile None "notes.txt" options empty_world) in
  let a := fst (watchFile None "notes.txt" options empty_world) in
  let q := fst (abort None a w1) in
  let w2 := snd (abort None a w1) in
  let w3 := poll_fires "notes.txt" (mkStats KFile 12) (mkStats KFile 5) w2 in
  polls w1 !! "notes.txt" = Some [0]
  /\ polls w2 !! "notes.txt" = Some [0]
  /\ abort_promises w2 !! q = Some Pending
  /\ watch_promises w3 !! promise a = Some (Resolved (mkStats KFile 12, mkStats KFile 5))
  /\ abort_promises w3 !! q = Some Pending.
Proof. vm_compute. repeat split; reflexivity. Qed.

End FileWatchProofs.

Module Scenarios.
Import Js Os FileSystemHelper TreeFs Examples.

(** 8.3: creating a directory twice succeeds both times. *)
Example mkdir_twice :
  let st1 := snd (mkdir treefs None "build/out" example_tree) in
  fst (mkdir treefs None "build/out" example_tree) = Resolved tt
  /\ mkdir treefs None "build/out" st1 = (Resolved tt, st1)
  /\ mkdirSync treefs None "build/out" st1 = (Returned tt, st1).
Proof. repeat split; reflexivity. Qed.

(** 8.5: [onlyDirs] without recursion on a directory with one file and
    one subdirectory. *)
Example readDir_only_directories :
  readDir treefs None "." (mkReadDirOptions None None false true)
    [("a.txt", File "alpha"); ("sub", Dir [])]
  = Resolved [mkDirent "sub" KDirectory].
Proof. reflexivity. Qed.

(** 8.8: deleting a directory that is not empty. *)
Example rmdir_not_empty :
  rmdir treefs None "sub" example_tree = (Resolved false, example_tree)
  /\ rmdirSync treefs None "sub" example_tree
     = (Raised (SystemError ENOTEMPTY), example_tree).
Proof. split; reflexivity. Qed.

(** Below the depth limit a directory stays as an entry, and
    [onlyFiles] drops it together with the files below it. *)
Example readDir_depth_limit :
  let deep := [("top.txt", File "t"); ("a", Dir [("b", Dir [("deep.txt", File "d")])])] in
  readDirSync treefs None "." (mkReadDirOptions None (Some 1) false false) deep
  = Returned [mkDirent "top.txt" KFile; mkDirent "a/b" KDirectory]
  /\ readDirSync treefs None "." (mkReadDirOptions None (Some 1) true false) deep
     = Returned [mkDirent "top.txt" KFile]
  /\ readDirSync treefs None "." (mkReadDirOptions None (Some 2) true false) deep
     = Returned [mkDirent "top.txt" KFile; mkDirent "a/b/deep.txt" KFile].
Proof. repeat split; reflexivity. Qed.

(** A directory below the top one that cannot be listed: [readDirSync]
    raises the error, [readDir] neither resolves nor rejects. *)
Example readDir_unreadable_subdirectory :
  readDirSync locked_os None "." (mkReadDirOptions None (Some 1) false false) tt
  = Raised (SystemError EACCES)
  /\ readDir locked_os None "." (mkReadDirOptions None (Some 1) false false) tt
     = Pending.
Proof. split; reflexivity. Qed.

(** [readJSONFile] on text that is not JSON. *)
Example readJSONFile_malformed :
  readJSONFile treefs Json.runtime None "a.txt" example_tree = Rejected SyntaxError
  /\ readJSONFileSync treefs Json.runtime None "a.txt" example_tree = Raised SyntaxError.
Proof. split; reflexivity. Qed.

(** A watch that is not aborted resolves with the first change and
    keeps that value. *)
Example watchDir_first_change :
  let fs_watch := fun (_ : string) (_ : DirWatch.WatchOptions) => Ok tt in
  let options := DirWatch.mkWatchOptions None None in
  let a := fst (DirWatch.watchDir None fs_watch "src" options DirWatch.empty_world) in
  let w := DirWatch.run None fs_watch
             [DirWatch.Notify 0 "change" "a.ts"; DirWatch.Notify 0 "rename" "b.ts"]
             (snd (DirWatch.watchDir None fs_watch "src" options DirWatch.empty_world)) in
  DirWatch.promises w !! DirWatch.promise a = Some (Resolved ("change", "a.ts")).
Proof. vm_compute. reflexivity. Qed.

(** [fs.watch] on a directory that does not exist throws: the promise
    is rejected and [abort] has nothing to close. *)
Example watchDir_missing_directory :
  let fs_watch :=
    fun (_ : string) (_ : DirWatch.WatchOptions) => Err (SystemError ENOENT) in
  let options := DirWatch.mkWatchOptions None None in
  let a := fst (DirWatch.watchDir None fs_watch "gone" options DirWatch.empty_world) in
  let w := snd (DirWatch.watchDir None fs_watch "gone" options DirWatch.empty_world) in
  DirWatch.promises w !! DirWatch.promise a = Some (Rejected (SystemError ENOENT))
  /\ DirWatch.abort a w = (Resolved tt, w).
Proof. vm_compute. split; reflexivity. Qed.

End Scenarios.

Module ReadDirFacts.
Import Js Os FileSystemHelper Listing Examples.

(** A listing that succeeded is the concatenation of its parts. *)
Lemma splice_ok {A} (parts : list (result (list A))) l :
  splice parts = Ok l -> exists ls, parts = map Ok ls /\ l = concat ls.
Proof.
  revert l. induction parts as [|[part|e] parts IH]; intros l; simpl.
  - intros H; inversion H. now exists [].
  - destruct (splice parts) as [tail|e]; [|discriminate].
    intros H; inversion H; subst.
    destruct (IH tail eq_refl) as (ls & -> & ->). now exists (part :: ls).
  - discriminate.
Qed.

Lemma splice_Forall {A} (P : A -> Prop) (parts : list (result (list A))) l :
  splice parts = Ok l ->
  (forall part, In (Ok part) parts -> Forall P part) ->
  Forall P l.
Proof.
  intros H Hparts. apply splice_ok in H as (ls & -> & ->).
  apply List.Forall_forall. intros x Hx. apply in_concat in Hx as (part & Hpart & Hx).
  assert (Hin : In (Ok part) (map Ok ls)) by (apply in_map; exact Hpart).
  specialize (Hparts part Hin). rewrite List.Forall_forall in Hparts. now apply Hparts.
Qed.

Lemma only_In onlyF onlyD l f :
  In f (only onlyF onlyD l)
  <-> In f l
      /\ (if onlyF then isFile f else true) && (if onlyD then isDirectory f else true)
         = true.
Proof. unfold only. apply filter_In. Qed.

Lemma file_xor_directory f : isFile f && isDirectory f = false.
Proof. unfold isFile, isDirectory. now destruct (dkind f). Qed.

Section Generic.
Context (O : api) (rootPath : option string) (st : St O).

(** What [readDir] and [readDirSync] answer with is a listing put
    through the two final filters. *)
Lemma readDir_resolved p options l :
  readDir O rootPath p options st = Resolved l ->
  exists l0,
    listing O rootPath (levels_of options) p (acceptExtensions options) st = Ok l0
    /\ l = only (onlyFiles options) (onlyDirs options) l0.
Proof.
  unfold readDir. rewrite ReadDirProofs.readDir_levels_listing.
  destruct (fs_readdir O _ st); [|discriminate].
  destruct (listing O rootPath _ p _ st) as [l0|]; [|discriminate].
  intros H; inversion H. eauto.
Qed.

Lemma readDirSync_returned p options l :
  readDirSync O rootPath p options st = Returned l ->
  exists l0,
    listing O rootPath (levels_of options) p (acceptExtensions options) st = Ok l0
    /\ l = only (onlyFiles options) (onlyDirs options) l0.
Proof.
  unfold readDirSync. rewrite ReadDirProofs.readDirSync_levels_listing.
  destruct (listing O rootPath _ p _ st) as [l0|]; [|discriminate].
  intros H; inversion H. eauto.
Qed.

Lemma listing_top_error n p E e :
  fs_readdir O (resolvePath rootPath (PStr p)) st = Err e ->
  listing O rootPath n p E st = Err e.
Proof. intros H. destruct n; simpl; now rewrite H. Qed.

(** With an empty set of extensions no regular file passes. *)
Lemma listing_no_extension n : forall p l,
  listing O rootPath n p (Some []) st = Ok l ->
  Forall (fun f => isFile f = false) l.
Proof.
  assert (Hkept : forall files,
             Forall (fun f => isFile f = false) (extension_filter (Some []) files)).
  { intros files. apply List.Forall_forall. intros f Hf. simpl in Hf.
    apply filter_In in Hf as [_ Hf]. simpl in Hf. rewrite andb_true_r in Hf.
    now apply negb_true_iff in Hf. }
  induction n as [|n IH]; intros p l; simpl;
    destruct (fs_readdir O _ st) as [files|e]; try discriminate.
  - intros H; inversion H; subst. apply Hkept.
  - intros H. eapply splice_Forall; [exact H|].
    intros part Hpart. apply in_map_iff in Hpart as (entry & Hentry & Hin).
    pose proof (Hkept files) as Hk. rewrite List.Forall_forall in Hk.
    specialize (Hk entry Hin).
    destruct (isDirectory entry).
    + destruct (listing O rootPath n _ _ st) as [children|e] eqn:Hc; [|discriminate].
      simpl in Hentry. inversion Hentry; subst.
      specialize (IH _ _ Hc). apply List.Forall_forall. intros f Hf.
      apply in_map_iff in Hf as (c & <- & Hcin).
      rewrite List.Forall_forall in IH. exact (IH c Hcin).
    + inversion Hentry; subst. now constructor.
Qed.

(** One level deeper, every entry that is not a directory is still
    listed. *)
Lemma listing_deeper n : forall p E l l',
  listing O rootPath n p E st = Ok l ->
  listing O rootPath (S n) p E st = Ok l' ->
  forall f, isDirectory f = false -> In f l -> In f l'.
Proof.
  induction n as [|n IH]; intros p E l l' Hl Hl' f Hf Hin.
  - simpl in Hl, Hl'. destruct (fs_readdir O _ st) as [files|e]; [|discriminate].
    inversion Hl; subst. apply splice_ok in Hl' as (ls & Hparts & ->).
    apply in_concat. exists [f]. split; [|now left].
    assert (Hpart : In (Ok [f]) (map Ok ls)).
    { rewrite <- Hparts. apply in_map_iff. exists f. now rewrite Hf. }
    apply in_map_iff in Hpart as (part & Heq & Hpart). now inversion Heq; subst.
  - remember (S n) as m eqn:Hm. simpl in Hl'. subst m. simpl in Hl.
    destruct (fs_readdir O _ st) as [files|e]; [|discriminate].
    set (kept := extension_filter E files) in *.
    apply splice_ok in Hl as (ls & Hparts & ->).
    apply in_concat in Hin as (part & Hpart & Hin).
    assert (Hp : In (Ok part) (map Ok ls)) by (apply in_map; exact Hpart).
    rewrite <- Hparts in Hp. apply in_map_iff in Hp as (entry & Hentry & Hkept).
    assert (Hdeep : exists part',
               (if isDirectory entry then
                  result_map (map (prefixed entry))
                    (listing O rootPath (S n) (Path.join [p; name entry]) E st)
                else Ok [entry]) = Ok part' /\ In f part').
    { destruct (isDirectory entry) eqn:Hd.
      - destruct (listing O rootPath n _ E st) as [children|e] eqn:Hc; [|discriminate].
        simpl in Hentry. inversion Hentry; subst.
        apply in_map_iff in Hin as (c & <- & Hcin).
        destruct (listing O rootPath (S n) (Path.join [p; name entry]) E st)
          as [children'|e] eqn:Hc'.
        + exists (map (prefixed entry) children'). split; [reflexivity|].
          apply in_map. eapply IH; eauto.
        + exfalso. apply splice_ok in Hl' as (ls' & Hparts' & _).
          assert (Hbad : In (Err e) (map Ok ls')).
          { rewrite <- Hparts'. apply in_map_iff. exists entry.
            split; [|exact Hkept]. now rewrite Hd, Hc'. }
          apply in_map_iff in Hbad as (x & Hx & _). discriminate.
      - exists [entry]. now inversion Hentry; subst. }
    destruct Hdeep as (part' & Hpart' & Hin').
    apply splice_ok in Hl' as (ls' & Hparts' & ->).
    apply in_concat. exists part'. split; [|exact Hin'].
    assert (Hp' : In (Ok part') (map Ok ls')).
    { rewrite <- Hparts'. apply in_map_iff. exists entry. split; assumption. }
    apply in_map_iff in Hp' as (x & Hx & Hxin). now inversion Hx; subst.
Qed.
End Generic.

(** X1: [readDir] is rejected exactly when the listing of the
    directory itself fails, with that error, and [readDirSync] raises
    it too; when the directory itself can be listed and [readDirSync]
    raises, for a directory below it, [readDir] is pending. *)
Theorem readDir_rejected_by_top_listing_only
    (O : api) (rootPath : option string) (st : St O)
    (dirPath : string) (options : ReadDirOptions) (e : error) :
  (readDir O rootPath dirPath options st = Rejected e
   <-> fs_readdir O (resolvePath rootPath (PStr dirPath)) st = Err e)
  /\ (fs_readdir O (resolvePath rootPath (PStr dirPath)) st = Err e ->
      readDirSync O rootPath dirPath options st = Raised e)
  /\ (forall files,
        fs_readdir O (resolvePath rootPath (PStr dirPath)) st = Ok files ->
        readDirSync O rootPath dirPath options st = Raised e ->
        readDir O rootPath dirPath options st = Pending).
Proof.
  unfold readDir, readDirSync.
  rewrite ReadDirProofs.readDir_levels_listing, ReadDirProofs.readDirSync_levels_listing.
  split; [|split].
  - destruct (fs_readdir O _ st) as [files|e0] eqn:Htop.
    + destruct (listing O rootPath _ dirPath _ st); split; discriminate.
    + split; intros H; inversion H; reflexivity.
  - intros Htop. now rewrite (listing_top_error O rootPath st _ _ _ _ Htop).
  - intros files Htop. rewrite Htop.
    destruct (listing O rootPath _ dirPath _ st); [discriminate|reflexivity].
Qed.

Lemma readDir_rejected_by_top_listing_only_witness :
  readDir TreeFs.treefs None "nowhere" txt_one_level example_tree
  = Rejected (SystemError ENOENT)
  /\ readDir locked_os None "." txt_one_level tt = Pending.
Proof.
  split.
  - apply (readDir_rejected_by_top_listing_only TreeFs.treefs None example_tree
             "nowhere" txt_one_level (SystemError ENOENT)).
    reflexivity.
  - apply (proj2 (proj2 (readDir_rejected_by_top_listing_only locked_os None tt
                           "." txt_one_level (SystemError EACCES)))
             [mkDirent "locked" KDirectory]); reflexivity.
Defined.

(** X2: with [onlyFiles] and [onlyDirs] both set, [readDir] and
    [readDirSync] answer with the empty list whenever they answer:
    the second filter removes everything the first one kept. *)
Theorem readDir_only_files_and_dirs_is_empty
    (O : api) (rootPath : option string) (st : St O)
    (dirPath : string) (options : ReadDirOptions) (l : list Dirent) :
  onlyFiles options = true ->
  onlyDirs options = true ->
  (readDir O rootPath dirPath options st = Resolved l -> l = [])
  /\ (readDirSync O rootPath dirPath options st = Returned l -> l = []).
Proof.
  intros HF HD.
  assert (Hempty : forall l0, only true true l0 = []).
  { intros l0. unfold only. induction l0 as [|f l0 IH]; [reflexivity|].
    cbn [List.filter]. now rewrite file_xor_directory. }
  split; intros H.
  - apply readDir_resolved in H as (l0 & _ & ->). now rewrite HF, HD.
  - apply readDirSync_returned in H as (l0 & _ & ->). now rewrite HF, HD.
Qed.

Lemma readDir_only_files_and_dirs_is_empty_witness :
  match readDir TreeFs.treefs None "." (mkReadDirOptions None (Some 1) true true)
          example_tree with
  | Resolved l => l = []
  | _ => False
  end.
Proof.
  destruct (readDir TreeFs.treefs None "." (mkReadDirOptions None (Some 1) true true)
              example_tree) as [l| |] eqn:H.
  - exact (proj1 (readDir_only_files_and_dirs_is_empty TreeFs.treefs None example_tree
                    "." (mkReadDirOptions None (Some 1) true true) l eq_refl eq_refl) H).
  - discriminate H.
  - discriminate H.
Defined.

(** X3: every entry [readDir] or [readDirSync] answers with is a
    regular file when [onlyFiles] is set, and a directory when
    [onlyDirs] is set, at every depth. *)
Theorem readDir_only_filters_kinds
    (O : api) (rootPath : option string) (st : St O)
    (dirPath : string) (options : ReadDirOptions) (l : list Dirent) :
  readDir O rootPath dirPath options st = Resolved l
  \/ readDirSync O rootPath dirPath options st = Returned l ->
  (onlyFiles options = true -> Forall (fun f => isFile f = true) l)
  /\ (onlyDirs options = true -> Forall (fun f => isDirectory f = true) l).
Proof.
  intros H.
  assert (Hl : exists l0, l = only (onlyFiles options) (onlyDirs options) l0).
  { destruct H as [H|H];
      [apply readDir_resolved in H|apply readDirSync_returned in H];
      destruct H as (l0 & _ & ->); eauto. }
  destruct Hl as (l0 & ->).
  split; intros Hflag; rewrite Hflag; apply List.Forall_forall; intros f Hf;
    apply only_In in Hf as [_ Hf]; apply andb_true_iff in Hf as [Hf1 Hf2]; assumption.
Qed.

Lemma readDir_only_filters_kinds_witness :
  Forall (fun f => isFile f = true)
    [mkDirent "a.txt" KFile; mkDirent "b.md" KFile; mkDirent "sub/c.txt" KFile].
Proof.
  apply (readDir_only_filters_kinds TreeFs.treefs None example_tree "."
           (mkReadDirOptions None (Some 1) true false)).
  - left. reflexivity.
  - reflexivity.
Defined.

(** X4: with [acceptExtensions: []] no regular file is listed, at any
    depth: an empty array is truthy and no name ends in one of its
    extensions. *)
Theorem readDir_empty_extensions_lists_no_file
    (O : api) (rootPath : option string) (st : St O)
    (dirPath : string) (options : ReadDirOptions) (l : list Dirent) :
  acceptExtensions options = Some [] ->
  readDir O rootPath dirPath options st = Resolved l
  \/ readDirSync O rootPath dirPath options st = Returned l ->
  Forall (fun f => isFile f = false) l.
Proof.
  intros HE H.
  assert (Hl : exists l0,
             listing O rootPath (levels_of options) dirPath (Some []) st = Ok l0
             /\ l = only (onlyFiles options) (onlyDirs options) l0).
  { rewrite <- HE. destruct H as [H|H];
      [apply readDir_resolved in H|apply readDirSync_returned in H]; exact H. }
  destruct Hl as (l0 & Hl0 & ->).
  pose proof (listing_no_extension O rootPath st _ _ _ Hl0) as Hno.
  rewrite List.Forall_forall in Hno. apply List.Forall_forall. intros f Hf.
  apply only_In in Hf as [Hf _]. now apply Hno.
Qed.

Lemma readDir_empty_extensions_lists_no_file_witness :
  Forall (fun f => isFile f = false) [mkDirent "sub" KDirectory].
Proof.
  apply (readDir_empty_extensions_lists_no_file TreeFs.treefs None example_tree "."
           (mkReadDirOptions (Some []) None false false)).
  - reflexivity.
  - left. reflexivity.
Defined.

(** X5: one level of recursion more never loses an entry that is not
    a directory: what [readDir] (or [readDirSync]) lists at depth [n]
    and is not a directory, it lists at depth [n + 1] too, the other
    options being the same. *)
Theorem readDir_deeper_keeps_files
    (O : api) (rootPath : option string) (st : St O) (dirPath : string)
    (E : option (list string)) (onlyF onlyD : bool) (n : nat) (l l' : list Dirent) :
  readDir O rootPath dirPath (mkReadDirOptions E (Some n) onlyF onlyD) st = Resolved l
  \/ readDirSync O rootPath dirPath (mkReadDirOptions E (Some n) onlyF onlyD) st
     = Returned l ->
  readDir O rootPath dirPath (mkReadDirOptions E (Some (S n)) onlyF onlyD) st = Resolved l'
  \/ readDirSync O rootPath dirPath (mkReadDirOptions E (Some (S n)) onlyF onlyD) st
     = Returned l' ->
  forall f, isDirectory f = false -> In f l -> In f l'.
Proof.
  intros H H' f Hf Hin.
  assert (Hl : exists l0, listing O rootPath n dirPath E st = Ok l0
                          /\ l = only onlyF onlyD l0).
  { destruct H as [H|H];
      [apply readDir_resolved in H|apply readDirSync_returned in H]; exact H. }
  assert (Hl' : exists l0, listing O rootPath (S n) dirPath E st = Ok l0
                           /\ l' = only onlyF onlyD l0).
  { destruct H' as [H'|H'];
      [apply readDir_resolved in H'|apply readDirSync_returned in H']; exact H'. }
  destruct Hl as (l0 & Hl0 & ->). destruct Hl' as (l0' & Hl0' & ->).
  apply only_In in Hin as [Hin Hpred]. apply only_In. split; [|exact Hpred].
  exact (listing_deeper O rootPath st n dirPath E l0 l0' Hl0 Hl0' f Hf Hin).
Qed.

Lemma readDir_deeper_keeps_files_witness :
  In (mkDirent "a.txt" KFile) [mkDirent "a.txt" KFile; mkDirent "sub/c.txt" KFile].
Proof.
  apply (readDir_deeper_keeps_files TreeFs.treefs None example_tree "."
           (Some ["txt"]) true false 0
           [mkDirent "a.txt" KFile]
           [mkDirent "a.txt" KFile; mkDirent "sub/c.txt" KFile]).
  - left. reflexivity.
  - right. reflexivity.
  - reflexivity.
  - now left.
Defined.

End ReadDirFacts.

Module TreeFsMore.
Import Js Os FileSystemHelper TreeFs Examples More.

Lemma readTXTFile_file rootPath q st text :
  readTXTFile treefs rootPath q st = Resolved text
  <-> lookup (resolvePath rootPath (PStr q)) st = Ok (File text).
Proof.
  unfold readTXTFile, readFile. cbn [fs_readFile treefs]. unfold tree_readFile.
  destruct (lookup _ st) as [[c|d|]|e]; simpl;
    try change ("" +:+ c) with c; split; intros H; inversion H; reflexivity.
Qed.

(** What is not a directory stays where a path leads to, in a tree
    that keeps the directories and the files. *)
Lemma lookup_kept p st st' n :
  keeps_dirs st st' -> keeps_files st st' ->
  lookup p st = Ok n -> is_dir n = false -> lookup p st' = Ok n.
Proof.
  intros Hd Hf. unfold lookup. destruct (String.eqb p ""); [discriminate|].
  destruct (walk st [] (components p)) as [dir|e] eqn:Hw; [|discriminate].
  rewrite (WalkFacts.walk_keeps_dirs st st' _ _ _ Hd Hw).
  intros Hn Hkind. exact (Hf _ _ Hn Hkind).
Qed.

(** A write that succeeded, as the methods see it. *)
Lemma writeFile_resolved rootPath filePath data options st st' :
  writeFile treefs rootPath filePath data options st = (Resolved tt, st')
  \/ writeFileSync treefs rootPath filePath data options st = (Returned tt, st') ->
  tree_writeFile (resolvePath rootPath (PStr filePath)) data options st = (Ok tt, st').
Proof.
  unfold writeFile, writeFileSync. cbn [fs_writeFile treefs].
  destruct (tree_writeFile _ _ _ st) as [[[]|e] st1];
    intros [H|H]; simpl in H; inversion H; reflexivity.
Qed.

Lemma write_failed p data options st st' e :
  tree_writeFile p data options st = (Err e, st') -> st' = st.
Proof.
  unfold tree_writeFile.
  destruct (locate p st) as [[|dir|dir|dir name [|]]|e0];
    try (intros H; inversion H; reflexivity).
  destruct (change_entry dir name _ st); simpl; intros H; inversion H; reflexivity.
Qed.

(** The entry a path names exists when the path leads to something
    and no slash follows the name. *)
Lemma locate_found p st n :
  lookup p st = Ok n ->
  match locate p st with
  | Ok (Entry dir name _) => node_at (name :: dir) st = Ok n
  | Ok _ => is_dir n = true
  | Err _ => False
  end.
Proof.
  rewrite WalkFacts.lookup_locate.
  destruct (locate p st) as [[|dir|dir|dir name [|]]|e] eqn:Hl; simpl;
    try discriminate; try (intros H; exact H).
  - intros H; now inversion H.
  - intros H.
    assert (Hd : exists d, lookup p st = Ok (Dir d) /\ n = Dir d).
    { rewrite WalkFacts.lookup_locate, Hl. simpl.
      revert Hl. unfold locate. destruct (String.eqb p ""); [discriminate|].
      destruct (without_slashes (rev (components p))) as [|last before]; [discriminate|].
      destruct (walk st [] (rev before)) as [dir0|e0]; [|discriminate].
      destruct (node_at dir0 st) as [[f|d|]|e0] eqn:E; try discriminate.
      destruct (String.eqb last "."); [|destruct (String.eqb last "..")];
        intros Hpl; inversion Hpl; subst.
      rewrite E in H |- *. inversion H; eauto. }
    destruct Hd as (d & _ & ->). reflexivity.
  - intros H.
    assert (Hd : exists d, node_at dir st = Ok (Dir d)).
    { revert Hl. unfold locate. destruct (String.eqb p ""); [discriminate|].
      destruct (without_slashes (rev (components p))) as [|last before]; [discriminate|].
      destruct (walk st [] (rev before)) as [dir0|e0]; [|discriminate].
      destruct (node_at dir0 st) as [[f|d|]|e0] eqn:E; try discriminate.
      destruct (String.eqb last "."); [|destruct (String.eqb last "..")];
        intros Hpl; inversion Hpl; subst; eauto. }
    destruct Hd as [d Hd]. destruct (WalkFacts.node_at_tl dir st d Hd) as [d' Hd'].
    rewrite Hd' in H. now inversion H.
  - destruct (node_at (name :: dir) st) as [[f|d|]|e]; try discriminate.
    intros H; inversion H; reflexivity.
Qed.

(** X6: after [writeFile] with the default options resolved, reading
    the path back gives the data written, whatever the file held
    before: as text with [readTXTFile] and [readTXTFileSync], as bytes
    with [readFile] and [readFileSync]. *)
Theorem writeFile_then_readTXTFile
    (rootPath : option string) (filePath data : string) (st st' : tree) :
  writeFile treefs rootPath filePath data no_options st = (Resolved tt, st')
  \/ writeFileSync treefs rootPath filePath data no_options st = (Returned tt, st') ->
  readTXTFile treefs rootPath filePath st' = Resolved data
  /\ readTXTFileSync treefs rootPath filePath st' = Returned data
  /\ readFile treefs rootPath filePath st' = Resolved (Buffer_from data)
  /\ readFileSync treefs rootPath filePath st' = Returned (Buffer_from data).
Proof.
  intros H. apply writeFile_resolved in H.
  apply TreeFsFacts.writeFile_then_readFile in H.
  unfold readTXTFile, readTXTFileSync, readFile, readFileSync.
  cbn [fs_readFile treefs]. rewrite H. repeat split; reflexivity.
Qed.

Lemma writeFile_then_readTXTFile_witness :
  readTXTFile treefs (Some "sub") "c.txt"
    (snd (writeFile treefs (Some "sub") "c.txt" "delta" no_options example_tree))
  = Resolved "delta".
Proof.
  apply (writeFile_then_readTXTFile (Some "sub") "c.txt" "delta" example_tree).
  left. reflexivity.
Defined.

(** Writing over a regular file that a path leads to. *)
Lemma overwrite p data options content content' st :
  lookup p st = Ok (File content) ->
  write_entry data options (Some (File content)) = Ok (Some (File content')) ->
  exists st',
    tree_writeFile p data options st = (Ok tt, st')
    /\ lookup p st' = Ok (File content').
Proof.
  intros Hl Hw.
  destruct (WalkFacts.lookup_file p st _ Hl eq_refl) as (dir & name & Hloc & Hn).
  unfold tree_writeFile. rewrite Hloc.
  destruct (TreeFsFacts.entry_path dir name) as (s & rest & Hrev & _ & Hc). rewrite Hc.
  unfold node_at in Hn. rewrite Hrev in Hn.
  destruct (TreeFsFacts.change_replaces (write_entry data options) _ _ rest s st Hn Hw)
    as (st' & Hch & Hnew).
  exists st'. rewrite Hch. split; [reflexivity|].
  assert (Hk : keeps_dirs st st').
  { eapply TreeFsFacts.change_keeps_dirs; [|exact Hch]. intros d r. discriminate. }
  rewrite (TreeFsFacts.lookup_entry p st' dir name
             (WalkFacts.locate_keeps_dirs _ _ _ _ Hk Hloc)).
  now rewrite Hrev.
Qed.

(** X7: [writeFile] with [{ flag: 'a' }] on a path that leads to a
    regular file resolves and leaves the old content followed by the
    data. *)
Theorem writeFile_append_keeps_content
    (rootPath : option string) (filePath data content : string) (st : tree) :
  lookup (resolvePath rootPath (PStr filePath)) st = Ok (File content) ->
  exists st',
    writeFile treefs rootPath filePath data (mkWriteOptions (Some FlagA)) st
    = (Resolved tt, st')
    /\ writeFileSync treefs rootPath filePath data (mkWriteOptions (Some FlagA)) st
       = (Returned tt, st')
    /\ readTXTFile treefs rootPath filePath st' = Resolved (content +:+ data).
Proof.
  intros Hl.
  destruct (overwrite _ data (mkWriteOptions (Some FlagA)) content (content +:+ data) st
              Hl eq_refl) as (st' & Hw & Hl').
  exists st'. unfold writeFile, writeFileSync. cbn [fs_writeFile treefs]. rewrite Hw.
  repeat split. now apply readTXTFile_file.
Qed.

Lemma writeFile_append_keeps_content_witness :
  exists st',
    writeFile treefs None "sub/../a.txt" "bet" (mkWriteOptions (Some FlagA)) example_tree
    = (Resolved tt, st')
    /\ writeFileSync treefs None "sub/../a.txt" "bet" (mkWriteOptions (Some FlagA))
         example_tree
       = (Returned tt, st')
    /\ readTXTFile treefs None "sub/../a.txt" st' = Resolved "alphabet".
Proof.
  apply (writeFile_append_keeps_content None "sub/../a.txt" "bet" "alpha" example_tree).
  reflexivity.
Defined.

(** X8: [touch] and [touchSync] called with options that carry no
    flag ([{}]) empty the regular file a path leads to: the default
    flag of [touch] applies only when no options are passed. *)
Theorem touch_without_flag_truncates
    (rootPath : option string) (filePath content : string) (st : tree) :
  lookup (resolvePath rootPath (PStr filePath)) st = Ok (File content) ->
  exists st',
    touch treefs rootPath filePath no_options st = (Resolved tt, st')
    /\ touchSync treefs rootPath filePath no_options st = (Returned tt, st')
    /\ readTXTFile treefs rootPath filePath st' = Resolved "".
Proof.
  intros Hl.
  destruct (overwrite _ "" no_options content "" st Hl eq_refl) as (st' & Hw & Hl').
  exists st'. unfold touch, touchSync, writeFile, writeFileSync.
  cbn [fs_writeFile treefs]. rewrite Hw.
  repeat split. now apply readTXTFile_file.
Qed.

Lemma touch_without_flag_truncates_witness :
  exists st',
    touch treefs None "a.txt" no_options example_tree = (Resolved tt, st')
    /\ touchSync treefs None "a.txt" no_options example_tree = (Returned tt, st')
    /\ readTXTFile treefs None "a.txt" st' = Resolved "".
Proof.
  apply (touch_without_flag_truncates None "a.txt" "alpha" example_tree).
  reflexivity.
Defined.

(** X9: [touch] with its default options is idempotent: once it has
    resolved, a second call resolves and changes nothing. *)
Theorem touch_twice
    (rootPath : option string) (filePath : string) (st st' : tree) :
  touch treefs rootPath filePath touch_options st = (Resolved tt, st') ->
  touch treefs rootPath filePath touch_options st' = (Resolved tt, st')
  /\ touchSync treefs rootPath filePath touch_options st' = (Returned tt, st').
Proof.
  intros H.
  assert (Hw : tree_writeFile (resolvePath rootPath (PStr filePath)) "" touch_options st
               = (Ok tt, st')).
  { apply writeFile_resolved. left. exact H. }
  clear H. unfold touch, touchSync, writeFile, writeFileSync. cbn [fs_writeFile treefs].
  set (p := resolvePath rootPath (PStr filePath)) in *.
  assert (Hfile : exists content, lookup p st' = Ok (File content)).
  { apply TreeFsFacts.write_succeeds in Hw
      as (dir & name & s & rest & Hl & Hrev & _ & Hc & Hk).
    rewrite (TreeFsFacts.lookup_entry p st' dir name
               (WalkFacts.locate_keeps_dirs _ _ _ _ Hk Hl)), Hrev.
    destruct (TreeFsFacts.lookup_change _ _ _ _ _ Hc) as [old Hold].
    destruct (write_entry "" touch_options old) as [r|e] eqn:W; [|contradiction].
    destruct (TreeFsFacts.write_entry_file _ _ _ _ W) as (c & ->). eauto. }
  destruct Hfile as (content & Hfile).
  now rewrite (TreeFsFacts.touch_existing_file p content st' Hfile).
Qed.

Lemma touch_twice_witness :
  let st' := snd (touch treefs None "sub/new.txt" touch_options example_tree) in
  touch treefs None "sub/new.txt" touch_options st' = (Resolved tt, st').
Proof.
  apply (touch_twice None "sub/new.txt" example_tree). reflexivity.
Defined.

(** X10: writing a file at a path where nothing existed and removing
    it with [rm] (or [rmSync]) gives back the file system as it was. *)
Theorem writeFile_then_rm_restores
    (rootPath : option string) (filePath data : string) (options : WriteOptions)
    (st st' : tree) :
  lookup (resolvePath rootPath (PStr filePath)) st = Err (SystemError ENOENT) ->
  writeFile treefs rootPath filePath data options st = (Resolved tt, st') ->
  rm treefs rootPath filePath st' = (Resolved tt, st)
  /\ rmSync treefs rootPath filePath st' = (Returned tt, st).
Proof.
  intros Hmiss H.
  assert (Hw : tree_writeFile (resolvePath rootPath (PStr filePath)) data options st
               = (Ok tt, st')).
  { apply writeFile_resolved. left. exact H. }
  clear H. unfold rm, rmSync. cbn [fs_unlink treefs].
  set (p := resolvePath rootPath (PStr filePath)) in *.
  apply TreeFsFacts.write_succeeds in Hw
    as (dir & name & s & rest & Hl & Hrev & _ & Hc & Hk).
  rewrite (TreeFsFacts.lookup_entry p st dir name Hl), Hrev in Hmiss.
  unfold tree_unlink. rewrite (WalkFacts.locate_keeps_dirs _ _ _ _ Hk Hl).
  destruct (TreeFsFacts.entry_path dir name) as (s0 & rest0 & Hrev0 & _ & Hce).
  rewrite Hce. rewrite Hrev in Hrev0. inversion Hrev0; subst s0 rest0.
  rewrite (TreeFsFacts.change_undo (write_entry data options) unlink_entry (File data)
             rest s st st' eq_refl eq_refl Hmiss Hc).
  split; reflexivity.
Qed.

Lemma writeFile_then_rm_restores_witness :
  rm treefs None "sub/new.txt"
    (snd (writeFile treefs None "sub/new.txt" "text" no_options example_tree))
  = (Resolved tt, example_tree).
Proof.
  apply (writeFile_then_rm_restores None "sub/new.txt" "text" no_options example_tree);
    reflexivity.
Defined.

(** X11: [writeFile] (and so [touch] and [writeJSONFile]) changes no
    other regular file: a file read as text before, at a path that
    walks through other names, reads the same afterwards. *)
Theorem writeFile_keeps_other_files
    (rootPath : option string) (filePath data : string) (options : WriteOptions)
    (other text : string) (st : tree) :
  Path.segments (resolvePath rootPath (PStr other))
  <> Path.segments (resolvePath rootPath (PStr filePath)) ->
  readTXTFile treefs rootPath other st = Resolved text ->
  readTXTFile treefs rootPath other
    (snd (writeFile treefs rootPath filePath data options st)) = Resolved text.
Proof.
  intros Hne Hread. apply readTXTFile_file in Hread. apply readTXTFile_file.
  unfold writeFile. cbn [fs_writeFile treefs].
  set (p := resolvePath rootPath (PStr filePath)) in *.
  set (q := resolvePath rootPath (PStr other)) in *.
  destruct (tree_writeFile p data options st) as [[[]|e] st'] eqn:Hw;
    [|apply write_failed in Hw; subst st'; exact Hread].
  simpl. apply TreeFsFacts.write_succeeds in Hw
    as (dir & name & s & rest & Hl & Hrev & Hseg & Hc & Hk).
  unfold lookup in *. destruct (String.eqb q ""); [discriminate|].
  destruct (walk st [] (components q)) as [dirq|e] eqn:Hwq; [|discriminate].
  rewrite (WalkFacts.walk_keeps_dirs st st' _ _ _ Hk Hwq).
  unfold node_at in *. rewrite (WalkFacts.walk_segments q st dirq Hwq) in *.
  eapply TreeFsFacts.write_keeps_other_files; eauto. congruence.
Qed.

Lemma writeFile_keeps_other_files_witness :
  readTXTFile treefs None "sub/c.txt"
    (snd (writeFile treefs None "a.txt" "omega" no_options example_tree))
  = Resolved "gamma".
Proof.
  apply (writeFile_keeps_other_files None "a.txt" "omega" no_options "sub/c.txt" "gamma"
           example_tree).
  - vm_compute. discriminate.
  - reflexivity.
Defined.

Lemma mkdir_resolved rootPath dirPath (st st' : tree) :
  mkdir treefs rootPath dirPath st = (Resolved tt, st') ->
  tree_mkdir (resolvePath rootPath (PStr dirPath)) st = (Ok tt, st').
Proof.
  unfold mkdir. cbn [fs_mkdir treefs].
  destruct (tree_mkdir _ st) as [[[]|e] st1]; simpl; intros H; inversion H; reflexivity.
Qed.

(** X12: after [mkdir] resolved, every directory on the way to the
    path exists, the path itself included, and [dirExists] answers
    [true] for it. *)
Theorem mkdir_creates_every_directory
    (rootPath : option string) (dirPath : string) (st st' : tree) :
  mkdir treefs rootPath dirPath st = (Resolved tt, st') ->
  (forall k, exists d,
      lookup_node (firstn k (Path.segments (resolvePath rootPath (PStr dirPath))))
        (Dir st') = Ok (Dir d))
  /\ dirExists treefs rootPath dirPath st' = Resolved true
  /\ dirExistsSync treefs rootPath dirPath st' = Returned true.
Proof.
  intros H. apply mkdir_resolved, TreeFsFacts.mkdir_succeeds in H
    as (_ & _ & [d Hd] & Hprefix).
  split; [exact Hprefix|].
  unfold dirExists, dirExistsSync. cbn [fs_stat treefs]. unfold tree_stat.
  rewrite Hd. split; reflexivity.
Qed.

Lemma mkdir_creates_every_directory_witness :
  dirExists treefs None "build/out/js"
    (snd (mkdir treefs None "build/out/js" example_tree)) = Resolved true.
Proof.
  apply (mkdir_creates_every_directory None "build/out/js" example_tree). reflexivity.
Defined.

(** X13: [mkdir] is idempotent: once it has resolved, a second
    [mkdir] of the same path resolves, [mkdirSync] returns, and
    neither changes the file system. *)
Theorem mkdir_is_idempotent
    (rootPath : option string) (dirPath : string) (st st' : tree) :
  mkdir treefs rootPath dirPath st = (Resolved tt, st') ->
  mkdir treefs rootPath dirPath st' = (Resolved tt, st')
  /\ mkdirSync treefs rootPath dirPath st' = (Returned tt, st').
Proof.
  intros H. apply mkdir_resolved, TreeFsFacts.mkdir_succeeds in H
    as (_ & _ & [d Hd] & _).
  split.
  - unfold mkdir. cbn [fs_mkdir treefs].
    now rewrite (TreeFsFacts.mkdir_existing _ _ _ Hd).
  - unfold mkdirSync, existsSync. cbn [fs_access treefs]. unfold tree_access.
    now rewrite Hd.
Qed.

Lemma mkdir_is_idempotent_witness :
  let st' := snd (mkdir treefs (Some "sub") "x/y" example_tree) in
  mkdir treefs (Some "sub") "x/y" st' = (Resolved tt, st').
Proof.
  apply (mkdir_is_idempotent (Some "sub") "x/y" example_tree). reflexivity.
Defined.

Lemma mkdir_keeps p st :
  keeps_dirs st (snd (tree_mkdir p st)) /\ keeps_files st (snd (tree_mkdir p st)).
Proof.
  unfold tree_mkdir. destruct (String.eqb p "").
  - split; [apply TreeFsFacts.keeps_dirs_refl|apply TreeFsFacts.keeps_files_refl].
  - destruct (TreeFsFacts.mkdirp_spec (components p) [] st st eq_refl) as (Hd & Hf & _).
    auto.
Qed.

(** X14: [mkdir] and [mkdirSync] never change a regular file: a file
    read as text before reads the same afterwards, whatever the path
    of the directory and whether the call succeeds or not. *)
Theorem mkdir_keeps_files
    (rootPath : option string) (dirPath other text : string) (st : tree) :
  readTXTFile treefs rootPath other st = Resolved text ->
  readTXTFile treefs rootPath other (snd (mkdir treefs rootPath dirPath st))
  = Resolved text
  /\ readTXTFile treefs rootPath other (snd (mkdirSync treefs rootPath dirPath st))
     = Resolved text.
Proof.
  intros Hread.
  assert (Hmk : readTXTFile treefs rootPath other
                  (snd (mkdir treefs rootPath dirPath st)) = Resolved text).
  { apply readTXTFile_file in Hread. apply readTXTFile_file.
    unfold mkdir. cbn [fs_mkdir treefs].
    destruct (mkdir_keeps (resolvePath rootPath (PStr dirPath)) st) as [Hd Hf].
    destruct (tree_mkdir _ st) as [r st']. simpl in *.
    now apply (lookup_kept _ st st' (File text) Hd Hf). }
  split; [exact Hmk|].
  unfold mkdirSync. destruct (existsSync treefs _ st); [exact Hread|].
  unfold mkdir in Hmk. destruct (fs_mkdir treefs _ st). exact Hmk.
Qed.

Lemma mkdir_keeps_files_witness :
  readTXTFile treefs None "sub/c.txt" (snd (mkdir treefs None "sub/c.txt/deep" example_tree))
  = Resolved "gamma".
Proof.
  apply (mkdir_keeps_files None "sub/c.txt/deep" "sub/c.txt" "gamma" example_tree).
  reflexivity.
Defined.

(** Where a path can be walked to a directory, every part of it
    can. *)
Lemma walk_firstn st comps : forall dir dir' d d' k,
  node_at dir st = Ok (Dir d) ->
  walk st dir comps = Ok dir' ->
  node_at dir' st = Ok (Dir d') ->
  exists dirk dk,
    walk st dir (firstn k comps) = Ok dirk /\ node_at dirk st = Ok (Dir dk).
Proof.
  induction comps as [|c comps IH]; intros dir dir' d d' k Hdir Hw Hd'.
  - rewrite firstn_nil. simpl. eauto.
  - destruct k as [|k]; [simpl; eauto|].
    cbn [firstn walk] in Hw |- *. rewrite Hdir in Hw |- *.
    destruct comps as [|c' comps].
    + rewrite firstn_nil. simpl in Hw |- *. inversion Hw; subst. eauto.
    + assert (Hnext : exists dn, node_at (enter dir c) st = Ok (Dir dn)).
      { simpl in Hw. destruct (node_at (enter dir c) st) as [[f|dn|]|e];
          try discriminate. eauto. }
      destruct Hnext as [dn Hdn]. eapply IH; eauto.
Qed.

(** A missing entry of a directory can be created. *)
Lemma mkdir_missing dir c st d e :
  node_at dir st = Ok (Dir d) ->
  node_at (c :: dir) st = Err e ->
  exists st', change_entry dir c mkdir_entry st = Ok st'.
Proof.
  intros Hdir Hmiss.
  destruct (TreeFsFacts.entry_path dir c) as (s & rest & Hrev & Hpar & Hc). rewrite Hc.
  assert (He : e = SystemError ENOENT).
  { rewrite WalkFacts.node_at_cons, Hdir in Hmiss.
    destruct (find_entry c d); inversion Hmiss; reflexivity. }
  subst e. unfold node_at in Hmiss. rewrite Hrev in Hmiss.
  destruct (TreeFsFacts.change_creates mkdir_entry (Dir []) rest s st eq_refl Hmiss)
    as (st' & Hch & _).
  - exists d. now rewrite Hpar.
  - eauto.
Qed.

(** [mkdirp] fails at something that is not a directory only. *)
Lemma mkdirp_fails comps : forall dir st d e,
  node_at dir st = Ok (Dir d) ->
  fst (mkdirp comps dir st) = Err e ->
  exists k dir' n,
    walk (snd (mkdirp comps dir st)) dir (firstn k comps) = Ok dir'
    /\ node_at dir' (snd (mkdirp comps dir st)) = Ok n
    /\ is_dir n = false.
Proof.
  induction comps as [|c comps IH]; intros dir st d e Hdir; [discriminate|].
  destruct (TreeFsFacts.mkdirp_spec (c :: comps) dir st d Hdir) as (Hkeep & _ & _).
  destruct (Hkeep _ _ Hdir) as [d1 Hd1]. revert Hkeep Hd1.
  cbn [mkdirp].
  assert (Hlift : forall dir1 st1,
             snd (mkdirp comps dir1 st1) = snd (mkdirp comps dir1 st1) ->
             forall d0, node_at dir (snd (mkdirp comps dir1 st1)) = Ok (Dir d0) ->
             enter dir c = dir1 ->
             (exists k dir' n,
                 walk (snd (mkdirp comps dir1 st1)) dir1 (firstn k comps) = Ok dir'
                 /\ node_at dir' (snd (mkdirp comps dir1 st1)) = Ok n
                 /\ is_dir n = false) ->
             exists k dir' n,
               walk (snd (mkdirp comps dir1 st1)) dir (firstn k (c :: comps)) = Ok dir'
               /\ node_at dir' (snd (mkdirp comps dir1 st1)) = Ok n
               /\ is_dir n = false).
  { intros dir1 st1 _ d0 Hd0 Henter (k & dir' & n & Hw & Hn & Hkind).
    exists (S k), dir', n. cbn [firstn walk]. rewrite Hd0, Henter. auto. }
  destruct (stays c || String.eqb c "..") eqn:Hc.
  - intros _ Hd1 Hres.
    assert (Hnext : exists d', node_at (enter dir c) st = Ok (Dir d')).
    { unfold enter. destruct (stays c); [eauto|].
      simpl in Hc. rewrite Hc. eapply WalkFacts.node_at_tl; eauto. }
    destruct Hnext as [d' Hd'].
    eapply Hlift; eauto.
  - apply orb_false_iff in Hc as [Hstay Hdd].
    destruct (node_at (c :: dir) st) as [[f|d'|]|e0] eqn:E.
    + intros _ _ _. simpl. exists 1, (c :: dir), (File f). cbn [firstn walk].
      rewrite Hdir, (WalkFacts.enter_name dir c Hstay Hdd). auto.
    + intros _ Hd1 Hres. eapply Hlift; eauto using WalkFacts.enter_name.
    + intros _ _ _. simpl. exists 1, (c :: dir), Special. cbn [firstn walk].
      rewrite Hdir, (WalkFacts.enter_name dir c Hstay Hdd). auto.
    + destruct (mkdir_missing dir c st d e0 Hdir E) as [st1 Hst1]. rewrite Hst1.
      destruct (TreeFsFacts.mkdir_creates dir c st st1 Hst1) as (_ & _ & Hnew).
      intros _ Hd1 Hres. eapply Hlift; eauto using WalkFacts.enter_name.
Qed.

(** X15: [mkdir] is rejected exactly when the path is empty or some
    part of it leads to something that is not a directory, in the
    file system the call leaves; missing directories never make it
    fail. *)
Theorem mkdir_rejected_iff
    (rootPath : option string) (dirPath : string) (st : tree) :
  let p := resolvePath rootPath (PStr dirPath) in
  let st' := snd (mkdir treefs rootPath dirPath st) in
  (exists e, fst (mkdir treefs rootPath dirPath st) = Rejected e)
  <-> p = ""
      \/ exists k dir n,
           walk st' [] (firstn k (components p)) = Ok dir
           /\ node_at dir st' = Ok n
           /\ is_dir n = false.
Proof.
  intros p st'. subst st'. unfold mkdir. cbn [fs_mkdir treefs]. fold p.
  unfold tree_mkdir. destruct (String.eqb p "") eqn:Hp.
  - apply String.eqb_eq in Hp. simpl. split; [auto|eauto].
  - apply String.eqb_neq in Hp.
    destruct (mkdirp (components p) [] st) as [[[]|e] st'] eqn:Hm; simpl; split.
    + intros [e H]. discriminate.
    + intros [H|(k & dir & n & Hw & Hn & Hkind)]; [contradiction|].
      destruct (TreeFsFacts.mkdirp_spec (components p) [] st st eq_refl) as (_ & _ & Hok).
      rewrite Hm in Hok. simpl in Hok.
      destruct (Hok eq_refl) as (dir' & d' & Hw' & Hd').
      destruct (walk_firstn st' (components p) [] dir' st' d' k eq_refl Hw' Hd')
        as (dirk & dk & Hwk & Hdk).
      rewrite Hwk in Hw. inversion Hw; subst dirk. rewrite Hdk in Hn.
      inversion Hn; subst n. discriminate.
    + intros _. right.
      pose proof (mkdirp_fails (components p) [] st st e eq_refl) as Hf.
      rewrite Hm in Hf. simpl in Hf. exact (Hf eq_refl).
    + eauto.
Qed.

Lemma mkdir_rejected_iff_witness :
  exists e, fst (mkdir treefs None "fresh/../a.txt/inside" example_tree) = Rejected e.
Proof.
  apply (mkdir_rejected_iff None "fresh/../a.txt/inside" example_tree).
  right. exists 3, ["a.txt"], (File "alpha"). repeat split; reflexivity.
Defined.

(** X16: [dirExists] and [dirExistsSync] do not look at the kind of
    what they find: on every path they answer what [fileExists] and
    [fileExistsSync] answer, so [true] for a regular file. *)
Theorem dirExists_is_fileExists
    (rootPath : option string) (p : string) (st : tree) :
  dirExists treefs rootPath p st = fileExists treefs rootPath p st
  /\ dirExistsSync treefs rootPath p st = fileExistsSync treefs rootPath p st
  /\ (forall content,
        lookup (resolvePath rootPath (PStr p)) st = Ok (File content) ->
        dirExists treefs rootPath p st = Resolved true).
Proof.
  unfold dirExists, dirExistsSync, fileExists, fileExistsSync.
  cbn [fs_stat fs_access treefs]. unfold tree_stat, tree_access.
  destruct (lookup _ st) as [n|e]; repeat split; try reflexivity.
  intros content H. discriminate.
Qed.

Lemma dirExists_is_fileExists_witness :
  dirExists treefs None "a.txt" example_tree = Resolved true.
Proof.
  apply (dirExists_is_fileExists None "a.txt" example_tree) with "alpha". reflexivity.
Defined.

(** X17: [rmdir] and [rmdirSync] remove nothing but an empty
    directory: on anything else that exists [rmdir] resolves with
    [false], [rmdirSync] raises, and the file system stays as it
    was. *)
Theorem rmdir_only_empty_directories
    (rootPath : option string) (dirPath : string) (st : tree) (n : node) :
  lookup (resolvePath rootPath (PStr dirPath)) st = Ok n ->
  n <> Dir [] ->
  rmdir treefs rootPath dirPath st = (Resolved false, st)
  /\ exists e, rmdirSync treefs rootPath dirPath st = (Raised e, st).
Proof.
  unfold rmdir, rmdirSync. cbn [fs_rmdir treefs]. unfold tree_rmdir.
  intros Hl Hn. apply locate_found in Hl.
  destruct (locate _ st) as [[|dir|dir|dir name slash]|e]; simpl;
    try (split; [reflexivity|eexists; reflexivity]); try contradiction.
  destruct (TreeFsFacts.entry_path dir name) as (s & rest & Hrev & _ & Hc). rewrite Hc.
  unfold node_at in Hl. rewrite Hrev in Hl.
  assert (Hrefuse : exists e, rmdir_entry (Some n) = Err e).
  { destruct n as [c|[|entry entries]|]; simpl; eauto. now destruct Hn. }
  destruct Hrefuse as [e He].
  rewrite (TreeFsFacts.change_refused rmdir_entry n e rest s st Hl He). simpl. eauto.
Qed.

Lemma rmdir_only_empty_directories_witness :
  rmdir treefs None "sub" example_tree = (Resolved false, example_tree)
  /\ exists e, rmdirSync treefs None "sub" example_tree = (Raised e, example_tree).
Proof.
  apply (rmdir_only_empty_directories None "sub" example_tree
           (Dir [("c.txt", File "gamma")])).
  - reflexivity.
  - discriminate.
Defined.

(** [mkdirp] on a path whose front part can be walked. *)
Lemma mkdirp_walked st a : forall dir dir' d d' b,
  node_at dir st = Ok (Dir d) ->
  walk st dir a = Ok dir' ->
  node_at dir' st = Ok (Dir d') ->
  mkdirp (a ++ b) dir st = mkdirp b dir' st.
Proof.
  induction a as [|c a IH]; intros dir dir' d d' b Hdir; simpl.
  - intros H _; now inversion H.
  - rewrite Hdir. intros Hw Hd'.
    assert (Hnext : exists dn, node_at (enter dir c) st = Ok (Dir dn)).
    { destruct a as [|c' a]; simpl in Hw.
      - inversion Hw; subst. eauto.
      - destruct (node_at (enter dir c) st) as [[f|dn|]|e]; try discriminate. eauto. }
    destruct Hnext as [dn Hdn].
    destruct (stays c || String.eqb c "..") eqn:Hc; [eapply IH; eauto|].
    apply orb_false_iff in Hc as [Hstay Hdd].
    rewrite (WalkFacts.enter_name dir c Hstay Hdd) in *.
    rewrite Hdn. eapply IH; eauto.
Qed.

(** What a path that names an entry is made of. *)
Lemma locate_entry p st dir name :
  locate p st = Ok (Entry dir name false) ->
  exists before d,
    components p = before ++ [name]
    /\ walk st [] before = Ok dir
    /\ node_at dir st = Ok (Dir d)
    /\ stays name = false /\ String.eqb name ".." = false.
Proof.
  unfold locate. destruct (String.eqb p ""); [discriminate|].
  destruct (WalkFacts.components_split p) as (k & Hsplit & Hk).
  destruct (WalkFacts.without_slashes_spec (rev (components p))) as (_ & _ & _ & Hhead).
  destruct (without_slashes (rev (components p))) as [|last before] eqn:Hw;
    [discriminate|].
  destruct (walk st [] (rev before)) as [dir0|e] eqn:Hwalk; [|discriminate].
  destruct (node_at dir0 st) as [[f|d|]|e] eqn:E; try discriminate.
  destruct (String.eqb last ".") eqn:Hdot; [discriminate|].
  destruct (String.eqb last "..") eqn:Hdd; [discriminate|].
  intros H. injection H as Hdir Hname Hslash. subst dir0 last.
  assert (k = 0) as -> by (apply Hk; now left).
  exists (rev before), d. simpl in Hsplit. rewrite app_nil_r in Hsplit.
  unfold stays. rewrite Hhead, Hdot. repeat split; auto.
Qed.

(** X18: creating one directory with [mkdir], below a directory that
    exists, and removing it with [rmdir] gives back the file system as
    it was, [rmdir] resolving with [true]. *)
Theorem mkdir_then_rmdir_restores
    (rootPath : option string) (dirPath : string) (st st' : tree) :
  lookup (resolvePath rootPath (PStr dirPath)) st = Err (SystemError ENOENT) ->
  parent_is_directory (resolvePath rootPath (PStr dirPath)) st ->
  mkdir treefs rootPath dirPath st = (Resolved tt, st') ->
  rmdir treefs rootPath dirPath st' = (Resolved true, st)
  /\ rmdirSync treefs rootPath dirPath st' = (Returned tt, st).
Proof.
  intros Hmiss (dir & name & Hl) Hmk. apply mkdir_resolved in Hmk.
  set (p := resolvePath rootPath (PStr dirPath)) in *.
  rewrite (TreeFsFacts.lookup_entry p st dir name Hl) in Hmiss.
  destruct (locate_entry p st dir name Hl) as (before & d & Hcomps & Hw & Hd & Hstay & Hdd).
  assert (Hp : String.eqb p "" = false).
  { unfold locate in Hl. now destruct (String.eqb p ""). }
  unfold tree_mkdir in Hmk. rewrite Hp, Hcomps in Hmk.
  rewrite (mkdirp_walked st before [] dir st d [name] eq_refl Hw Hd) in Hmk.
  cbn [mkdirp] in Hmk. rewrite Hstay, Hdd in Hmk. simpl in Hmk.
  fold (node_at (name :: dir) st) in Hmiss. rewrite Hmiss in Hmk.
  destruct (change_entry dir name mkdir_entry st) as [st1|e] eqn:Hc; [|discriminate].
  inversion Hmk; subst st1.
  destruct (TreeFsFacts.mkdir_creates dir name st st' Hc) as (Hk & _ & _).
  unfold rmdir, rmdirSync. cbn [fs_rmdir treefs]. fold p. unfold tree_rmdir.
  rewrite (WalkFacts.locate_keeps_dirs _ _ _ _ Hk Hl).
  destruct (TreeFsFacts.entry_path dir name) as (s & rest & Hrev & _ & Hce).
  rewrite Hce in Hc |- *. unfold node_at in Hmiss. rewrite Hrev in Hmiss.
  rewrite (TreeFsFacts.change_undo mkdir_entry rmdir_entry (Dir []) rest s st st'
             eq_refl eq_refl Hmiss Hc).
  split; reflexivity.
Qed.

Lemma mkdir_then_rmdir_restores_witness :
  rmdir treefs None "sub/tmp" (snd (mkdir treefs None "sub/tmp" example_tree))
  = (Resolved true, example_tree).
Proof.
  apply (mkdir_then_rmdir_restores None "sub/tmp" example_tree).
  - reflexivity.
  - exists ["sub"], "tmp". reflexivity.
  - reflexivity.
Defined.

(** X27: [rm] and [rmSync] remove no directory: on a path that leads
    to a directory [rm] is rejected, [rmSync] raises the same error,
    and the file system stays as it was. *)
Theorem rm_refuses_directories
    (rootPath : option string) (filePath : string) (st : tree)
    (entries : list (string * node)) :
  lookup (resolvePath rootPath (PStr filePath)) st = Ok (Dir entries) ->
  exists e,
    rm treefs rootPath filePath st = (Rejected e, st)
    /\ rmSync treefs rootPath filePath st = (Raised e, st).
Proof.
  unfold rm, rmSync. cbn [fs_unlink treefs]. unfold tree_unlink.
  intros Hl. apply locate_found in Hl.
  destruct (locate _ st) as [[|dir|dir|dir name [|]]|e]; simpl;
    try (eexists; split; reflexivity); try contradiction.
  destruct (TreeFsFacts.entry_path dir name) as (s & rest & Hrev & _ & Hc). rewrite Hc.
  unfold node_at in Hl. rewrite Hrev in Hl.
  rewrite (TreeFsFacts.change_refused unlink_entry (Dir entries) (SystemError EISDIR)
             rest s st Hl eq_refl).
  simpl. eauto.
Qed.

Lemma rm_refuses_directories_witness :
  exists e,
    rm treefs None "sub/" example_tree = (Rejected e, example_tree)
    /\ rmSync treefs None "sub/" example_tree = (Raised e, example_tree).
Proof.
  apply (rm_refuses_directories None "sub/" example_tree [("c.txt", File "gamma")]).
  reflexivity.
Defined.

(** X28: after [writeFile] with the default options resolved, the
    path exists for [fileExists] and [fileExistsSync], and
    [fileStatsSync] describes a regular file of the size of the
    data. *)
Theorem writeFile_then_fileStatsSync
    (rootPath : option string) (filePath data : string) (st st' : tree) :
  writeFile treefs rootPath filePath data no_options st = (Resolved tt, st') ->
  fileStatsSync treefs rootPath filePath st'
  = Returned (Some (mkStats KFile (String.length data)))
  /\ fileExists treefs rootPath filePath st' = Resolved true
  /\ fileExistsSync treefs rootPath filePath st' = Returned true.
Proof.
  intros H.
  assert (Hw : tree_writeFile (resolvePath rootPath (PStr filePath)) data no_options st
               = (Ok tt, st')).
  { apply writeFile_resolved. left. exact H. }
  apply TreeFsFacts.writeFile_then_readFile in Hw.
  assert (Hl : lookup (resolvePath rootPath (PStr filePath)) st' = Ok (File data)).
  { unfold tree_readFile in Hw. destruct (lookup _ st') as [[c|d|]|e]; inversion Hw.
    reflexivity. }
  unfold fileStatsSync, fileExists, fileExistsSync. cbn [fs_stat fs_access treefs].
  unfold tree_stat, tree_access. rewrite Hl. repeat split; reflexivity.
Qed.

Lemma writeFile_then_fileStatsSync_witness :
  fileStatsSync treefs None "sub/new.txt"
    (snd (writeFile treefs None "sub/new.txt" "text" no_options example_tree))
  = Returned (Some (mkStats KFile 4)).
Proof.
  apply (writeFile_then_fileStatsSync None "sub/new.txt" "text" example_tree).
  reflexivity.
Defined.

End TreeFsMore.

Module ExecuteMore.
Import Js ChildProcess Examples More.

Lemma includes_append c a x :
  includes c (a +:+ String x "") = includes c a || Ascii.eqb x c.
Proof.
  induction a as [|y a IH].
  - change ("" +:+ String x "") with (String x ""). simpl. now rewrite orb_false_r.
  - rewrite StringFacts.append_cons. simpl. now rewrite IH, orb_assoc.
Qed.

(** No piece of [s.split(sep)] holds the separator. *)
Lemma split_acc_pieces sep s : forall cur,
  includes sep cur = false ->
  Forall (fun piece => includes sep piece = false) (split_acc sep cur s).
Proof.
  induction s as [|c s IH]; intros cur Hcur; cbn [split_acc].
  - now constructor.
  - destruct (Ascii.eqb c sep) eqn:Hc.
    + constructor; [exact Hcur|]. now apply IH.
    + apply IH. now rewrite includes_append, Hcur, Hc.
Qed.

Lemma non_empty_lines_are_lines text :
  Forall (fun line => line <> "" /\ includes newline line = false) (non_empty_lines text).
Proof.
  unfold non_empty_lines, split.
  pose proof (split_acc_pieces newline text "" eq_refl) as H.
  induction H as [|piece pieces Hp _ IH]; cbn [List.filter]; [constructor|].
  destruct (non_empty piece) eqn:Hn; [|exact IH].
  constructor; [|exact IH]. split; [|exact Hp].
  intros ->. discriminate.
Qed.

Lemma chunk_lines events :
  flat_map (fun ev => match ev with
                      | StdoutData buffer => non_empty_lines (toString buffer)
                      | _ => []
                      end) events
  = flat_map non_empty_lines (chunks events).
Proof.
  unfold chunks. induction events as [|ev events IH]; [reflexivity|].
  destruct ev; simpl; try exact IH. now rewrite IH.
Qed.

Lemma whole_output_chunks events :
  whole_output events = fold_right String.append "" (chunks events).
Proof.
  unfold chunks. induction events as [|ev events IH]; [reflexivity|].
  destruct ev; simpl; try exact IH. now rewrite IH.
Qed.

(** Chunks that end their lines, the last one apart, hold the lines
    of their concatenation. *)
Lemma lines_of_chunks cs :
  Forall line_aligned (removelast cs) ->
  flat_map non_empty_lines cs = non_empty_lines (fold_right String.append "" cs).
Proof.
  induction cs as [|c cs IH]; [reflexivity|].
  destruct cs as [|c' cs].
  - intros _. simpl. now rewrite app_nil_r, StringFacts.append_empty.
  - intros H. change (removelast (c :: c' :: cs)) with (c :: removelast (c' :: cs)) in H.
    inversion H as [|? ? Hc Hrest]; subst.
    change (flat_map non_empty_lines (c :: c' :: cs))
      with (non_empty_lines c ++ flat_map non_empty_lines (c' :: cs)).
    rewrite (IH Hrest).
    change (fold_right String.append "" (c :: c' :: cs))
      with (c +:+ fold_right String.append "" (c' :: cs)).
    now rewrite ExecuteProofs.lines_of_aligned.
Qed.

Lemma end_seen events :
  existsb (fun ev => match ev with StdoutEnd => true | _ => false end) events = true
  <-> In StdoutEnd events.
Proof.
  rewrite existsb_exists. split.
  - intros [ev [Hin Hev]]. destruct ev; try discriminate. exact Hin.
  - intros H. exists StdoutEnd. now split.
Qed.

Section Execute.
Variable spawn : string -> list string -> spawned.

(** X19: once [spawn] has returned a child, [execute] is settled
    by the ['end'] of its standard output and by nothing else: the
    promise is pending exactly when no ['end'] arrives, and no
    event of the child rejects it. *)
Theorem execute_settled_by_stdout_end
    (command : string) (args : list string) (events : list child_event) :
  spawn command args = Child events ->
  (execute spawn command args = Pending <-> ~ In StdoutEnd events)
  /\ (forall e, execute spawn command args <> Rejected e).
Proof.
  intros Hspawn. unfold execute. rewrite Hspawn, ExecuteProofs.resolved_all.
  cbn [resolved orb].
  destruct (existsb _ events) eqn:Hex.
  - apply end_seen in Hex. split; [|discriminate].
    split; [discriminate|]. intros H. now destruct H.
  - split; [|discriminate]. split; [|reflexivity].
    intros _ Hin. apply end_seen in Hin. congruence.
Qed.

(** X20: [execute] never yields an empty line, nor a line that
    holds a newline. *)
Theorem execute_lines_are_non_empty
    (command : string) (args lines : list string) :
  execute spawn command args = Resolved lines ->
  Forall (fun line => line <> "" /\ includes newline line = false) lines.
Proof.
  unfold execute. destruct (spawn command args) as [e|events]; [discriminate|].
  destruct (resolved _); [|discriminate].
  intros H. inversion H; subst lines. clear H.
  rewrite ExecuteProofs.deliver_all. cbn [stdout app].
  rewrite chunk_lines. induction (chunks events) as [|c cs IH]; [constructor|].
  cbn [flat_map]. apply Forall_app. split; [apply non_empty_lines_are_lines|exact IH].
Qed.

(** X21: when every chunk but the last ends with a newline (or is
    empty), [execute] resolves with the non-empty lines of the
    whole output, in their order. *)
Theorem execute_lines_of_whole_output
    (command : string) (args : list string) (events : list child_event) :
  spawn command args = Child events ->
  In StdoutEnd events ->
  Forall line_aligned (removelast (chunks events)) ->
  execute spawn command args = Resolved (non_empty_lines (whole_output events)).
Proof.
  intros Hspawn Hend Hal.
  rewrite (ExecuteProofs.execute_collects_chunk_lines spawn _ _ _ Hspawn Hend).
  now rewrite chunk_lines, whole_output_chunks, lines_of_chunks.
Qed.
End Execute.

Lemma execute_settled_by_stdout_end_witness :
  execute (fun _ _ => failed_child) "no-such-command" [] = Pending.
Proof.
  apply (execute_settled_by_stdout_end (fun _ _ => failed_child) "no-such-command" []
           [ErrorEvent (SystemError ENOENT)] eq_refl).
  intros [H|[]]. discriminate.
Defined.

Lemma execute_lines_are_non_empty_witness :
  Forall (fun line => line <> "" /\ includes newline line = false) ["one"; "two"; "three"].
Proof.
  apply (execute_lines_are_non_empty (fun _ _ => three_lines_child) "printf" []).
  reflexivity.
Defined.

Lemma execute_lines_of_whole_output_witness :
  execute (fun _ _ => Child [StdoutData (Buffer_from ("one" +:+ nl));
                             StdoutData (Buffer_from ("two" +:+ nl +:+ nl));
                             ExitEvent 0;
                             StdoutData (Buffer_from "three");
                             StdoutEnd]) "printf" []
  = Resolved ["one"; "two"; "three"].
Proof.
  refine (execute_lines_of_whole_output _ "printf" []
            [StdoutData (Buffer_from ("one" +:+ nl));
             StdoutData (Buffer_from ("two" +:+ nl +:+ nl));
             ExitEvent 0; StdoutData (Buffer_from "three"); StdoutEnd] eq_refl _ _).
  - simpl. tauto.
  - constructor; [exact (aligned_line "one")|].
    constructor; [exact (aligned_line ("two" +:+ nl))|]. constructor.
Defined.

End ExecuteMore.

Module DirWatchMore.
Import Js DirWatch More.

Section Steps.
Variable rootPath : option string.
Variable fs_watch : string -> WatchOptions -> result unit.

Abbreviation step := (DirWatch.step rootPath fs_watch).
Abbreviation run := (DirWatch.run rootPath fs_watch).
Abbreviation watchDir := (DirWatch.watchDir rootPath fs_watch).

(** A settled promise keeps its value. *)
Lemma dir_settled_step p s w act :
  promises w !! p = Some s -> s <> Pending -> promises (step w act) !! p = Some s.
Proof.
  intros Hp Hs. destruct act as [dirPath options|a|h event filename]; simpl.
  - pose proof (DirWatchProofs.fresh_promise_other p s w Hp) as Hne.
    unfold DirWatch.watchDir. destruct (fs_watch _ _); simpl;
      now rewrite lookup_insert_ne.
  - unfold abort. now destruct (watcher a).
  - unfold notify. destruct (fswatchers w !! h) as [fw|]; [|exact Hp].
    destruct (is_open fw); [|exact Hp].
    destruct (decide (listener fw = p)) as [->|Hne].
    + unfold resolve. rewrite Hp. destruct s; try exact Hp. now destruct Hs.
    + now rewrite DirWatchProofs.resolve_other.
Qed.

Lemma dir_settled_run p s acts : forall w,
  promises w !! p = Some s -> s <> Pending -> promises (run acts w) !! p = Some s.
Proof.
  induction acts as [|act acts IH]; intros w Hp Hs; simpl; [exact Hp|].
  apply IH; [|exact Hs]. now apply dir_settled_step.
Qed.

Lemma touches_notifies h act : touches h act = false -> notifies h act = false.
Proof. now destruct act. Qed.

Lemma live_step p h w act :
  live p h w -> touches h act = false -> live p h (step w act).
Proof.
  intros [Harm (fw & Hfw & Hopen & Hl)] Hact. split.
  - apply DirWatchProofs.armed_step; [exact Harm|now apply touches_notifies].
  - exists fw. split; [|auto].
    destruct act as [dirPath options|a|h0 event filename]; simpl.
    + unfold DirWatch.watchDir. destruct (fs_watch _ _); simpl; [|exact Hfw].
      rewrite lookup_insert_ne; [exact Hfw|].
      intros Heq. apply (is_fresh (dom (fswatchers w))). rewrite Heq.
      now apply elem_of_dom_2 with fw.
    + unfold abort. simpl in Hact. destruct (watcher a) as [h0|]; simpl; [|exact Hfw].
      apply Nat.eqb_neq in Hact. rewrite lookup_alter_ne by congruence. exact Hfw.
    + unfold notify. destruct (fswatchers w !! h0) as [fw0|]; [|exact Hfw].
      destruct (is_open fw0); [|exact Hfw].
      now rewrite DirWatchProofs.resolve_watchers.
Qed.

Lemma live_run p h acts : forall w,
  live p h w -> Forall (fun act => touches h act = false) acts -> live p h (run acts w).
Proof.
  induction acts as [|act acts IH]; intros w Hlive Hacts; simpl; [exact Hlive|].
  inversion Hacts; subst. apply IH; [|assumption]. now apply live_step.
Qed.

Lemma notify_resolves p h event filename w :
  live p h w -> promises (notify h event filename w) !! p = Some (Resolved (event, filename)).
Proof.
  intros [[Hp _] (fw & Hfw & Hopen & Hl)]. unfold notify. rewrite Hfw, Hopen, Hl.
  unfold resolve. rewrite Hp. simpl. apply lookup_insert_eq.
Qed.

(** X23: a directory watch resolves with the first change reported
    to its watcher and keeps that value: later changes, later
    calls of [abort] and other watches do not alter it, and the
    [abort] of another watch before the change does not prevent
    it. *)
Theorem watchDir_resolves_with_first_change
    (before between after : list action) (dirPath : string) (options : WatchOptions)
    (h : nat) (event filename : string) :
  let w0 := run before empty_world in
  fs_watch (FileSystemHelper.resolvePath rootPath (FileSystemHelper.PStr dirPath)) options
  = Ok tt ->
  watcher (fst (watchDir dirPath options w0)) = Some h ->
  Forall (fun act => touches h act = false) between ->
  promises (run (between ++ Notify h event filename :: after)
              (snd (watchDir dirPath options w0)))
    !! promise (fst (watchDir dirPath options w0))
  = Some (Resolved (event, filename)).
Proof.
  intros w0 Hok Hw Hquiet.
  destruct (DirWatchProofs.watchDir_arms rootPath fs_watch dirPath options w0
              (DirWatchProofs.dir_well_formed_run rootPath fs_watch before _
                 (DirWatchProofs.dir_well_formed_empty))
              Hok) as (h' & Hw' & Harm).
  assert (h' = h) as -> by congruence.
  assert (Hlive : live (promise (fst (watchDir dirPath options w0))) h
                    (snd (watchDir dirPath options w0))).
  { split; [exact Harm|]. revert Hw. unfold DirWatch.watchDir. rewrite Hok. simpl.
    intros Hh; inversion Hh; subst h. eexists. split; [apply lookup_insert_eq|].
    split; reflexivity. }
  unfold DirWatch.run. rewrite fold_left_app. cbn [fold_left DirWatch.step].
  apply dir_settled_run; [|discriminate].
  apply notify_resolves. now apply live_run.
Qed.

(** X24: when [fs.watch] throws, [watchDir] still returns: its
    promise is rejected with the error thrown and stays so, and
    the returned [abort] completes and changes nothing. *)
Theorem watchDir_rejected_when_watch_throws
    (dirPath : string) (options : WatchOptions) (e : error) (w : world)
    (after : list action) :
  fs_watch (FileSystemHelper.resolvePath rootPath (FileSystemHelper.PStr dirPath)) options
  = Err e ->
  promises (run after (snd (watchDir dirPath options w)))
    !! promise (fst (watchDir dirPath options w)) = Some (Rejected e)
  /\ forall w', abort (fst (watchDir dirPath options w)) w' = (Resolved tt, w').
Proof.
  intros Herr. split.
  - apply dir_settled_run; [|discriminate].
    unfold DirWatch.watchDir. rewrite Herr. simpl. apply lookup_insert_eq.
  - intros w'. unfold DirWatch.watchDir. now rewrite Herr.
Qed.
End Steps.

Lemma watchDir_resolves_with_first_change_witness :
  let fs_watch := fun (_ : string) (_ : WatchOptions) => Ok tt in
  let options := mkWatchOptions (Some true) None in
  let w0 := run None fs_watch [CallWatchDir "logs" options] empty_world in
  promises
    (run None fs_watch
       ([Notify 0 "change" "app.log"; CallAbort (mkAbortable 0 (Some 0))]
        ++ Notify 1 "rename" "index.ts"
        :: [Notify 1 "change" "other.ts"; CallAbort (mkAbortable 1 (Some 1))])
       (snd (watchDir None fs_watch "src" options w0)))
    !! promise (fst (watchDir None fs_watch "src" options w0))
  = Some (Resolved ("rename", "index.ts")).
Proof.
  apply (watchDir_resolves_with_first_change None (fun _ _ => Ok tt)
           [CallWatchDir "logs" (mkWatchOptions (Some true) None)]
           [Notify 0 "change" "app.log"; CallAbort (mkAbortable 0 (Some 0))]
           [Notify 1 "change" "other.ts"; CallAbort (mkAbortable 1 (Some 1))]
           "src" (mkWatchOptions (Some true) None) 1 "rename" "index.ts").
  - reflexivity.
  - vm_compute. reflexivity.
  - repeat constructor.
Defined.

Lemma watchDir_rejected_when_watch_throws_witness :
  let fs_watch := fun (_ : string) (_ : WatchOptions) => Err (SystemError ENOENT) in
  let options := mkWatchOptions None None in
  promises (run None fs_watch [Notify 0 "change" "x"; CallWatchDir "src" options]
              (snd (watchDir None fs_watch "missing" options empty_world)))
    !! promise (fst (watchDir None fs_watch "missing" options empty_world))
  = Some (Rejected (SystemError ENOENT)).
Proof.
  apply (watchDir_rejected_when_watch_throws None
           (fun _ _ => Err (SystemError ENOENT)) "missing" (mkWatchOptions None None)
           (SystemError ENOENT) empty_world
           [Notify 0 "change" "x"; CallWatchDir "src" (mkWatchOptions None None)]).
  reflexivity.
Defined.

End DirWatchMore.

Module FileWatchMore.
Import Js Os FileWatch More.

Lemma call_shape curr prev w f :
  functions (call curr prev w f) = functions w
  /\ polls (call curr prev w f) = polls w
  /\ dom (watch_promises (call curr prev w f)) = dom (watch_promises w).
Proof.
  unfold call. destruct (functions w !! f) as [[p|q]|]; simpl; auto.
  now rewrite FileWatchProofs.settle_dom.
Qed.

Lemma calls_shape curr prev ls : forall w,
  let w' := fold_left (call curr prev) ls w in
  functions w' = functions w /\ polls w' = polls w
  /\ dom (watch_promises w') = dom (watch_promises w).
Proof.
  induction ls as [|f ls IH]; intros w; simpl; [auto|].
  destruct (IH (call curr prev w f)) as (H1 & H2 & H3).
  destruct (call_shape curr prev w f) as (C1 & C2 & C3). simpl in *.
  rewrite H1, H2, H3. auto.
Qed.

(** A call settles no promise that is settled. *)
Lemma call_keeps_settled p s curr prev w f :
  watch_promises w !! p = Some s -> s <> Pending ->
  watch_promises (call curr prev w f) !! p = Some s.
Proof.
  intros Hp Hs. unfold call. destruct (functions w !! f) as [[p'|q]|]; simpl; auto.
  destruct (decide (p' = p)) as [->|Hne].
  - unfold settle_pending. rewrite Hp. destruct s; try exact Hp. now destruct Hs.
  - now rewrite FileWatchProofs.settle_other.
Qed.

Lemma calls_keep_settled p s curr prev ls : forall w,
  watch_promises w !! p = Some s -> s <> Pending ->
  watch_promises (fold_left (call curr prev) ls w) !! p = Some s.
Proof.
  induction ls as [|f ls IH]; intros w Hp Hs; simpl; [exact Hp|].
  apply IH; [|exact Hs]. now apply call_keeps_settled.
Qed.

(** Calling listeners none of which resolves [p] leaves it pending. *)
Lemma calls_keep_watch_pending p curr prev ls : forall w,
  watch_promises w !! p = Some Pending ->
  (forall f, In f ls -> functions w !! f <> Some (ResolveWatch p)) ->
  watch_promises (fold_left (call curr prev) ls w) !! p = Some Pending.
Proof.
  induction ls as [|f ls IH]; intros w Hp Hfun; simpl; [exact Hp|].
  destruct (call_shape curr prev w f) as (C1 & _).
  apply IH.
  - unfold call. destruct (functions w !! f) as [[p'|q]|] eqn:E; simpl; auto.
    rewrite FileWatchProofs.settle_other; [exact Hp|].
    intros ->. apply (Hfun f); [now left|exact E].
  - intros g Hg. rewrite C1. apply Hfun. now right.
Qed.

(** Calling listeners one of which resolves the pending [p] resolves
    it with what the poll found. *)
Lemma calls_resolve p f curr prev ls : forall w,
  watch_promises w !! p = Some Pending ->
  functions w !! f = Some (ResolveWatch p) ->
  In f ls ->
  watch_promises (fold_left (call curr prev) ls w) !! p = Some (Resolved (curr, prev)).
Proof.
  induction ls as [|g ls IH]; intros w Hp Hf Hin; [contradiction|].
  cbn [fold_left].
  destruct (call_shape curr prev w g) as (C1 & _).
  destruct (functions w !! g) as [[p'|q]|] eqn:E.
  - destruct (decide (p' = p)) as [->|Hne].
    + apply calls_keep_settled; [|discriminate].
      unfold call. rewrite E. simpl. unfold settle_pending. rewrite Hp.
      apply lookup_insert_eq.
    + apply IH.
      * unfold call. rewrite E. simpl. now rewrite FileWatchProofs.settle_other.
      * now rewrite C1.
      * destruct Hin as [->|Hin]; [|exact Hin]. congruence.
  - apply IH.
    + unfold call. now rewrite E.
    + now rewrite C1.
    + destruct Hin as [->|Hin]; [|exact Hin]. congruence.
  - apply IH.
    + unfold call. now rewrite E.
    + now rewrite C1.
    + destruct Hin as [->|Hin]; [|exact Hin]. congruence.
Qed.

Lemma listeners_of_polls name w w' :
  polls w' = polls w -> listeners_of name w' = listeners_of name w.
Proof. unfold listeners_of. now intros ->. Qed.

Lemma unwatch_keeps_watch_promises name f w :
  watch_promises (fs_unwatchFile name f w) = watch_promises w.
Proof. unfold fs_unwatchFile. now destruct (polls w !! name). Qed.

Section Steps.
Variable rootPath : option string.

Abbreviation step := (FileWatch.step rootPath).
Abbreviation run := (FileWatch.run rootPath).
Abbreviation watchFile := (FileWatch.watchFile rootPath).
Abbreviation abort := (FileWatch.abort rootPath).

Lemma file_settled_step p s w act :
  watch_promises w !! p = Some s -> s <> Pending ->
  watch_promises (step w act) !! p = Some s.
Proof.
  intros Hp Hs. destruct act as [path options|a|name curr prev]; cbn [FileWatch.step].
  - unfold FileWatch.watchFile. cbn [snd]. simpl. rewrite lookup_insert_ne; [exact Hp|].
    intros Heq. apply (is_fresh (dom (watch_promises w))). rewrite Heq.
    now apply elem_of_dom_2 with s.
  - unfold FileWatch.abort. cbn [snd]. now rewrite unwatch_keeps_watch_promises.
  - unfold poll_fires. now apply calls_keep_settled.
Qed.

Lemma file_settled_run p s acts : forall w,
  watch_promises w !! p = Some s -> s <> Pending ->
  watch_promises (run acts w) !! p = Some s.
Proof.
  induction acts as [|act acts IH]; intros w Hp Hs; simpl; [exact Hp|].
  apply IH; [|exact Hs]. now apply file_settled_step.
Qed.

Lemma watch_closed_step w act :
  well_formed w -> watch_closed w -> watch_closed (step w act).
Proof.
  intros Hwf Hc. destruct act as [path options|a|name curr prev]; cbn [FileWatch.step].
  - intros f p. unfold FileWatch.watchFile. cbn [snd]. simpl.
    rewrite lookup_insert. case_decide as Hfresh.
    + intros Hf; inversion Hf; subst. eapply elem_of_dom_2, lookup_insert_eq.
    + intros Hf. apply dom_insert_subseteq, (Hc f), Hf.
  - rewrite FileWatchProofs.abort_world by exact Hwf. intros f p. simpl.
    rewrite lookup_insert. case_decide as Hfresh; [discriminate|]. apply Hc.
  - unfold poll_fires.
    destruct (calls_shape curr prev (listeners_of name w) w) as (H1 & _ & H3).
    intros f p. rewrite H1, H3. apply Hc.
Qed.

Lemma watch_closed_run acts : forall w,
  well_formed w -> watch_closed w -> watch_closed (run acts w).
Proof.
  induction acts as [|act acts IH]; intros w Hwf Hc; simpl; [exact Hc|].
  apply IH; [now apply FileWatchProofs.file_well_formed_step|now apply watch_closed_step].
Qed.

Lemma watch_closed_empty : watch_closed empty_world.
Proof. intros f p H. simpl in H. now rewrite lookup_empty in H. Qed.

Lemma fresh_function_other w f c :
  functions w !! f = Some c -> fresh (dom (functions w)) <> f.
Proof.
  intros Hf Heq. apply (is_fresh (dom (functions w))). rewrite Heq.
  now apply elem_of_dom_2 with c.
Qed.

Lemma watching_step p f name w act :
  well_formed w -> watching p f name w -> polls_name name act = false ->
  watching p f name (step w act).
Proof.
  intros Hwf (Hp & Hf & Hin & Honly & Hname) Hact.
  pose proof (fresh_function_other w f _ Hf) as Hfresh.
  destruct act as [path options|a|name' curr prev]; cbn [FileWatch.step].
  - assert (Hpf : fresh (dom (watch_promises w)) <> p).
    { intros Heq. apply (is_fresh (dom (watch_promises w))). rewrite Heq.
      now apply elem_of_dom_2 with Pending. }
    unfold FileWatch.watchFile. cbn [snd].
    set (name0 := FileSystemHelper.resolvePath rootPath (FileSystemHelper.PStr path)).
    repeat split; simpl.
    + now rewrite lookup_insert_ne.
    + now rewrite lookup_insert_ne.
    + unfold listeners_of at 1. simpl. rewrite lookup_insert. case_decide as Hn.
      * simpl. subst name0. rewrite Hn. apply in_or_app. now left.
      * exact Hin.
    + intros f'. rewrite lookup_insert. case_decide as Hf'.
      * intros H; inversion H. contradiction.
      * apply Honly.
    + intros nm ls. rewrite lookup_insert. case_decide as Hn.
      * intros Hl Hls. inversion Hl; subst ls nm.
        apply in_app_or in Hls as [Hls|[Heq|[]]]; [|contradiction].
        apply FileWatchProofs.listeners_of_spec in Hls as (ls0 & Hl0 & Hin0).
        simpl in Hl0. exact (Hname _ _ Hl0 Hin0).
      * apply Hname.
  - rewrite FileWatchProofs.abort_world by exact Hwf.
    repeat split; simpl.
    + exact Hp.
    + now rewrite lookup_insert_ne.
    + exact Hin.
    + intros f'. rewrite lookup_insert. case_decide as Hf'; [discriminate|].
      apply Honly.
    + exact Hname.
  - simpl in Hact. apply String.eqb_neq in Hact.
    unfold poll_fires.
    destruct (calls_shape curr prev (listeners_of name' w) w) as (H1 & H2 & _).
    repeat split.
    + apply calls_keep_watch_pending; [exact Hp|].
      intros g Hg Hfun. apply Honly in Hfun. subst g.
      apply FileWatchProofs.listeners_of_spec in Hg as (ls0 & Hl0 & Hin0).
      apply Hact. symmetry. exact (Hname _ _ Hl0 Hin0).
    + now rewrite H1.
    + now rewrite (listeners_of_polls name _ _ H2).
    + intros f'. rewrite H1. apply Honly.
    + intros nm ls. rewrite H2. apply Hname.
Qed.

Lemma watching_run p f name acts : forall w,
  well_formed w -> watching p f name w ->
  Forall (fun act => polls_name name act = false) acts ->
  watching p f name (run acts w).
Proof.
  induction acts as [|act acts IH]; intros w Hwf Hw Hacts; simpl; [exact Hw|].
  inversion Hacts; subst. apply IH; [|now apply watching_step|assumption].
  now apply FileWatchProofs.file_well_formed_step.
Qed.

Lemma watchFile_watches path options w :
  well_formed w -> watch_closed w ->
  watching (promise (fst (watchFile path options w))) (fresh (dom (functions w)))
    (FileSystemHelper.resolvePath rootPath (FileSystemHelper.PStr path))
    (snd (watchFile path options w)).
Proof.
  intros [Hpolls _] Hc. unfold FileWatch.watchFile. cbn [fst snd promise].
  repeat split; simpl.
  - apply lookup_insert_eq.
  - apply lookup_insert_eq.
  - unfold listeners_of at 1. simpl. rewrite lookup_insert_eq. simpl.
    apply in_or_app. right. now left.
  - intros f'. rewrite lookup_insert. case_decide as Hf'; [auto|].
    intros Hf. apply Hc in Hf. exfalso. exact (is_fresh _ Hf).
  - intros nm ls. rewrite lookup_insert. case_decide as Hn; [auto|].
    intros Hl Hls. destruct (Hpolls _ _ Hl) as [_ Hdom].
    exfalso. exact (is_fresh _ (Hdom _ Hls)).
Qed.

(** X25: a file watch resolves at the first poll that finds its
    file changed, with the two stats of that poll, and keeps that
    value; calls of [abort] before the poll, its own included, do
    not prevent it. *)
Theorem watchFile_resolves_at_first_poll
    (before between after : list action) (path : string) (options : WatchOptions)
    (curr prev : Stats) :
  let w0 := run before empty_world in
  let name := FileSystemHelper.resolvePath rootPath (FileSystemHelper.PStr path) in
  Forall (fun act => polls_name name act = false) between ->
  watch_promises (run (between ++ PollFires name curr prev :: after)
                    (snd (watchFile path options w0)))
    !! promise (fst (watchFile path options w0))
  = Some (Resolved (curr, prev)).
Proof.
  intros w0 name Hquiet.
  assert (Hwf : well_formed w0)
    by apply FileWatchProofs.file_well_formed_run, FileWatchProofs.file_well_formed_empty.
  assert (Hc : watch_closed w0).
  { apply watch_closed_run;
      [apply FileWatchProofs.file_well_formed_empty|apply watch_closed_empty]. }
  pose proof (watchFile_watches path options w0 Hwf Hc) as Hw. fold name in Hw.
  apply (watching_run _ _ _ between) in Hw;
    [|exact (FileWatchProofs.file_well_formed_step rootPath w0
               (CallWatchFile path options) Hwf)|exact Hquiet].
  destruct Hw as (Hp & Hf & Hin & _).
  unfold FileWatch.run. rewrite fold_left_app. cbn [fold_left FileWatch.step].
  apply file_settled_run; [|discriminate].
  unfold poll_fires. eapply calls_resolve; eauto.
Qed.

(** X26: no call and no poll ever unregisters a listener: the
    listeners polled for under a name are kept, in their order, and
    new ones come after them. *)
Theorem listeners_are_never_removed
    (before acts : list action) (name : string) :
  let w := run before empty_world in
  exists more, listeners_of name (run acts w) = listeners_of name w ++ more.
Proof.
  intros w.
  assert (Hwf : well_formed w)
    by apply FileWatchProofs.file_well_formed_run, FileWatchProofs.file_well_formed_empty.
  clearbody w. revert w Hwf.
  induction acts as [|act acts IH]; intros w Hwf; simpl.
  - exists []. now rewrite app_nil_r.
  - destruct (IH (step w act) (FileWatchProofs.file_well_formed_step rootPath w act Hwf))
      as [more Hmore].
    fold (FileWatch.run rootPath acts (step w act)). rewrite Hmore.
    assert (Hstep : exists one, listeners_of name (step w act) = listeners_of name w ++ one).
    { destruct act as [path options|a|name' curr prev]; cbn [FileWatch.step].
      - unfold FileWatch.watchFile. cbn [snd]. unfold listeners_of at 1. simpl.
        rewrite lookup_insert. case_decide as Hn.
        + simpl. rewrite Hn. eexists. reflexivity.
        + exists []. now rewrite app_nil_r.
      - rewrite (listeners_of_polls name _ _
                   (FileWatchProofs.abort_keeps_polls rootPath a w Hwf)).
        exists []. now rewrite app_nil_r.
      - unfold poll_fires.
        destruct (calls_shape curr prev (listeners_of name' w) w) as (_ & H2 & _).
        rewrite (listeners_of_polls name _ _ H2). exists []. now rewrite app_nil_r. }
    destruct Hstep as [one Hone]. rewrite Hone, <- app_assoc. eauto.
Qed.
End Steps.

Lemma watchFile_resolves_at_first_poll_witness :
  let options := mkWatchOptions (Some 100) None in
  let w0 := run None [CallWatchFile "other.txt" options] empty_world in
  let a := fst (watchFile None "notes.txt" options w0) in
  watch_promises
    (run None
       ([CallAbort a; PollFires "other.txt" (mkStats KFile 1) (mkStats KFile 0)]
        ++ PollFires "notes.txt" (mkStats KFile 12) (mkStats KFile 5)
        :: [PollFires "notes.txt" (mkStats KFile 20) (mkStats KFile 12)])
       (snd (watchFile None "notes.txt" options w0)))
    !! promise a
  = Some (Resolved (mkStats KFile 12, mkStats KFile 5)).
Proof.
  apply (watchFile_resolves_at_first_poll None
           [CallWatchFile "other.txt" (mkWatchOptions (Some 100) None)]
           [CallAbort (fst (watchFile None "notes.txt" (mkWatchOptions (Some 100) None)
                              (run None [CallWatchFile "other.txt"
                                           (mkWatchOptions (Some 100) None)] empty_world)));
            PollFires "other.txt" (mkStats KFile 1) (mkStats KFile 0)]
           [PollFires "notes.txt" (mkStats KFile 20) (mkStats KFile 12)]
           "notes.txt" (mkWatchOptions (Some 100) None) (mkStats KFile 12) (mkStats KFile 5)).
  repeat constructor.
Defined.

End FileWatchMore.
